(** * fealpy: half-edge domains, their boundary refinement, and the growable array

    A shallow embedding of
      - [fealpy/common/DynamicArray.py]  (class [DynamicArray]),
      - [fealpy/mesh/HalfEdgeDomain.py]  (class [HalfEdgeDomain]:
        [__init__], [to_halfedgemesh], [advance_triangle_mesh],
        [boundary_uniform_refine], [boundary_adaptive_refine] and
        [is_intersect]),
    together with the part of NumPy's indexing semantics these methods use.

    Conventions.
      - A Python call that raises is a value [inl e] of [result]; [e] is the
        exception class.
      - An [ndarray] is a list of its slots along axis 0.  Integer arrays hold
        [Z] (the index dtype is wide enough for every index of an array that
        fits in memory, so no wrap-around is modelled); float arrays hold
        binary64 numbers ([PrimFloat.float]); boolean arrays hold [bool].
      - Arrays are Python objects: the half-edge domain lives in a store
        ([heap]) and its fields are references, so that in-place writes and
        aliasing are visible. *)

From Stdlib Require Import ZArith List Bool Lia Floats.
From stdpp Require Import base tactics option list numbers gmap sorting.

#[local] Open Scope Z_scope.

(** ** Python: exceptions and fallible computations *)

Module Py.

Inductive exn : Type :=
| IndexError
| ValueError
| TypeError
| AttributeError
| AssertionError
| DanglingReference. (* a reference to no object: cannot arise in Python *)

Definition result (A : Type) : Type := (exn + A)%type.

Definition ok {A} (a : A) : result A := inr a.
Definition raise {A} (e : exn) : result A := inl e.

(** [x ← m; k] runs [m] and, unless it raised, continues with [k]. *)
#[global] Instance result_bind : MBind result :=
  fun A B (k : A -> result B) (m : result A) =>
    match m with
    | inl e => inl e
    | inr a => k a
    end.

#[global] Instance result_ret : MRet result := fun A (a : A) => inr a.

End Py.

Export Py.

(** ** The fragment of NumPy used by the sources *)

Module Np.

Definition len {A} (a : list A) : Z := Z.of_nat (length a).

(** An integer index into an axis of length [n]: negative indices count from
    the end, anything outside [-n, n) raises IndexError. *)
Definition norm_index (n : nat) (i : Z) : result nat :=
  if (0 <=? i) && (i <? Z.of_nat n) then ok (Z.to_nat i)
  else if (- Z.of_nat n <=? i) && (i <? 0) then ok (Z.to_nat (Z.of_nat n + i))
  else raise IndexError.

Fixpoint norm_indices (n : nat) (idx : list Z) : result (list nat) :=
  match idx with
  | [] => ok []
  | i :: idx' =>
      k ← norm_index n i;
      ks ← norm_indices n idx';
      ok (k :: ks)
  end.

(** [a[i]] *)
Definition item {A} (a : list A) (i : Z) : result A :=
  k ← norm_index (length a) i;
  match a !! k with
  | Some x => ok x
  | None => raise IndexError
  end.

(** [a[idx]] for an integer index array [idx] (a copy). *)
Fixpoint take {A} (a : list A) (idx : list Z) : result (list A) :=
  match idx with
  | [] => ok []
  | i :: idx' =>
      x ← item a i;
      xs ← take a idx';
      ok (x :: xs)
  end.

(** The slots of [a] where the mask is true, in order. *)
Fixpoint select {A} (m : list bool) (a : list A) : list A :=
  match m, a with
  | b :: m', x :: a' => if b then x :: select m' a' else select m' a'
  | _, _ => []
  end.

(** [m.sum()]: the number of true entries of a mask. *)
Fixpoint count_true (m : list bool) : nat :=
  match m with
  | [] => O
  | b :: m' => ((if b then 1 else 0) + count_true m')%nat
  end.

(** The number of true entries before position [i]: where the slot [i] of
    an array lands in [a[m]]. *)
Definition rank (m : list bool) (i : nat) : nat := count_true (firstn i m).

(** [a[m]] for a boolean mask [m] (a copy): the mask must be as long as the axis. *)
Definition mask {A} (m : list bool) (a : list A) : result (list A) :=
  if Nat.eqb (length m) (length a) then ok (select m a) else raise IndexError.

(** Broadcasting a one-dimensional value to [n] slots on assignment. *)
Definition broadcast {B} (n : nat) (v : list B) : result (list B) :=
  if Nat.eqb (length v) n then ok v
  else match v with
       | [x] => ok (replicate n x)
       | _ => raise ValueError
       end.

(** [a op b] on two arrays, slot by slot: an array of one slot is broadcast
    to the length of the other one, other lengths must agree. *)
Definition binop {A B C} (f : A -> B -> C) (a : list A) (b : list B) : result (list C) :=
  let n := if Nat.eqb (length a) 1 then length b else length a in
  a' ← broadcast n a;
  b' ← broadcast n b;
  ok (zip_with f a' b').

(** [a[:, c] = v]: [upd] writes one value into column [c] of a row. *)
Definition col_set {A B} (upd : A -> B -> A) (a : list A) (v : list B) : result (list A) :=
  v' ← broadcast (length a) v;
  ok (zip_with upd a v').

Fixpoint scatter {A B} (upd : A -> B -> A) (m : list bool) (a : list A) (v : list B) : list A :=
  match m, a with
  | true :: m', x :: a' =>
      match v with
      | y :: v' => upd x y :: scatter upd m' a' v'
      | [] => x :: a'
      end
  | false :: m', x :: a' => x :: scatter upd m' a' v
  | _, _ => a
  end.

(** [a[m, c] = v] for a boolean mask [m]. *)
Definition mask_set {A B} (upd : A -> B -> A) (m : list bool) (a : list A) (v : list B)
  : result (list A) :=
  if Nat.eqb (length m) (length a) then
    v' ← broadcast (count_true m) v;
    ok (scatter upd m a v')
  else raise IndexError.

Fixpoint put_seq {A B} (upd : A -> B -> A) (a : list A) (ks : list nat) (v : list B) : list A :=
  match ks, v with
  | k :: ks', y :: v' => put_seq upd (alter (fun x => upd x y) k a) ks' v'
  | _, _ => a
  end.

(** [a[idx, c] = v] for an integer index array [idx]: the writes happen in
    order, so that of a repeated index the last one stays. *)
Definition put {A B} (upd : A -> B -> A) (a : list A) (idx : list Z) (v : list B)
  : result (list A) :=
  v' ← broadcast (length idx) v;
  ks ← norm_indices (length a) idx;
  ok (put_seq upd a ks v').

(** The positions of the true entries of a mask, in order: [np.nonzero(m)[0]]. *)
Definition positions (m : list bool) : list nat := select m (seq 0 (length m)).

(** [range(a, b)] *)
Definition range (a b : Z) : list Z := seqZ a (b - a).

(** [np.argsort(v)]: the keys are paired with their positions and sorted by
    key.  (NumPy's default sort leaves the order of equal keys unspecified;
    the sources sort pairwise different twin indices.) *)
Definition key_le (p q : Z * nat) : Prop := p.1 <= q.1.

#[global] Instance key_le_dec : RelDecision key_le.
Proof. intros p q. unfold key_le. apply _. Defined.

Definition argsort (v : list Z) : list Z :=
  (fun p : Z * nat => Z.of_nat p.2) <$> merge_sort key_le (zip v (seq 0 (length v))).

(** Python's [a[i:j]] on an axis of length [n]: the bounds of the slice. *)
Definition clamp (n i : Z) : Z :=
  let i := if i <? 0 then i + n else i in
  if i <? 0 then 0 else if n <? i then n else i.

Definition slice_bounds (n : nat) (i j : Z) : nat * nat :=
  let lo := clamp (Z.of_nat n) i in
  let hi := clamp (Z.of_nat n) j in
  (Z.to_nat lo, Z.to_nat (Z.max lo hi)).

(** [np.unique(v, return_inverse=True)]: the distinct values of [v] in
    increasing order, and for every slot of [v] the position of its value
    among them. *)
Definition unique (v : list Z) : list Z := merge_sort Z.le (remove_dups v).

Fixpoint index_of (x : Z) (u : list Z) : nat :=
  match u with
  | [] => O
  | y :: u' => if decide (x = y) then O else S (index_of x u')
  end.

Definition unique_inverse (v : list Z) : list Z :=
  (fun x => Z.of_nat (index_of x (unique v))) <$> v.

End Np.

(** ** fealpy/common/DynamicArray.py *)

Module DynamicArray.

Section Dtype.

(** [A] is what one slot along axis 0 holds (a scalar of the dtype, or a
    sub-array of the trailing shape) and [zero] its all-zero value.  A slot of
    the buffer is [None] while it holds whatever [np.empty] left there. *)
Context {A : Type} (zero : A).

Definition cell : Type := option A.

Record t : Type := mk {
  shape : list Z;
  size : Z;
  capacity : Z;
  ndim : Z;
  data : list cell
}.

(** A view [data[lo:hi]] of the buffer: the index range it covers. *)
Record view : Type := mk_view { lo : nat; hi : nat }.

(** [np.empty((n,) + trailing)] *)
Definition np_empty (n : Z) (trailing : list Z) : result (list cell) :=
  if (n <? 0) || existsb (fun d => d <? 0) trailing then raise ValueError
  else ok (replicate (Z.to_nat n) None).

(** [np.resize(a, (n,) + trailing)]: an empty [a] is zero filled, any other
    is repeated as often as needed and cut. *)
Definition np_resize (a : list cell) (n : Z) (trailing : list Z) : result (list cell) :=
  if (n <? 0) || existsb (fun d => d <? 0) trailing then raise ValueError
  else match a with
       | [] => ok (replicate (Z.to_nat n) (Some zero))
       | _ =>
           let repeats := Z.to_nat (- (- n / Np.len a)) in
           ok (take (Z.to_nat n) (mjoin (replicate repeats a)))
       end.

Definition _get_trailing_dimensions (self : t) : list Z := tail (shape self).

(** [__init__(data, capacity)] for an [int] *)
Definition init_int (data_ : Z) (capacity_ : Z) : result t :=
  let shape := [data_] in
  let size := data_ in
  let capacity := Z.max size capacity_ in
  buf ← np_empty capacity (tail shape);
  ok {| shape := shape; size := size; capacity := capacity;
        ndim := Np.len shape; data := buf |}.

(** [__init__(data, capacity)] for a [tuple] *)
Definition init_tuple (data_ : list Z) (capacity_ : Z) : result t :=
  let shape := data_ in
  size ← Np.item data_ 0;
  let capacity := Z.max size capacity_ in
  buf ← np_empty capacity (tail shape);
  ok {| shape := shape; size := size; capacity := capacity;
        ndim := Np.len shape; data := buf |}.

(** [self.data[:self.size] = data] in [__init__]: NumPy makes an array of
    [data] and converts its values to the dtype of the buffer.  [B] is what
    the array made of [data] holds, and [cast] the conversion to the dtype:
    to an integer dtype a float loses its fraction and a bool becomes 0 or 1;
    a string that is no number raises. *)
Fixpoint converted {B} (cast : B -> result A) (data_ : list B) : result (list A) :=
  match data_ with
  | [] => ok []
  | x :: data' =>
      y ← cast x;
      ys ← converted cast data';
      ok (y :: ys)
  end.

(** [__init__(data, dtype, capacity)] for a [list] of scalars: the buffer is
    allocated with the dtype [dtype or np.int_], whose slots are [A], and its
    first [size] slots are filled from the list, converted. *)
Definition init_list {B} (cast : B -> result A) (data_ : list B) (capacity_ : Z)
  : result t :=
  _ ← Np.item data_ 0;
  let shape := [Np.len data_] in
  let size := Np.len data_ in
  let capacity := Z.max size capacity_ in
  buf ← np_empty capacity (tail shape);
  vs ← converted cast data_;
  ok {| shape := shape; size := size; capacity := capacity; ndim := Np.len shape;
        data := (Some <$> vs) ++ drop (length vs) buf |}.

(** [__init__(data, dtype, capacity)] for a [list] of rows: [data[0]] has a
    length, [width], and [shape] is [(len(data), len(data[0]))]. *)
Definition init_rows {B} (cast : B -> result A) (data_ : list B) (width : Z)
    (capacity_ : Z) : result t :=
  _ ← Np.item data_ 0;
  let shape := [Np.len data_; width] in
  let size := Np.len data_ in
  let capacity := Z.max size capacity_ in
  buf ← np_empty capacity (tail shape);
  vs ← converted cast data_;
  ok {| shape := shape; size := size; capacity := capacity; ndim := Np.len shape;
        data := (Some <$> vs) ++ drop (length vs) buf |}.

(** [__init__(data, dtype, capacity)] for an [ndarray] of the shape
    [(len(data),) + trailing]: the dtype is [dtype or data.dtype], so that
    with no dtype passed [cast] changes nothing. *)
Definition init_ndarray {B} (cast : B -> result A) (data_ : list B) (trailing : list Z)
    (capacity_ : Z) : result t :=
  let shape := Np.len data_ :: trailing in
  size ← Np.item shape 0;
  let capacity := Z.max size capacity_ in
  buf ← np_empty capacity (tail shape);
  vs ← converted cast data_;
  ok {| shape := shape; size := size; capacity := capacity; ndim := Np.len shape;
        data := (Some <$> vs) ++ drop (length vs) buf |}.

(** [self.data[:self.size][idx]] for an integer [idx] *)
Definition __getitem__ (self : t) (idx : Z) : result cell :=
  let '(l, h) := Np.slice_bounds (length (data self)) 0 (size self) in
  Np.item (take (h - l) (drop l (data self))) idx.

(** [self.data[:self.size][idx] = value] for an integer [idx] and one slot's
    [value]: the slice is a view, so the write lands in the buffer. *)
Definition __setitem__ (self : t) (idx : Z) (value : A) : result t :=
  let '(l, h) := Np.slice_bounds (length (data self)) 0 (size self) in
  k ← Np.norm_index (length (take (h - l) (drop l (data self)))) idx;
  ok {| shape := shape self; size := size self; capacity := capacity self;
        ndim := ndim self; data := <[(l + k)%nat := Some value]> (data self) |}.

Definition resize (self : t) (new_size : Z) : result t :=
  buf ← np_resize (data self) new_size (_get_trailing_dimensions self);
  ok {| shape := shape self; size := size self; capacity := new_size;
        ndim := ndim self; data := buf |}.

Definition increase_size (self : t) (s : Z) : result (view * t) :=
  let required_size := size self + s in
  self ← (if capacity self <=? required_size
          then resize self (Z.max (2 * capacity self) required_size)
          else ok self);
  let '(l, h) := Np.slice_bounds (length (data self)) (size self) required_size in
  ok (mk_view l h,
      {| shape := shape self; size := required_size; capacity := capacity self;
         ndim := ndim self; data := data self |}).

Definition decrease_size (self : t) (s : Z) : result (view * t) :=
  if negb (s <=? size self) then raise AssertionError else
  let required_size := size self - s in
  let '(l, h) := Np.slice_bounds (length (data self)) required_size (size self) in
  ok (mk_view l h,
      {| shape := shape self; size := required_size; capacity := capacity self;
         ndim := ndim self; data := data self |}).

(** [extend(values)] for a one-dimensional [values] *)
Definition extend (self : t) (values : list A) : result t :=
  let required_size := size self + Np.len values in
  self ← (if capacity self <=? required_size
          then resize self (Z.max (2 * capacity self) required_size)
          else ok self);
  let '(l, h) := Np.slice_bounds (length (data self)) (size self) required_size in
  vs ← Np.broadcast (h - l) values;
  ok {| shape := shape self; size := required_size; capacity := capacity self;
        ndim := ndim self;
        data := take l (data self) ++ (Some <$> vs) ++ drop h (data self) |}.

Definition shrink (self : t) : result t := resize self (size self).

Definition __len__ (self : t) : result Z := Np.item (shape self) 0.

(** Sequences of size-changing calls, the views they return dropped. *)
Inductive op : Type :=
| IncreaseSize (s : Z)
| DecreaseSize (s : Z)
| Extend (values : list A).

Definition net (o : op) : Z :=
  match o with
  | IncreaseSize s => s
  | DecreaseSize s => - s
  | Extend values => Np.len values
  end.

(** A call whose amount is not negative. *)
Definition nonneg (o : op) : Prop :=
  match o with
  | IncreaseSize s => 0 <= s
  | DecreaseSize s => 0 <= s
  | Extend _ => True
  end.

Definition call (self : t) (o : op) : result t :=
  match o with
  | IncreaseSize s => '(_, self') ← increase_size self s; ok self'
  | DecreaseSize s => '(_, self') ← decrease_size self s; ok self'
  | Extend values => extend self values
  end.

Fixpoint calls (self : t) (os : list op) : result t :=
  match os with
  | [] => ok self
  | o :: os' => self' ← call self o; calls self' os'
  end.

(** *** Arrays in order *)

(** The buffer is as long as the recorded capacity, the live part lies inside
    it, and the trailing shape is a shape. *)
Definition wf (self : t) : Prop :=
  0 <= size self <= capacity self /\
  Np.len (data self) = capacity self /\
  existsb (fun d => d <? 0) (tail (shape self)) = false.

(** An array as one of the constructors leaves it. *)
Definition constructed (self : t) : Prop :=
  (exists n c, init_int n c = ok self) \/
  (exists shp c, init_tuple shp c = ok self) \/
  (exists B (cast : B -> result A) l c, init_list cast l c = ok self) \/
  (exists B (cast : B -> result A) l w c, init_rows cast l w c = ok self) \/
  (exists B (cast : B -> result A) l tr c, init_ndarray cast l tr c = ok self).

(** The buffer [increase_size] and [extend] go on with, once there is room
    for [required] slots. *)
Definition grown (self : t) (required : Z) (self' : t) : Prop :=
  shape self' = shape self /\ size self' = size self /\ ndim self' = ndim self /\
  capacity self' =
    (if capacity self <=? required then Z.max (2 * capacity self) required
     else capacity self) /\
  Np.len (data self') = capacity self' /\
  (forall j : nat, Z.of_nat j < capacity self -> data self' !! j = data self !! j) /\
  (forall j : nat, 0 < capacity self -> Z.of_nat j < capacity self' ->
     data self' !! j = data self !! (j mod length (data self))%nat) /\
  (capacity self = 0 -> data self' = replicate (Z.to_nat (capacity self')) (Some zero)).

End Dtype.

(** [DynamicArray(data, capacity=c)] for a list of scalars and no dtype: the
    dtype is [np.int_], and the slots are integers whatever the list holds. *)
Definition init_list_default {B} (to_int : B -> result Z) (data_ : list B)
    (capacity_ : Z) : result (@t Z) :=
  init_list to_int data_ capacity_.

(** What NumPy makes of a Python bool in an integer array. *)
Definition int_of_bool (b : bool) : result Z := ok (if b then 1 else 0).

(** An [int] array of three live slots in a buffer of four; the last slot is
    as [np.empty] left it. *)
Definition three_of_four : @t Z :=
  {| shape := [3]; size := 3; capacity := 4; ndim := 1;
     data := [Some 7; Some 8; Some 9; None] |}.

End DynamicArray.

(** ** fealpy/mesh/HalfEdgeDomain.py *)

Module HalfEdgeDomain.

(** *** Arrays and the store *)

(** A row of a [(NV, 2)] float array: the domains are planar
    ([top_dimension] is 2, and the geometry takes 2-D cross products). *)
Definition point : Type := (float * float)%type.

#[global] Instance float_inhabited : Inhabited float := populate 0%float.

Definition midpoint (a b : point) : point :=
  (((a.1 + b.1) / 2)%float, ((a.2 + b.2) / 2)%float).

(** A row of the [(NE, 6)] half-edge table, by column:
    0 the vertex pointed to, 1 the sub-domain on the left, 2 the next and
    3 the previous half-edge, 4 the opposite half-edge, 5 the main mark. *)
Record HEdge : Type := mkHEdge {
  target : Z;
  region : Z;
  next : Z;
  prev : Z;
  twin : Z;
  primary : Z
}.

Definition zero_row : HEdge := mkHEdge 0 0 0 0 0 0.

#[global] Instance HEdge_inhabited : Inhabited HEdge := populate zero_row.

Definition set_target (r : HEdge) (v : Z) : HEdge :=
  mkHEdge v (region r) (next r) (prev r) (twin r) (primary r).
Definition set_region (r : HEdge) (v : Z) : HEdge :=
  mkHEdge (target r) v (next r) (prev r) (twin r) (primary r).
Definition set_next (r : HEdge) (v : Z) : HEdge :=
  mkHEdge (target r) (region r) v (prev r) (twin r) (primary r).
Definition set_prev (r : HEdge) (v : Z) : HEdge :=
  mkHEdge (target r) (region r) (next r) v (twin r) (primary r).
Definition set_twin (r : HEdge) (v : Z) : HEdge :=
  mkHEdge (target r) (region r) (next r) (prev r) v (primary r).
Definition set_primary (r : HEdge) (v : Z) : HEdge :=
  mkHEdge (target r) (region r) (next r) (prev r) (twin r) v.

(** [np.zeros((n, 6))] *)
Definition zeros (n : Z) : result (list HEdge) :=
  if n <? 0 then raise ValueError else ok (replicate (Z.to_nat n) zero_row).

(** References to arrays, and the store holding the arrays by dtype. *)
Definition loc : Type := nat.

Record heap : Type := mkHeap {
  floats : gmap loc (list point);
  tables : gmap loc (list HEdge);
  bools : gmap loc (list bool)
}.

Definition read {A} (m : gmap loc A) (l : loc) : result A :=
  match m !! l with
  | Some a => ok a
  | None => raise DanglingReference
  end.

Definition alloc {A} (m : gmap loc A) (a : A) : loc * gmap loc A :=
  let l := fresh (dom m) in (l, <[l := a]> m).

Definition alloc_floats (σ : heap) (a : list point) : loc * heap :=
  let '(l, m) := alloc (floats σ) a in (l, mkHeap m (tables σ) (bools σ)).
Definition alloc_table (σ : heap) (a : list HEdge) : loc * heap :=
  let '(l, m) := alloc (tables σ) a in (l, mkHeap (floats σ) m (bools σ)).
Definition alloc_bools (σ : heap) (a : list bool) : loc * heap :=
  let '(l, m) := alloc (bools σ) a in (l, mkHeap (floats σ) (tables σ) m).

Definition write_table (σ : heap) (l : loc) (a : list HEdge) : heap :=
  mkHeap (floats σ) (<[l := a]> (tables σ)) (bools σ).
Definition write_bools (σ : heap) (l : loc) (a : list bool) : heap :=
  mkHeap (floats σ) (tables σ) (<[l := a]> (bools σ)).

(** *** The domain object *)

Record t : Type := mk {
  vertices : loc;
  halfedge : loc;
  GD : Z;
  NS : Z;
  NV : Z;
  NE : Z;
  fixed : loc
}.

(** [HalfEdgeDomain(vertices, halfedge, NS, fixed)] *)
Definition __init__ (vertices_ halfedge_ : loc) (NS_ : option Z) (fixed_ : option loc)
    (σ : heap) : result (t * heap) :=
  V ← read (floats σ) vertices_;
  H ← read (tables σ) halfedge_;
  let NS := match NS_ with
            | None => Np.len (remove_dups (region <$> H))
            | Some n => n
            end in
  let NV := Np.len V in
  let NE := Np.len H in
  let '(f, σ) := match fixed_ with
                 | None => alloc_bools σ (replicate (length V) true)
                 | Some f => (f, σ)
                 end in
  ok (mk vertices_ halfedge_ 2 NS NV NE f, σ).

Definition number_of_vertices (self : t) : Z := NV self.
Definition number_of_halfedges (self : t) : Z := NE self.
Definition number_of_subdomains (self : t) : Z := NS self.

(** *** Half-edge tables and domains that are in order *)

(** Row [h] of a table, for a half-edge [h] of it. *)
Definition row (H : list HEdge) (h : Z) : HEdge := H !!! Z.to_nat h.

Definition is_halfedge (H : list HEdge) (h : Z) : Prop := 0 <= h < Np.len H.

(** Every pointer of the table is a half-edge of it, and every target one of
    the [NV] vertices. *)
Definition well_formed (NV : Z) (H : list HEdge) : Prop :=
  forall h, is_halfedge H h ->
    0 <= target (row H h) < NV /\
    is_halfedge H (next (row H h)) /\
    is_halfedge H (prev (row H h)) /\
    is_halfedge H (twin (row H h)).

(** The structural invariants: [twin] is an involution, [next] and [prev]
    are inverse to one another, and of two opposite half-edges exactly one
    is the main one. *)
Definition invariants (H : list HEdge) : Prop :=
  forall h, is_halfedge H h ->
    twin (row H (twin (row H h))) = h /\
    next (row H (prev (row H h))) = h /\
    prev (row H (next (row H h))) = h /\
    (primary (row H h) = 1 <-> primary (row H (twin (row H h))) <> 1).

Definition valid_table (NV : Z) (H : list HEdge) : Prop :=
  well_formed NV H /\ invariants H.

(** The arrays the fields of a domain refer to. *)
Definition holds (σ : heap) (self : t) (V : list point) (H : list HEdge) (F : list bool)
  : Prop :=
  floats σ !! vertices self = Some V /\
  tables σ !! halfedge self = Some H /\
  bools σ !! fixed self = Some F.

(** A domain whose counts are those of its arrays and whose table is in
    order. *)
Definition valid (σ : heap) (self : t) : Prop :=
  exists V H F,
    holds σ self V H F /\
    NV self = Np.len V /\ NE self = Np.len H /\ Np.len F = Np.len V /\
    valid_table (NV self) H.

(** *** One refinement pass on the arrays *)

(** What a pass leaves behind: the mask and the table it was given, as its
    in-place writes leave them, the centres of the split edges, and the
    table it built. *)
Record pass : Type := mkPass {
  marked : list bool;
  written : list HEdge;
  ec : list point;
  refined : list HEdge
}.

(** The body of [boundary_adaptive_refine] between the choice of the arrays
    and the final [if inplace]. *)
Definition adaptive_pass (NE NV : Z) (vertices : list point) (halfedge : list HEdge)
    (isMarkedHEdge : list bool) (edgecenter : option (list point)) : result pass :=
  (* isMarkedHEdge[halfedge[isMarkedHEdge, 4]] = True *)
  tw ← Np.mask isMarkedHEdge (twin <$> halfedge);
  isMarkedHEdge ← Np.put (fun _ b => b) isMarkedHEdge tw [true];
  let isMainHEdge := (fun r => primary r =? 1) <$> halfedge in
  let flag0 := zip_with andb isMainHEdge isMarkedHEdge in
  let idx := twin <$> (Np.select flag0 halfedge) in
  ec ← match edgecenter with
       | None =>
           a ← Np.take vertices (target <$> (Np.select flag0 halfedge));
           rows ← Np.take halfedge idx;
           b ← Np.take vertices (target <$> rows);
           ok (zip_with midpoint a b)
       | Some c => ok c
       end;
  let NE1 := 2 * Np.len ec in
  halfedge1 ← zeros NE1;
  let flag1 := Np.select isMarkedHEdge isMainHEdge in
  halfedge1 ← Np.mask_set set_target flag1 halfedge1 (Np.range NV (NV + NE1 / 2));
  let idx0 := Np.argsort idx in
  new ← Np.mask flag1 (target <$> halfedge1);
  new ← Np.take new idx0;
  halfedge1 ← Np.mask_set set_target (negb <$> flag1) halfedge1 new;
  halfedge1 ← Np.col_set set_region halfedge1 (region <$> (Np.select isMarkedHEdge halfedge));
  halfedge1 ← Np.col_set set_prev halfedge1 (prev <$> (Np.select isMarkedHEdge halfedge));
  halfedge1 ← Np.col_set set_twin halfedge1 (twin <$> (Np.select isMarkedHEdge halfedge));
  halfedge1 ← Np.col_set set_primary halfedge1 (primary <$> (Np.select isMarkedHEdge halfedge));
  halfedge ← Np.mask_set set_prev isMarkedHEdge halfedge (Np.range NE (NE + NE1));
  let idx := twin <$> (Np.select isMarkedHEdge halfedge) in
  rows ← Np.take halfedge idx;
  halfedge ← Np.mask_set set_twin isMarkedHEdge halfedge (prev <$> rows);
  let halfedge' := halfedge ++ halfedge1 in
  halfedge' ← Np.put set_next halfedge' (prev <$> halfedge') (Np.range 0 (NE + NE1));
  ok (mkPass isMarkedHEdge halfedge ec halfedge').

(** The body of the loop of [boundary_uniform_refine] between the choice of
    the arrays and the final [if inplace]. *)
Definition uniform_pass (NE NV : Z) (vertices : list point) (halfedge : list HEdge)
  : result pass :=
  let isMainHEdge := (fun r => primary r =? 1) <$> halfedge in
  let idx := twin <$> (Np.select isMainHEdge halfedge) in
  a ← Np.take vertices (target <$> (Np.select isMainHEdge halfedge));
  rows ← Np.take halfedge idx;
  b ← Np.take vertices (target <$> rows);
  let ec := zip_with midpoint a b in
  halfedge1 ← zeros NE;
  halfedge1 ← Np.mask_set set_target isMainHEdge halfedge1 (Np.range NV (NV + NE / 2));
  let idx0 := Np.argsort idx in
  new ← Np.mask isMainHEdge (target <$> halfedge1);
  new ← Np.take new idx0;
  halfedge1 ← Np.mask_set set_target (negb <$> isMainHEdge) halfedge1 new;
  halfedge1 ← Np.col_set set_region halfedge1 (region <$> halfedge);
  halfedge1 ← Np.col_set set_prev halfedge1 (prev <$> halfedge);
  halfedge1 ← Np.col_set set_twin halfedge1 (twin <$> halfedge);
  halfedge1 ← Np.col_set set_primary halfedge1 (primary <$> halfedge);
  halfedge ← Np.col_set set_prev halfedge (Np.range NE (2 * NE));
  let idx := twin <$> halfedge in
  rows ← Np.take halfedge idx;
  halfedge ← Np.col_set set_twin halfedge (prev <$> rows);
  let halfedge' := halfedge ++ halfedge1 in
  halfedge' ← Np.put set_next halfedge' (prev <$> halfedge') (Np.range 0 (2 * NE));
  ok (mkPass [] halfedge ec halfedge').

(** *** The methods *)

(** Both optional arrays given: the call works on them and returns. *)
Definition supplied (vertices_ halfedge_ : option loc) : bool :=
  bool_decide (is_Some vertices_) && bool_decide (is_Some halfedge_).

(** [boundary_adaptive_refine(isMarkedHEdge, vertices, halfedge, edgecenter)]:
    returns [None] in place, and otherwise the pair [(ec, halfedge)]. *)
Definition boundary_adaptive_refine (self : t) (isMarkedHEdge : loc)
    (vertices_ halfedge_ edgecenter : option loc) (σ : heap)
  : result (option (loc * loc) * t * heap) :=
  let inplace := negb (supplied vertices_ halfedge_) in
  let vloc := if inplace then vertices self else default (vertices self) vertices_ in
  let hloc := if inplace then halfedge self else default (halfedge self) halfedge_ in
  V ← read (floats σ) vloc;
  H ← read (tables σ) hloc;
  let NE_ := if inplace then NE self else Np.len H in
  let NV_ := if inplace then NV self else Np.len V in
  M ← read (bools σ) isMarkedHEdge;
  c ← match edgecenter with
      | None => ok None
      | Some l => c ← read (floats σ) l; ok (Some c)
      end;
  p ← adaptive_pass NE_ NV_ V H M c;
  let σ := write_bools σ isMarkedHEdge (marked p) in
  let σ := write_table σ hloc (written p) in
  let '(ecloc, σ) := match edgecenter with
                     | None => alloc_floats σ (ec p)
                     | Some l => (l, σ)
                     end in
  let '(hnew, σ) := alloc_table σ (refined p) in
  if inplace then
    let '(vnew, σ) := alloc_floats σ (V ++ ec p) in
    F ← read (bools σ) (fixed self);
    let '(fnew, σ) := alloc_bools σ (F ++ replicate (length (ec p)) false) in
    let NE1 := 2 * Np.len (ec p) in
    ok (None,
        mk vnew hnew (GD self) (NS self) (NV self + NE1 / 2) (NE self + NE1) fnew,
        σ)
  else ok (Some (ecloc, hnew), self, σ).

(** The loop of [boundary_uniform_refine]: [k] iterations are left. *)
Fixpoint uniform_loop (k : nat) (inplace : bool) (self : t) (vloc hloc : loc) (σ : heap)
  : result (option (loc * loc) * t * heap) :=
  match k with
  | O => ok (None, self, σ)
  | S k' =>
      let vloc := if inplace then vertices self else vloc in
      let hloc := if inplace then halfedge self else hloc in
      V ← read (floats σ) vloc;
      H ← read (tables σ) hloc;
      let NE_ := if inplace then NE self else Np.len H in
      let NV_ := if inplace then NV self else Np.len V in
      p ← uniform_pass NE_ NV_ V H;
      let σ := write_table σ hloc (written p) in
      let '(vnew, σ) := alloc_floats σ (V ++ ec p) in
      let '(hnew, σ) := alloc_table σ (refined p) in
      if inplace then
        F ← read (bools σ) (fixed self);
        let '(fnew, σ) := alloc_bools σ (F ++ replicate (length (ec p)) false) in
        let self := mk vnew hnew (GD self) (NS self) (NV self + NE_ / 2) (NE self * 2) fnew in
        uniform_loop k' inplace self vnew hnew σ
      else ok (Some (vnew, hnew), self, σ)
  end.

(** [boundary_uniform_refine(n, vertices, halfedge)]: returns [None] in
    place (and when the loop body never runs), and otherwise the pair
    [(vertices, halfedge)] of the first pass. *)
Definition boundary_uniform_refine (self : t) (n : Z) (vertices_ halfedge_ : option loc)
    (σ : heap) : result (option (loc * loc) * t * heap) :=
  let inplace := negb (supplied vertices_ halfedge_) in
  uniform_loop (Z.to_nat n) inplace self
    (default (vertices self) vertices_) (default (halfedge self) halfedge_) σ.


(** *** The arrays of a pass, as expressions of the table it is given *)

(** The value of a mask at a half-edge. *)
Definition at_ (M : list bool) (h : Z) : bool := default false (M !! Z.to_nat h).

(** A mask that marks a half-edge exactly when it marks the opposite one. *)
Definition symmetric (H : list HEdge) (M : list bool) : Prop :=
  length M = length H /\
  forall h, is_halfedge H h -> at_ M (twin (row H h)) = at_ M h.

(** The mask after [isMarkedHEdge[halfedge[isMarkedHEdge, 4]] = True]. *)
Definition symmetrised (H : list HEdge) (M : list bool) : list bool :=
  Np.put_seq (fun _ b : bool => b) M (Z.to_nat <$> (twin <$> Np.select M H))
    (replicate (length (Np.select M H)) true).

Definition isMain (H : list HEdge) : list bool := (fun r => primary r =? 1) <$> H.

(** The centres of the edges whose main half-edge is flagged. *)
Definition centres (V : list point) (H : list HEdge) (flag0 : list bool) : list point :=
  zip_with midpoint
    ((fun i => V !!! Z.to_nat i) <$> (target <$> Np.select flag0 H))
    ((fun i => V !!! Z.to_nat i) <$>
       (target <$> ((fun i => H !!! Z.to_nat i) <$> (twin <$> Np.select flag0 H)))).

(** The new rows once their target column is filled in. *)
Definition new_targets (NV : Z) (flag1 : list bool) (idx : list Z) (c : nat) : list HEdge :=
  let h0 := Np.scatter set_target flag1 (replicate (2 * c) zero_row)
              (Np.range NV (NV + Z.of_nat c)) in
  let new := Np.select flag1 (target <$> h0) in
  Np.scatter set_target (negb <$> flag1) h0
    ((fun i => new !!! Z.to_nat i) <$> Np.argsort idx).

(** The new rows: the remaining columns are those of the marked rows. *)
Definition new_rows (NV : Z) (H : list HEdge) (M : list bool) (c : nat) : list HEdge :=
  let S := Np.select M H in
  zip_with set_primary
    (zip_with set_twin
       (zip_with set_prev
          (zip_with set_region
             (new_targets NV (Np.select M (isMain H))
                (twin <$> Np.select (zip_with andb (isMain H) M) H) c)
             (region <$> S))
          (prev <$> S))
       (twin <$> S))
    (primary <$> S).

(** The table it was given, after the writes to its columns 3 and 4. *)
Definition prev_set (NE : Z) (H : list HEdge) (M : list bool) (c : nat) : list HEdge :=
  Np.scatter set_prev M H (Np.range NE (NE + 2 * Z.of_nat c)).

Definition rewired (NE : Z) (H : list HEdge) (M : list bool) (c : nat) : list HEdge :=
  let Hp := prev_set NE H M c in
  Np.scatter set_twin M Hp
    (prev <$> ((fun i => Hp !!! Z.to_nat i) <$> (twin <$> Np.select M Hp))).

(** The joined table with the [next] column rebuilt from the [prev] column. *)
Definition linked (T : list HEdge) : list HEdge :=
  Np.put_seq set_next T (Z.to_nat <$> (prev <$> T)) (Np.range 0 (Np.len T)).

Definition adaptive_closed (NE NV : Z) (H : list HEdge) (M : list bool) (ec : list point)
  : pass :=
  let flag0 := zip_with andb (isMain H) M in
  let c := Np.count_true flag0 in
  mkPass M (rewired NE H M c) ec
    (linked (rewired NE H M c ++ new_rows NV H M c)).

(** The row made for the marked half-edge [h]. *)
Definition new_index (NE : Z) (M : list bool) (h : Z) : Z :=
  NE + Z.of_nat (Np.rank M (Z.to_nat h)).

(** The main half-edge of the edge of [h], and the vertex made for that edge:
    the marked edges get the vertices from [NV] on, in the order of their
    main half-edges. *)
Definition edge_main (H : list HEdge) (h : Z) : Z :=
  if primary (row H h) =? 1 then h else twin (row H h).

Definition new_vertex (NV : Z) (H : list HEdge) (M : list bool) (h : Z) : Z :=
  NV + Z.of_nat (Np.rank (zip_with andb (isMain H) M) (Z.to_nat (edge_main H h))).

(** The table after one level of [boundary_uniform_refine] in place. *)
Definition refined_uniform (self : t) (H : list HEdge) : list HEdge :=
  let A := replicate (length H) true in
  let c := Np.count_true (isMain H) in
  linked (rewired (NE self) H A c ++ new_rows (NV self) H A c).

(** The table after [boundary_adaptive_refine] in place with the mask [M0]. *)
Definition refined_adaptive (self : t) (H : list HEdge) (M0 : list bool) : list HEdge :=
  let M := symmetrised H M0 in
  let flag0 := zip_with andb (isMain H) M in
  let c := Np.count_true flag0 in
  linked (rewired (NE self) H M c ++ new_rows (NV self) H M c).

(** *** [is_intersect] *)

(** [a - b] and [np.cross(a, b)] on arrays of plane vectors, in binary64. *)
Definition sub (a b : list point) : result (list point) :=
  Np.binop (fun p q : point => (p.1 - q.1, p.2 - q.2)%float) a b.

Definition cross (a b : list point) : result (list float) :=
  Np.binop (fun p q : point => (p.1 * q.2 - p.2 * q.1)%float) a b.

(** Lines 497 to 515 of [is_intersect]: the mask [flag] of the pairs that
    are neither colinear nor parallel, the parameters [t] and [u], and [s]. *)
Definition parameters (p0 p1 v0 v1 : list point)
  : result (list bool * list float * list float * list point) :=
  s ← sub p1 p0;
  r ← sub v1 v0;
  v ← sub v0 p1;
  let n := length s in
  c0 ← cross r s;
  c1 ← cross v r;
  c2 ← cross v s;
  let zero := fun x : float => (abs x =? 0)%float in
  isColinear ← Np.binop andb (zero <$> c0) (zero <$> c1);
  isParallel ← Np.binop andb (zero <$> c0) ((fun x => negb (zero x)) <$> c1);
  flag ← Np.binop andb (negb <$> isColinear) (negb <$> isParallel);
  let t := replicate n 0%float in
  let u := replicate n 0%float in
  a ← Np.mask flag c2;
  b ← Np.mask flag c0;
  q ← Np.binop PrimFloat.div a b;
  t ← Np.mask_set (fun _ x => x) flag t q;
  a ← Np.mask flag c1;
  b ← Np.mask flag c0;
  q ← Np.binop PrimFloat.div a b;
  u ← Np.mask_set (fun _ x => x) flag u q;
  ok (flag, t, u, s).

(** The operands of the last expression of [is_intersect]: arrays of bool,
    arrays of float64 and Python floats. *)
Inductive operand : Type :=
  | Bools (a : list bool)
  | Floats (a : list float)
  | PyFloat (x : float).

(** [a & b]: [np.bitwise_and] is defined on bool (and integer) arrays; with a
    float64 array or a Python float on either side it raises TypeError. *)
Definition bitwise_and (a b : operand) : result operand :=
  match a, b with
  | Bools x, Bools y => r ← Np.binop andb x y; ok (Bools r)
  | _, _ => raise TypeError
  end.

Definition as_floats (a : operand) : list float :=
  match a with
  | Bools x => (fun b : bool => if b then 1%float else 0%float) <$> x
  | Floats x => x
  | PyFloat x => [x]
  end.

(** [a >= b] and [a <= b], slot by slot. *)
Definition ge (a b : operand) : result operand :=
  r ← Np.binop (fun x y => (y <=? x)%float) (as_floats a) (as_floats b); ok (Bools r).
Definition le (a b : operand) : result operand :=
  r ← Np.binop (fun x y => (x <=? y)%float) (as_floats a) (as_floats b); ok (Bools r).

(** [bool(a)], as a chained comparison takes it between two links: an array
    has a truth value when it has one slot. *)
Definition truth (a : operand) : result bool :=
  match a with
  | Bools [b] => ok b
  | Floats [x] => ok (negb (x =? 0)%float)
  | PyFloat x => ok (negb (x =? 0)%float)
  | _ => raise ValueError
  end.

(** [is_intersect(p0, p1, v0, v1, returnin)].  In line 517 [&] binds tighter
    than [>=] and [<=], so that the line is the chained comparison
    [(flag & t) >= (0.0 & t) <= (1.0 & u) >= (0.0 & u) <= 1.0], whose operands
    are evaluated from the left, each one before the link it closes. *)
Definition is_intersect (p0 p1 v0 v1 : list point) (returnin : bool)
  : result (operand * option (list point)) :=
  '(flag, t, u, s) ← parameters p0 p1 v0 v1;
  x0 ← bitwise_and (Bools flag) (Floats t);
  x1 ← bitwise_and (PyFloat 0) (Floats t);
  r ← ge x0 x1;
  go ← truth r;
  isIntersect ←
    (if negb go then ok r else
       x2 ← bitwise_and (PyFloat 1) (Floats u);
       r ← le x1 x2;
       go ← truth r;
       if negb go then ok r else
         x3 ← bitwise_and (PyFloat 0) (Floats u);
         r ← ge x2 x3;
         go ← truth r;
         if negb go then ok r else le x3 (PyFloat 1));
  if returnin then
    st ← Np.binop (fun (sv : point) (tv : float) => (sv.1 * tv, sv.2 * tv)%float) s t;
    p ← Np.binop (fun a b : point => (a.1 + b.1, a.2 + b.2)%float) p0 st;
    ok (isIntersect, Some p)
  else ok (isIntersect, None).

(** *** [to_halfedgemesh] and [advance_triangle_mesh] *)

(** [to_halfedgemesh()]: the class [HalfEdgeMesh] is taken as the function
    [HalfEdgeMesh] of the three arrays it is made of.  The arrays passed on
    are copies, so that the write to column 1 does not reach the table of the
    domain. *)
Section ToMesh.
Context {mesh : Type}.
Variable HalfEdgeMesh : list point -> list Z -> list HEdge -> result mesh.

Definition to_halfedgemesh (self : t) (σ : heap) : result mesh :=
  node ← read (floats σ) (vertices self);
  halfedge ← read (tables σ) (halfedge self);
  let subdomain := Np.unique (region <$> halfedge) in
  let j := Np.unique_inverse (region <$> halfedge) in
  halfedge ← Np.col_set set_region halfedge j;
  HalfEdgeMesh node subdomain halfedge.

End ToMesh.

(** [advance_triangle_mesh()]: the two arrays it allocates and fills are
    local, and it returns [None]. *)
Definition advance_triangle_mesh (self : t) (σ : heap) : result unit :=
  let NN := NV self in
  let NE := NE self in
  let node := replicate (Z.to_nat 10000) (0%float, 0%float) in
  let halfedge := replicate (Z.to_nat 20000) zero_row in
  V ← read (floats σ) (vertices self);
  let '(l, h) := Np.slice_bounds (length node) 0 NN in
  vs ← Np.broadcast (h - l) V;
  let node := take l node ++ vs ++ drop h node in
  H ← read (tables σ) (HalfEdgeDomain.halfedge self);
  let '(l, h) := Np.slice_bounds (length halfedge) 0 NE in
  hs ← Np.broadcast (h - l) H;
  let halfedge := take l halfedge ++ hs ++ drop h halfedge in
  ok tt.

(** *** The ends of an edge *)

(** The half-edge before [h] ends where [h] starts, and so does the opposite
    of [h]: both name the same vertex.  The methods read the start of an edge
    off either one ([halfedge[halfedge[:, 3], 0]] in [voronoi_mesh],
    [halfedge[halfedge[:, 4], 0]] in the refinement). *)
Definition closed_ends (H : list HEdge) : Prop :=
  forall h, is_halfedge H h ->
    target (row H (prev (row H h))) = target (row H (twin (row H h))).

End HalfEdgeDomain.

(** ** The boundary of the unit square

    Four vertices and eight half-edges: 0 to 3 go round the square
    counter-clockwise with the inside (sub-domain 1) on their left and are the
    main ones, 4 to 7 are their opposites with the outside (0) on their
    left. *)

Module UnitSquare.
Import HalfEdgeDomain.

Definition square_vertices : list point :=
  [(0, 0); (1, 0); (1, 1); (0, 1)]%float.

Definition square_halfedge : list HEdge :=
  [ mkHEdge 1 1 1 3 4 1; mkHEdge 2 1 2 0 5 1; mkHEdge 3 1 3 1 6 1; mkHEdge 0 1 0 2 7 1;
    mkHEdge 0 0 7 5 0 0; mkHEdge 1 0 4 6 1 0; mkHEdge 2 0 5 7 2 0; mkHEdge 3 0 6 4 3 0 ].

(** A marking of the half-edge 1 alone. *)
Definition square_marks : list bool :=
  [false; true; false; false; false; false; false; false].

(** The arrays, each at reference 0 of the store of its dtype, and the
    domain made of the first two: [HalfEdgeDomain(vertices, halfedge)]
    allocates the fixed flags. *)
Definition arrays : heap :=
  mkHeap {[ 0%nat := square_vertices ]} {[ 0%nat := square_halfedge ]}
    {[ 0%nat := square_marks ]}.

Definition square : t := mk 0%nat 0%nat 2 2 4 8 1%nat.

Definition store : heap :=
  mkHeap {[ 0%nat := square_vertices ]} {[ 0%nat := square_halfedge ]}
    (<[ 1%nat := [true; true; true; true] ]> {[ 0%nat := square_marks ]}).

(** The same store with a copy of the vertices and a copy of the table, each
    at reference 1, to be passed to the methods. *)
Definition copies : heap :=
  mkHeap (<[ 1%nat := square_vertices ]> (floats store))
    (<[ 1%nat := square_halfedge ]> (tables store)) (bools store).

(** The store with a third mask, at reference 2, that marks nothing, and with
    a centre for the edge of half-edge 1, off the edge, at reference 2. *)
Definition with_centre : heap :=
  mkHeap (<[ 2%nat := [(1.25, 0.5)%float] ]> (floats store)) (tables store)
    (<[ 2%nat := replicate 8 false ]> (bools store)).

(** The square with the side of the largest binary64 number. *)
Definition huge : float := 0x1.fffffffffffffp+1023%float.

Definition huge_vertices : list point :=
  [(0, 0); (huge, 0); (huge, huge); (0, huge)]%float.

Definition huge_store : heap :=
  mkHeap {[ 0%nat := huge_vertices ]} {[ 0%nat := square_halfedge ]}
    {[ 1%nat := [true; true; true; true] ]}.

(** The square with four more vertices that are on no edge and not fixed: the
    fixed flags, at reference 0, are as many as the half-edges. *)
Definition eight_vertices : list point :=
  square_vertices ++ [(2, 0); (2, 1); (2, 2); (2, 3)]%float.

Definition eight_fixed : list bool :=
  [true; true; true; true; false; false; false; false].

Definition eight_store : heap :=
  mkHeap {[ 0%nat := eight_vertices ]} {[ 0%nat := square_halfedge ]}
    {[ 0%nat := eight_fixed ]}.

Definition eight : t := mk 0%nat 0%nat 2 2 8 8 0%nat.

End UnitSquare.


(** * Facts *)

(** ** The error monad *)

Lemma bind_ok {A B} (a : A) (k : A -> result B) : (ok a ≫= k) = k a.
Proof. reflexivity. Qed.

Lemma bind_raise {A B} (e : exn) (k : A -> result B) : (raise e ≫= k) = raise e.
Proof. reflexivity. Qed.

Lemma bind_ok_inv {A B} (m : result A) (k : A -> result B) (b : B) :
  (m ≫= k) = ok b -> exists a, m = ok a /\ k a = ok b.
Proof. destruct m as [e|a]; [discriminate|]. intros H. exists a. split; [reflexivity|exact H]. Qed.

Lemma ok_inj {A} (a b : A) : ok a = ok b -> a = b.
Proof. intros H. injection H. trivial. Qed.

(** Splits a successful computation into its successful steps. *)
Ltac bind_inv H :=
  repeat match type of H with
  | (_ ≫= _) = ok _ =>
      let x := fresh "x" in
      let Hx := fresh "Hx" in
      apply bind_ok_inv in H; destruct H as (x & Hx & H)
  | ok _ = ok _ => apply ok_inj in H
  end.


(** ** NumPy indexing *)

Module NpFacts.

Section Lists.
Context {A B : Type}.
Implicit Types (a : list A) (m : list bool) (v : list B) (upd : A -> B -> A).

(** *** Integer indices *)

Lemma norm_index_ok (n : nat) (i : Z) :
  0 <= i < Z.of_nat n -> Np.norm_index n i = ok (Z.to_nat i).
Proof.
  intros H. unfold Np.norm_index.
  destruct (Z.leb_spec 0 i); [|lia]. destruct (Z.ltb_spec i (Z.of_nat n)); [|lia].
  reflexivity.
Qed.

Lemma norm_index_lt (n : nat) (i : Z) (k : nat) :
  Np.norm_index n i = ok k -> (k < n)%nat.
Proof.
  unfold Np.norm_index.
  destruct (Z.leb_spec 0 i) as [H1|H1], (Z.ltb_spec i (Z.of_nat n)) as [H2|H2];
    destruct (Z.leb_spec (- Z.of_nat n) i) as [H3|H3], (Z.ltb_spec i 0) as [H4|H4];
    simpl; try discriminate; intros E; apply ok_inj in E; lia.
Qed.

Lemma norm_indices_ok (n : nat) (idx : list Z) :
  Forall (fun i => 0 <= i < Z.of_nat n) idx ->
  Np.norm_indices n idx = ok (Z.to_nat <$> idx).
Proof.
  induction 1 as [|i idx Hi _ IH]; [reflexivity|].
  cbn [Np.norm_indices]. rewrite norm_index_ok by exact Hi. rewrite bind_ok, IH.
  reflexivity.
Qed.

Lemma norm_indices_length (n : nat) (idx : list Z) (ks : list nat) :
  Np.norm_indices n idx = ok ks -> length ks = length idx.
Proof.
  revert ks. induction idx as [|i idx IH]; intros ks H; cbn [Np.norm_indices] in H.
  - apply ok_inj in H. subst. reflexivity.
  - bind_inv H. subst ks. simpl. f_equal. eauto.
Qed.

Lemma item_ok a (i : Z) (x : A) :
  0 <= i -> a !! Z.to_nat i = Some x -> Np.item a i = ok x.
Proof.
  intros Hi Hx. unfold Np.item.
  rewrite norm_index_ok by (apply lookup_lt_Some in Hx; lia).
  rewrite bind_ok, Hx. reflexivity.
Qed.

Lemma item_elem a (i : Z) (x : A) : Np.item a i = ok x -> x ∈ a.
Proof.
  unfold Np.item. intros H. bind_inv H.
  destruct (a !! x0) eqn:E; [|discriminate]. apply ok_inj in H. subst.
  eapply list_elem_of_lookup_2; eauto.
Qed.

Lemma take_ok `{!Inhabited A} a (idx : list Z) :
  Forall (fun i => 0 <= i < Np.len a) idx ->
  Np.take a idx = ok ((fun i => a !!! Z.to_nat i) <$> idx).
Proof.
  induction 1 as [|i idx Hi _ IH]; [reflexivity|].
  cbn [Np.take]. unfold Np.len in Hi.
  rewrite (item_ok a i (a !!! Z.to_nat i)); [|lia|].
  - rewrite bind_ok, IH. reflexivity.
  - apply list_lookup_lookup_total_lt. lia.
Qed.

Lemma take_length a (idx : list Z) (xs : list A) :
  Np.take a idx = ok xs -> length xs = length idx.
Proof.
  revert xs. induction idx as [|i idx IH]; intros xs H; cbn [Np.take] in H.
  - apply ok_inj in H. subst. reflexivity.
  - bind_inv H. subst xs. simpl. f_equal. eauto.
Qed.

Lemma take_elem a (idx : list Z) (xs : list A) :
  Np.take a idx = ok xs -> Forall (fun x => x ∈ a) xs.
Proof.
  revert xs. induction idx as [|i idx IH]; intros xs H; cbn [Np.take] in H.
  - apply ok_inj in H. subst. constructor.
  - bind_inv H. subst xs. constructor; eauto using item_elem.
Qed.

(** *** Masks *)

Lemma count_true_replicate_true (n : nat) : Np.count_true (replicate n true) = n.
Proof. induction n; simpl; congruence. Qed.

Lemma count_true_le m : (Np.count_true m <= length m)%nat.
Proof. induction m as [|[] m IH]; simpl; lia. Qed.

Lemma count_true_app m1 m2 :
  Np.count_true (m1 ++ m2) = (Np.count_true m1 + Np.count_true m2)%nat.
Proof. induction m1 as [|[] m1 IH]; simpl; lia. Qed.

Lemma count_true_negb m :
  (Np.count_true (negb <$> m) + Np.count_true m = length m)%nat.
Proof. induction m as [|[] m IH]; [reflexivity|..]; rewrite fmap_cons; simpl; lia. Qed.

Lemma rank_0 m : Np.rank m 0 = O.
Proof. reflexivity. Qed.

Lemma rank_S (b : bool) m (i : nat) :
  Np.rank (b :: m) (S i) = ((if b then 1 else 0) + Np.rank m i)%nat.
Proof. reflexivity. Qed.

Lemma rank_le m (i : nat) : (Np.rank m i <= Np.count_true m)%nat.
Proof.
  unfold Np.rank. rewrite <- (take_drop i m) at 2. rewrite count_true_app. lia.
Qed.

Lemma rank_lt m (i : nat) :
  m !! i = Some true -> (Np.rank m i < Np.count_true m)%nat.
Proof.
  revert i. induction m as [|b m IH]; intros [|i] H; try discriminate.
  - simpl in H. injection H as ->. rewrite rank_0. simpl. lia.
  - rewrite rank_S. simpl in *. apply IH in H. lia.
Qed.

Lemma rank_replicate_true (n i : nat) :
  (i <= n)%nat -> Np.rank (replicate n true) i = i.
Proof.
  intros H. unfold Np.rank. rewrite take_replicate, Nat.min_l by lia.
  apply count_true_replicate_true.
Qed.

Lemma select_nil_r m : Np.select m (@nil A) = [].
Proof. destruct m; reflexivity. Qed.

Lemma length_select m a :
  length m = length a -> length (Np.select m a) = Np.count_true m.
Proof.
  revert a. induction m as [|b m IH]; intros [|x a] H; try discriminate; [reflexivity|].
  injection H as H. destruct b; simpl; rewrite IH by assumption; reflexivity.
Qed.

Lemma select_all_true a : Np.select (replicate (length a) true) a = a.
Proof. induction a as [|x a IH]; simpl; congruence. Qed.

Lemma select_lookup_rank m a (i : nat) (x : A) :
  m !! i = Some true -> a !! i = Some x -> Np.select m a !! Np.rank m i = Some x.
Proof.
  revert a i. induction m as [|b m IH]; intros [|y a] [|i] Hm Ha; try discriminate.
  - simpl in Hm. injection Hm as ->. exact Ha.
  - rewrite rank_S. simpl in Hm, Ha. destruct b; simpl; eauto.
Qed.

Lemma select_lookup_inv m a (k : nat) (x : A) :
  Np.select m a !! k = Some x ->
  exists i : nat, m !! i = Some true /\ a !! i = Some x /\ Np.rank m i = k.
Proof.
  revert a k. induction m as [|b m IH]; intros [|y a] k H; try discriminate.
  destruct b; simpl in H.
  - destruct k as [|k].
    + exists O. simpl in H. auto.
    + simpl in H. apply IH in H as (i & Hm & Ha & Hr).
      exists (S i). rewrite rank_S. simpl. repeat split; try assumption. lia.
  - apply IH in H as (i & Hm & Ha & Hr).
    exists (S i). rewrite rank_S. simpl. repeat split; assumption.
Qed.

Lemma mask_ok m a : length m = length a -> Np.mask m a = ok (Np.select m a).
Proof. intros H. unfold Np.mask. rewrite H, Nat.eqb_refl. reflexivity. Qed.

Lemma mask_inv m a (a' : list A) :
  Np.mask m a = ok a' -> length m = length a /\ a' = Np.select m a.
Proof.
  unfold Np.mask. destruct (Nat.eqb_spec (length m) (length a)); [|discriminate].
  intros H. apply ok_inj in H. auto.
Qed.

(** *** Assignments *)

Lemma broadcast_ok (n : nat) v : length v = n -> Np.broadcast n v = ok v.
Proof. intros H. unfold Np.broadcast. rewrite H, Nat.eqb_refl. reflexivity. Qed.

Lemma broadcast_length (n : nat) v (v' : list B) :
  Np.broadcast n v = ok v' -> length v' = n.
Proof.
  unfold Np.broadcast. destruct (Nat.eqb_spec (length v) n).
  - intros H. apply ok_inj in H. congruence.
  - destruct v as [|x [|]]; try discriminate.
    intros H. apply ok_inj in H. subst. apply length_replicate.
Qed.

Lemma col_set_ok upd a v :
  length v = length a -> Np.col_set upd a v = ok (zip_with upd a v).
Proof. intros H. unfold Np.col_set. rewrite broadcast_ok by exact H. reflexivity. Qed.

Lemma col_set_inv upd a v (a' : list A) :
  Np.col_set upd a v = ok a' ->
  exists v', length v' = length a /\ a' = zip_with upd a v'.
Proof.
  unfold Np.col_set. intros H. bind_inv H. apply broadcast_length in Hx. eauto.
Qed.

Lemma length_scatter upd m a v : length (Np.scatter upd m a v) = length a.
Proof.
  revert a v. induction m as [|[] m IH]; intros [|x a] [|y v]; simpl; try reflexivity;
    f_equal; apply IH.
Qed.

Lemma scatter_lookup_true upd m a v (i : nat) (x : A) (y : B) :
  m !! i = Some true -> a !! i = Some x -> v !! Np.rank m i = Some y ->
  Np.scatter upd m a v !! i = Some (upd x y).
Proof.
  revert a v i. induction m as [|b m IH]; intros [|x0 a] v [|i] Hm Ha Hv; try discriminate.
  - simpl in Hm, Ha. injection Hm as ->. injection Ha as ->.
    rewrite rank_0 in Hv. destruct v as [|y0 v]; [discriminate|].
    simpl in Hv. injection Hv as ->. reflexivity.
  - rewrite rank_S in Hv. simpl in Hm, Ha. destruct b.
    + destruct v as [|y0 v]; [discriminate|]. simpl in Hv. simpl. eauto.
    + simpl in Hv. simpl. eauto.
Qed.

Lemma scatter_lookup_other upd m a v (i : nat) :
  m !! i <> Some true -> Np.scatter upd m a v !! i = a !! i.
Proof.
  revert a v i. induction m as [|b m IH]; intros a v i Hm; [destruct a; reflexivity|].
  destruct a as [|x0 a]; [destruct b; reflexivity|].
  destruct i as [|i].
  - destruct b; [exfalso; apply Hm; reflexivity|reflexivity].
  - simpl in Hm. destruct b; [destruct v|]; simpl; auto.
Qed.

Lemma scatter_all_true upd a v :
  length v = length a -> Np.scatter upd (replicate (length a) true) a v = zip_with upd a v.
Proof.
  revert v. induction a as [|x a IH]; intros [|y v] H; try discriminate; [reflexivity|].
  simpl. f_equal. apply IH. simpl in H. lia.
Qed.

Lemma mask_set_ok upd m a v :
  length m = length a -> length v = Np.count_true m ->
  Np.mask_set upd m a v = ok (Np.scatter upd m a v).
Proof.
  intros H1 H2. unfold Np.mask_set. rewrite H1, Nat.eqb_refl.
  rewrite broadcast_ok by exact H2. reflexivity.
Qed.

Lemma mask_set_inv upd m a v (a' : list A) :
  Np.mask_set upd m a v = ok a' ->
  length m = length a /\
  exists v', length v' = Np.count_true m /\ a' = Np.scatter upd m a v'.
Proof.
  unfold Np.mask_set. destruct (Nat.eqb_spec (length m) (length a)); [|discriminate].
  intros H. bind_inv H. apply broadcast_length in Hx. eauto.
Qed.

Lemma length_put_seq upd a (ks : list nat) v : length (Np.put_seq upd a ks v) = length a.
Proof.
  revert a v. induction ks as [|k ks IH]; intros a [|y v]; simpl; try reflexivity.
  rewrite IH. apply length_alter.
Qed.

Lemma put_seq_lookup_notin upd a (ks : list nat) v (k : nat) :
  k ∉ ks -> Np.put_seq upd a ks v !! k = a !! k.
Proof.
  revert a v. induction ks as [|k0 ks IH]; intros a [|y v] Hk; simpl; try reflexivity.
  apply not_elem_of_cons in Hk as [Hne Hk].
  rewrite IH by exact Hk. apply list_lookup_alter_ne. congruence.
Qed.

Lemma put_seq_lookup_in upd a (ks : list nat) v (j k : nat) (x : A) (y : B) :
  NoDup ks -> ks !! j = Some k -> v !! j = Some y -> a !! k = Some x ->
  Np.put_seq upd a ks v !! k = Some (upd x y).
Proof.
  revert a v j. induction ks as [|k0 ks IH]; intros a [|y0 v] [|j] Hnd Hk Hv Ha;
    try discriminate.
  - simpl in Hk, Hv. injection Hk as ->. injection Hv as ->. simpl.
    apply NoDup_cons in Hnd as [Hnotin _].
    rewrite put_seq_lookup_notin by exact Hnotin.
    rewrite list_lookup_alter_eq, Ha. reflexivity.
  - simpl in Hk, Hv. simpl. apply NoDup_cons in Hnd as [Hnotin Hnd].
    eapply IH; eauto.
    rewrite list_lookup_alter_ne; [exact Ha|].
    intros ->. apply Hnotin. eapply list_elem_of_lookup_2; eauto.
Qed.

Lemma put_ok upd a (idx : list Z) v :
  length v = length idx ->
  Forall (fun i => 0 <= i < Np.len a) idx ->
  Np.put upd a idx v = ok (Np.put_seq upd a (Z.to_nat <$> idx) v).
Proof.
  intros H1 H2. unfold Np.put. rewrite broadcast_ok by exact H1. rewrite bind_ok.
  rewrite norm_indices_ok by exact H2. reflexivity.
Qed.

Lemma put_inv upd a (idx : list Z) v (a' : list A) :
  Np.put upd a idx v = ok a' ->
  exists (ks : list nat) (v' : list B), a' = Np.put_seq upd a ks v'.
Proof. unfold Np.put. intros H. bind_inv H. eauto. Qed.

End Lists.

(** *** Columns an assignment leaves alone *)

Section Frames.
Context {A B C : Type} (f : A -> C) (upd : A -> B -> A).
Hypothesis frame : forall x y, f (upd x y) = f x.

Lemma zip_with_frame (a : list A) (v : list B) :
  length v = length a -> f <$> zip_with upd a v = f <$> a.
Proof.
  revert v. induction a as [|x a IH]; intros [|y v] H; try discriminate; [reflexivity|].
  csimpl. rewrite frame. f_equal. apply IH. simpl in H. lia.
Qed.

Lemma scatter_frame (m : list bool) (a : list A) (v : list B) :
  f <$> Np.scatter upd m a v = f <$> a.
Proof.
  revert a v. induction m as [|[] m IH]; intros [|x a] [|y v]; csimpl; try reflexivity;
    rewrite ?frame; f_equal; apply IH.
Qed.

Lemma put_seq_frame (a : list A) (ks : list nat) (v : list B) :
  f <$> Np.put_seq upd a ks v = f <$> a.
Proof.
  revert a v. induction ks as [|k ks IH]; intros a [|y v]; simpl; try reflexivity.
  rewrite IH. apply list_eq. intros i. rewrite !list_lookup_fmap.
  destruct (decide (k = i)) as [->|Hne].
  - rewrite list_lookup_alter_eq. destruct (a !! i); simpl; [|reflexivity].
    rewrite frame. reflexivity.
  - rewrite list_lookup_alter_ne by exact Hne. reflexivity.
Qed.

End Frames.

(** *** Selection and maps *)

Lemma select_fmap {A B} (f : A -> B) (m : list bool) (a : list A) :
  Np.select m (f <$> a) = f <$> Np.select m a.
Proof.
  revert a. induction m as [|[] m IH]; intros [|x a]; csimpl; try reflexivity;
    f_equal; apply IH.
Qed.

Lemma count_true_select_and (m1 m2 : list bool) :
  length m1 = length m2 ->
  Np.count_true (Np.select m2 m1) = Np.count_true (zip_with andb m1 m2).
Proof.
  revert m2. induction m1 as [|b1 m1 IH]; intros [|b2 m2] H; try discriminate; [reflexivity|].
  injection H as H. destruct b1, b2; simpl; rewrite ?IH by assumption; reflexivity.
Qed.

(** *** [range] and [argsort] *)

Lemma length_range (a b : Z) : Np.len (Np.range a b) = Z.max 0 (b - a).
Proof. unfold Np.range, Np.len. rewrite length_seqZ. lia. Qed.

Lemma lookup_range (a b : Z) (i : nat) :
  Z.of_nat i < b - a -> Np.range a b !! i = Some (a + Z.of_nat i).
Proof. intros H. unfold Np.range. apply lookup_seqZ_lt. lia. Qed.

Lemma argsort_perm (v : list Z) :
  Np.argsort v ≡ₚ Z.of_nat <$> seq 0 (length v).
Proof.
  unfold Np.argsort.
  rewrite merge_sort_Permutation.
  change (fun p : Z * nat => Z.of_nat p.2) with (Z.of_nat ∘ (snd : Z * nat -> nat)).
  rewrite (list_fmap_compose snd Z.of_nat).
  rewrite snd_zip by (rewrite length_seq; lia). reflexivity.
Qed.

Lemma length_argsort (v : list Z) : length (Np.argsort v) = length v.
Proof. rewrite argsort_perm. rewrite length_fmap, length_seq. reflexivity. Qed.

Lemma argsort_range (v : list Z) :
  Forall (fun i => 0 <= i < Np.len v) (Np.argsort v).
Proof.
  rewrite argsort_perm. apply Forall_forall. intros i Hi.
  apply list_elem_of_fmap in Hi as (k & -> & Hk). apply elem_of_seq in Hk.
  unfold Np.len. lia.
Qed.

(** *** Positions of the true entries *)

Lemma length_positions (m : list bool) : length (Np.positions m) = Np.count_true m.
Proof. unfold Np.positions. apply length_select. rewrite length_seq. reflexivity. Qed.

Lemma elem_of_positions (m : list bool) (x : nat) :
  x ∈ Np.positions m <-> m !! x = Some true.
Proof.
  unfold Np.positions. split.
  - intros Hx. apply list_elem_of_lookup_1 in Hx as (k & Hk).
    apply select_lookup_inv in Hk as (i & Hm & Hi & _).
    apply lookup_seq in Hi as [-> _]. exact Hm.
  - intros Hm. eapply list_elem_of_lookup_2.
    apply (select_lookup_rank m _ x x Hm).
    apply lookup_seq. split; [reflexivity|]. eapply lookup_lt_Some; eauto.
Qed.

Lemma NoDup_positions (m : list bool) : NoDup (Np.positions m).
Proof.
  unfold Np.positions. apply NoDup_alt. intros k1 k2 x H1 H2.
  apply select_lookup_inv in H1 as (i1 & _ & Hi1 & <-).
  apply select_lookup_inv in H2 as (i2 & _ & Hi2 & <-).
  apply lookup_seq in Hi1 as [-> _]. apply lookup_seq in Hi2 as [E _].
  simpl in E. subst. reflexivity.
Qed.

Lemma rank_inj (m : list bool) (i j : nat) :
  m !! i = Some true -> m !! j = Some true -> Np.rank m i = Np.rank m j -> i = j.
Proof.
  intros Hi Hj E.
  assert (seq 0 (length m) !! i = Some i) as Si
    by (apply lookup_seq; split; [reflexivity|eapply lookup_lt_Some; eauto]).
  assert (seq 0 (length m) !! j = Some j) as Sj
    by (apply lookup_seq; split; [reflexivity|eapply lookup_lt_Some; eauto]).
  pose proof (select_lookup_rank m _ i i Hi Si) as Pi.
  pose proof (select_lookup_rank m _ j j Hj Sj) as Pj.
  rewrite E in Pi. congruence.
Qed.

Lemma count_true_split (m1 m2 : list bool) :
  length m1 = length m2 ->
  Np.count_true m2
  = (Np.count_true (zip_with andb m1 m2) + Np.count_true (zip_with andb (negb <$> m1) m2))%nat.
Proof.
  revert m2. induction m1 as [|b1 m1 IH]; intros [|b2 m2] E; try discriminate; [reflexivity|].
  injection E as E. csimpl. rewrite (IH m2 E). destruct b1, b2; simpl; lia.
Qed.

(** A map that is injective on the true positions of [m1] and sends them to
    true positions of [m2] shows that [m2] has at least as many. *)
Lemma count_true_le_by_injection (f : nat -> nat) (m1 m2 : list bool) :
  (forall x, m1 !! x = Some true -> m2 !! f x = Some true) ->
  (forall x y, m1 !! x = Some true -> m1 !! y = Some true -> f x = f y -> x = y) ->
  (Np.count_true m1 <= Np.count_true m2)%nat.
Proof.
  intros Hmap Hinj. rewrite <- !length_positions.
  rewrite <- (length_fmap f (Np.positions m1)).
  apply submseteq_length. apply NoDup_submseteq.
  - apply NoDup_fmap_2_strong; [|apply NoDup_positions].
    intros x y Hx Hy. apply Hinj; apply elem_of_positions; assumption.
  - intros y Hy. apply list_elem_of_fmap in Hy as (x & -> & Hx).
    apply elem_of_positions. apply Hmap. apply elem_of_positions. exact Hx.
Qed.

(** *** Where the rows of an assignment come from *)

Lemma scatter_elem {A B} (upd : A -> B -> A) (m : list bool) (a : list A) (v : list B)
    (x' : A) :
  x' ∈ Np.scatter upd m a v ->
  x' ∈ a \/ exists x y, x ∈ a /\ y ∈ v /\ x' = upd x y.
Proof.
  revert a v. induction m as [|b m IH]; intros a v Hx; [destruct a; left; exact Hx|].
  destruct a as [|x0 a]; [destruct b; left; exact Hx|].
  destruct b.
  - destruct v as [|y0 v]; [left; exact Hx|]. simpl in Hx.
    apply elem_of_cons in Hx as [->|Hx].
    + right. exists x0, y0. repeat split; left.
    + apply IH in Hx as [Hx|(x & y & Hx & Hy & ->)].
      * left. right. exact Hx.
      * right. exists x, y. repeat split; try right; assumption.
  - simpl in Hx. apply elem_of_cons in Hx as [->|Hx]; [left; left|].
    apply IH in Hx as [Hx|(x & y & Hx & Hy & ->)].
    + left. right. exact Hx.
    + right. exists x, y. repeat split; try right; assumption.
Qed.

Lemma elem_of_select {A} (m : list bool) (a : list A) (x : A) :
  x ∈ Np.select m a -> x ∈ a.
Proof.
  intros Hx. apply list_elem_of_lookup_1 in Hx as (k & Hk).
  apply select_lookup_inv in Hk as (i & _ & Hi & _).
  eapply list_elem_of_lookup_2; eauto.
Qed.

Lemma zip_with_andb_true_r (m : list bool) :
  zip_with andb m (replicate (length m) true) = m.
Proof.
  induction m as [|b m IH]; [reflexivity|]. csimpl. rewrite IH, andb_true_r. reflexivity.
Qed.

(** *** What [argsort] returns *)

#[local] Instance key_le_transitive : Transitive Np.key_le.
Proof. intros p q r. unfold Np.key_le. lia. Qed.

#[local] Instance key_le_total : Total Np.key_le.
Proof. intros p q. unfold Np.key_le. lia. Qed.

Lemma keys_sorted (S : list (Z * nat)) :
  StronglySorted Np.key_le S -> StronglySorted Z.le (fst <$> S).
Proof.
  induction 1 as [|p S HS IH HF]; csimpl; constructor; [exact IH|].
  apply Forall_fmap. exact HF.
Qed.

Lemma lookup_zip_seq {A} (v : list A) (x : A) (p : nat) :
  (x, p) ∈ zip v (seq 0 (length v)) -> v !! p = Some x.
Proof.
  intros Hin. apply list_elem_of_lookup_1 in Hin as (i & Hi).
  apply lookup_zip_with_Some in Hi as (x' & p' & E & Hx & Hp).
  injection E as <- <-. apply lookup_seq in Hp as [-> _]. exact Hx.
Qed.

(** When the keys in ascending order are the list [L], the [j]-th index that
    [argsort] returns is a position of the key [L !! j]. *)
Lemma argsort_lookup (v L : list Z) (j : nat) (x : Z) :
  StronglySorted Z.le L -> L ≡ₚ v -> L !! j = Some x ->
  exists p : nat, Np.argsort v !! j = Some (Z.of_nat p) /\ v !! p = Some x.
Proof.
  intros HL HP Hj. unfold Np.argsort.
  set (S := merge_sort Np.key_le (zip v (seq 0 (length v)))).
  assert (fst <$> S = L) as E.
  { apply (StronglySorted_unique Z.le).
    - apply keys_sorted. apply StronglySorted_merge_sort; apply _.
    - exact HL.
    - subst S. rewrite merge_sort_Permutation, fst_zip by (rewrite length_seq; lia).
      symmetry. exact HP. }
  rewrite <- E, list_lookup_fmap in Hj.
  destruct (S !! j) as [[x' p]|] eqn:HS; [|discriminate]. injection Hj as ->.
  exists p. rewrite list_lookup_fmap, HS. split; [reflexivity|].
  apply lookup_zip_seq. rewrite <- (merge_sort_Permutation Np.key_le).
  eapply list_elem_of_lookup_2. exact HS.
Qed.

(** The positions of the true entries are in ascending order, and the entry
    [i] is found at its rank. *)
Lemma select_seq_sorted (m : list bool) (a : nat) :
  StronglySorted lt (Np.select m (seq a (length m))) /\
  Forall (fun x => (a <= x)%nat) (Np.select m (seq a (length m))).
Proof.
  revert a. induction m as [|b m IH]; intros a; [split; constructor|].
  destruct (IH (S a)) as [IH1 IH2]. cbn [length seq Np.select]. destruct b.
  - split.
    + constructor; [exact IH1|]. eapply Forall_impl; [exact IH2|]. cbn. lia.
    + constructor; [lia|]. eapply Forall_impl; [exact IH2|]. cbn. lia.
  - split; [exact IH1|]. eapply Forall_impl; [exact IH2|]. cbn. lia.
Qed.

Lemma positions_sorted (m : list bool) :
  StronglySorted Z.le (Z.of_nat <$> Np.positions m).
Proof.
  destruct (select_seq_sorted m 0) as [HS _]. unfold Np.positions.
  induction HS as [|x l Hl IH HF]; csimpl; constructor; [exact IH|].
  apply Forall_fmap. eapply Forall_impl; [exact HF|]. cbn. lia.
Qed.

Lemma positions_lookup_rank (m : list bool) (i : nat) :
  m !! i = Some true -> Np.positions m !! Np.rank m i = Some i.
Proof.
  intros Hi. unfold Np.positions. apply select_lookup_rank; [exact Hi|].
  apply lookup_seq. split; [reflexivity|]. eapply lookup_lt_Some. exact Hi.
Qed.

(** The rank in a selection of the place an entry has in it. *)
Lemma select_firstn {A} (m : list bool) (a : list A) (i : nat) :
  firstn (Np.rank m i) (Np.select m a) = Np.select (firstn i m) (firstn i a).
Proof.
  revert a i. induction m as [|b m IH]; intros a i.
  - cbn [Np.select]. rewrite !firstn_nil. reflexivity.
  - destruct a as [|x a].
    + rewrite select_nil_r, !firstn_nil, select_nil_r. reflexivity.
    + destruct i as [|i]; [rewrite rank_0; reflexivity|].
      rewrite rank_S. destruct b; cbn [Np.select firstn Nat.add]; [f_equal|]; apply IH.
Qed.

Lemma rank_select (m f : list bool) (i : nat) :
  length f = length m ->
  Np.rank (Np.select m f) (Np.rank m i) = Np.rank (zip_with andb f m) i.
Proof.
  intros E. unfold Np.rank at 1 3. rewrite select_firstn.
  rewrite count_true_select_and by (rewrite !length_take; lia).
  rewrite zip_with_take. reflexivity.
Qed.


End NpFacts.


(** ** DynamicArray *)

Module DynamicArrayFacts.
Import DynamicArray.

Section Dtype.
Context {A : Type} (zero : A).

Lemma length_mjoin_replicate {B} (k : nat) (a : list B) :
  length (mjoin (replicate k a)) = (k * length a)%nat.
Proof.
  induction k as [|k IH]; simpl; [reflexivity|].
  rewrite length_app, IH. reflexivity.
Qed.

Lemma ceil_div_covers (n L : Z) : 0 < L -> n <= - (- n / L) * L.
Proof.
  intros HL. pose proof (Z.div_mod (- n) L ltac:(lia)) as E.
  pose proof (Z.mod_pos_bound (- n) L HL) as R. nia.
Qed.

Lemma np_resize_length (a : list (@cell A)) (n : Z) (trailing : list Z) buf :
  np_resize zero a n trailing = ok buf -> Np.len buf = n /\ 0 <= n.
Proof.
  unfold np_resize. destruct (_ || _) eqn:E; [discriminate|].
  apply orb_false_iff in E as [E _]. apply Z.ltb_ge in E.
  destruct a as [|c a].
  - intros H. apply ok_inj in H. subst buf. unfold Np.len.
    rewrite length_replicate. lia.
  - intros H. apply ok_inj in H. subst buf. unfold Np.len.
    rewrite length_take, length_mjoin_replicate.
    set (L := length (c :: a)).
    assert (0 < Z.of_nat L) by (subst L; simpl; lia).
    pose proof (ceil_div_covers n (Z.of_nat L) ltac:(lia)) as C.
    split; [|lia].
    assert (0 <= - (- n / Z.of_nat L)) by nia.
    assert (Z.of_nat (Z.to_nat (- (- n / Z.of_nat L)) * L) = - (- n / Z.of_nat L) * Z.of_nat L)
      as E2 by (rewrite Nat2Z.inj_mul, Z2Nat.id by lia; reflexivity).
    lia.
Qed.

Lemma np_resize_ok (a : list (@cell A)) (n : Z) (trailing : list Z) :
  0 <= n -> existsb (fun d => d <? 0) trailing = false ->
  exists buf, np_resize zero a n trailing = ok buf.
Proof.
  intros Hn Ht. unfold np_resize. rewrite Ht.
  replace (n <? 0) with false by (symmetry; apply Z.ltb_ge; lia). simpl.
  destruct a; eauto.
Qed.

Lemma clamp_inside (n i : Z) : 0 <= i <= n -> Np.clamp n i = i.
Proof.
  intros H. unfold Np.clamp.
  replace (i <? 0) with false by (symmetry; apply Z.ltb_ge; lia).
  cbv zeta.
  replace (i <? 0) with false by (symmetry; apply Z.ltb_ge; lia).
  replace (n <? i) with false by (symmetry; apply Z.ltb_ge; lia).
  reflexivity.
Qed.

Lemma slice_bounds_inside (n : nat) (i j : Z) :
  0 <= i <= j -> j <= Z.of_nat n ->
  Np.slice_bounds n i j = (Z.to_nat i, Z.to_nat j).
Proof.
  intros Hi Hj. unfold Np.slice_bounds.
  rewrite !clamp_inside by lia. rewrite Z.max_r by lia. reflexivity.
Qed.

(** What [increase_size] does to a well-formed array when asked for [s >= 0]
    more slots. *)
Lemma increase_size_wf (self : @t A) (s : Z) :
  wf self -> 0 <= s ->
  exists self',
    increase_size zero self s
      = ok (mk_view (Z.to_nat (size self)) (Z.to_nat (size self + s)), self') /\
    size self' = size self + s /\
    capacity self' =
      (if size self + s <? capacity self then capacity self
       else Z.max (2 * capacity self) (size self + s)) /\
    shape self' = shape self /\
    wf self'.
Proof.
  intros (Hsz & Hlen & Htr) Hs. unfold increase_size.
  destruct (Z.leb_spec (capacity self) (size self + s)) as [Hge|Hlt].
  - replace (size self + s <? capacity self) with false
      by (symmetry; apply Z.ltb_ge; lia).
    unfold resize, _get_trailing_dimensions.
    destruct (np_resize_ok (data self) (Z.max (2 * capacity self) (size self + s))
                (tail (shape self)) ltac:(lia) Htr) as [buf Hbuf].
    rewrite Hbuf. rewrite !bind_ok. cbn [data size capacity shape ndim].
    apply np_resize_length in Hbuf as [Hbl _]. unfold Np.len in Hbl.
    rewrite slice_bounds_inside by lia.
    eexists. split; [reflexivity|]. unfold wf, Np.len. simpl.
    repeat split; try lia; try assumption.
  - replace (size self + s <? capacity self) with true
      by (symmetry; apply Z.ltb_lt; lia).
    rewrite bind_ok. unfold Np.len in Hlen.
    rewrite slice_bounds_inside by lia.
    eexists. split; [reflexivity|]. unfold wf, Np.len. simpl.
    repeat split; try lia; try assumption.
Qed.

(** C8, as the code has it.  On an array with size [S] and capacity [C],
    [increase_size(n)] (for [n >= 0]) returns the view [data[S:S+n]], sets the
    size to [S+n], and keeps the capacity when [S+n < C]; when [S+n >= C] the
    buffer is resized and the capacity becomes [max(2*C, S+n)]. *)
Theorem increase_size_view_size_capacity (self : @t A) (n : Z) :
  wf self -> 0 <= n ->
  exists self',
    increase_size zero self n
      = ok (mk_view (Z.to_nat (size self)) (Z.to_nat (size self + n)), self') /\
    size self' = size self + n /\
    (size self + n < capacity self -> capacity self' = capacity self) /\
    (capacity self <= size self + n ->
       capacity self' = Z.max (2 * capacity self) (size self + n)) /\
    Np.len (data self') = capacity self'.
Proof.
  intros Hwf Hn.
  destruct (increase_size_wf self n Hwf Hn) as (self' & Hcall & Hsize & Hcap & _ & Hwf').
  exists self'. split; [exact Hcall|]. split; [exact Hsize|].
  destruct Hwf' as (_ & Hlen & _).
  destruct (Z.ltb_spec (size self + n) (capacity self)); repeat split; try lia; assumption.
Qed.

(** The calls that change the size leave [shape] alone and move [size] by
    their net amount. *)
Lemma call_shape_size (self self' : @t A) (o : op) :
  call zero self o = ok self' ->
  shape self' = shape self /\ size self' = size self + net o.
Proof.
  destruct o as [s|s|values]; simpl; intros H.
  - bind_inv H. destruct x as [v a]. apply ok_inj in H. subst a.
    unfold increase_size in Hx. bind_inv Hx.
    destruct (Np.slice_bounds _ _ _) as [l h]. apply ok_inj in Hx.
    injection Hx as _ <-. simpl.
    destruct (capacity self <=? size self + s).
    + unfold resize in Hx0. bind_inv Hx0. subst x. simpl. auto.
    + apply ok_inj in Hx0. subst x. auto.
  - bind_inv H. destruct x as [v a]. apply ok_inj in H. subst a.
    unfold decrease_size in Hx. destruct (negb _); [discriminate|].
    destruct (Np.slice_bounds _ _ _) as [l h]. apply ok_inj in Hx.
    injection Hx as _ <-. simpl. split; reflexivity.
  - unfold extend in H. bind_inv H.
    destruct (Np.slice_bounds _ _ _) as [l h]. bind_inv H. subst self'. simpl.
    destruct (capacity self <=? size self + Np.len values).
    + unfold resize in Hx. bind_inv Hx. subst x. simpl. auto.
    + apply ok_inj in Hx. subst x. auto.
Qed.

Lemma calls_shape_size (os : list op) (self self' : @t A) :
  calls zero self os = ok self' ->
  shape self' = shape self /\ size self' = size self + foldr Z.add 0 (net <$> os).
Proof.
  revert self. induction os as [|o os IH]; intros self H; cbn [calls] in H.
  - apply ok_inj in H. subst. split; [reflexivity|simpl; lia].
  - bind_inv H. apply call_shape_size in Hx as [Hs Hz].
    apply IH in H as [Hs' Hz']. rewrite fmap_cons. cbn [foldr].
    split; [congruence|lia].
Qed.

Lemma constructed_len (self : @t A) :
  constructed self -> __len__ self = ok (size self).
Proof.
  intros [(n & c & H)|[(shp & c & H)|[(B & cast & l & c & H)|[(B & cast & l & w & c & H)
                                                             |(B & cast & l & tr & c & H)]]]].
  - unfold init_int in H. bind_inv H. subst self. unfold __len__. simpl.
    unfold Np.item. simpl. reflexivity.
  - unfold init_tuple in H. bind_inv H. subst self. unfold __len__. simpl. exact Hx.
  - unfold init_list in H. bind_inv H. subst self. unfold __len__. simpl.
    unfold Np.item. simpl. reflexivity.
  - unfold init_rows in H. bind_inv H. subst self. unfold __len__. simpl.
    unfold Np.item. simpl. reflexivity.
  - unfold init_ndarray in H. bind_inv H. subst self. unfold __len__. simpl. exact Hx.
Qed.

(** C10.  [__len__] is the first component of [shape], which the constructor
    sets to the initial size and which [increase_size], [decrease_size] and
    [extend] never touch, while they move [size] by their net amount: after
    calls whose net amount is not zero, [len(a)] is still the size at
    construction and differs from [a.size]. *)
Theorem len_is_shape_at_construction (a a' : @t A) (os : list op) :
  constructed a ->
  calls zero a os = ok a' ->
  __len__ a' = ok (size a) /\
  shape a' = shape a /\
  size a' = size a + foldr Z.add 0 (net <$> os) /\
  (foldr Z.add 0 (net <$> os) <> 0 -> __len__ a' <> ok (size a')).
Proof.
  intros Hc Hcalls.
  apply constructed_len in Hc.
  apply calls_shape_size in Hcalls as [Hs Hz].
  assert (__len__ a' = ok (size a)) as Hl by (unfold __len__ in *; rewrite Hs; exact Hc).
  repeat split; try assumption.
  intros Hnet. rewrite Hl. intros E. apply ok_inj in E. lia.
Qed.

End Dtype.

(** C8 does not hold when the appended slots fill the buffer exactly: with
    size 3 and capacity 4, one more slot does not exceed the capacity
    ([3 + 1 <= 4]), and the capacity still doubles to 8. *)
Lemma increase_size_full_buffer_grows :
  3 + 1 <= 4 /\
  (a ← @init_int Z 3 4; ok (size a, capacity a)) = ok (3, 4) /\
  (a ← @init_int Z 3 4; '(_, a') ← increase_size 0 a 1; ok (size a', capacity a'))
    = ok (4, 8).
Proof. split; [lia|]. split; reflexivity. Qed.

Lemma increase_size_view_size_capacity_witness :
  exists a : @t Z,
    init_int 3 10 = ok a /\
    exists a',
      increase_size 0 a 2 = ok (mk_view 3 5, a') /\
      size a' = 5 /\ capacity a' = 10.
Proof.
  eexists. split; [reflexivity|].
  destruct (increase_size_view_size_capacity 0
              {| shape := [3]; size := 3; capacity := 10; ndim := 1;
                 data := replicate 10 None |} 2) as (a' & H1 & H2 & H3 & H4 & H5).
  - unfold wf, Np.len; simpl. split; [lia|]. split; reflexivity.
  - lia.
  - exists a'. split; [exact H1|]. split; [exact H2|]. apply H3. simpl. lia.
Defined.

Lemma len_is_shape_at_construction_witness :
  exists a a' : @t Z,
    init_int 3 10 = ok a /\
    calls 0 a [IncreaseSize 2; Extend [7; 8]; DecreaseSize 1] = ok a' /\
    __len__ a' = ok 3 /\ size a' = 6.
Proof.
  eexists. eexists. split; [reflexivity|]. split; [reflexivity|].
  match goal with |- __len__ ?a' = _ /\ _ =>
    destruct (len_is_shape_at_construction 0
                {| shape := [3]; size := 3; capacity := 10; ndim := 1;
                   data := replicate 10 None |} a'
                [IncreaseSize 2; Extend [7; 8]; DecreaseSize 1]) as (H1 & H2 & H3 & H4)
  end.
  - left. exists 3, 10. reflexivity.
  - reflexivity.
  - split; [exact H1|exact H3].
Defined.

End DynamicArrayFacts.


(** ** Half-edge tables *)

Module TableFacts.
Import HalfEdgeDomain NpFacts.

Lemma lookup_row (H : list HEdge) (h : Z) :
  is_halfedge H h -> H !! Z.to_nat h = Some (row H h).
Proof.
  intros [H0 H1]. unfold row. apply list_lookup_lookup_total_lt.
  unfold Np.len in H1. lia.
Qed.

Lemma lookup_row_nat (H : list HEdge) (i : nat) (r : HEdge) :
  H !! i = Some r -> is_halfedge H (Z.of_nat i) /\ row H (Z.of_nat i) = r.
Proof.
  intros Hi. pose proof (lookup_lt_Some _ _ _ Hi) as Hlt. split.
  - unfold is_halfedge, Np.len. lia.
  - unfold row. rewrite Nat2Z.id. apply list_lookup_total_correct. exact Hi.
Qed.

Section Table.
Variables (NV : Z) (H : list HEdge).
Hypothesis Hwf : well_formed NV H.
Hypothesis Hinv : invariants H.

Lemma twin_is_halfedge (h : Z) : is_halfedge H h -> is_halfedge H (twin (row H h)).
Proof. intros Hh. apply Hwf. exact Hh. Qed.

Lemma twin_twin (h : Z) : is_halfedge H h -> twin (row H (twin (row H h))) = h.
Proof. intros Hh. apply Hinv. exact Hh. Qed.

Lemma twin_inj (h1 h2 : Z) :
  is_halfedge H h1 -> is_halfedge H h2 ->
  twin (row H h1) = twin (row H h2) -> h1 = h2.
Proof.
  intros H1 H2 E. rewrite <- (twin_twin h1 H1), <- (twin_twin h2 H2), E. reflexivity.
Qed.

Lemma prev_inj (h1 h2 : Z) :
  is_halfedge H h1 -> is_halfedge H h2 ->
  prev (row H h1) = prev (row H h2) -> h1 = h2.
Proof.
  intros H1 H2 E.
  destruct (Hinv h1 H1) as (_ & <- & _). destruct (Hinv h2 H2) as (_ & <- & _).
  rewrite E. reflexivity.
Qed.

Lemma primary_twin (h : Z) :
  is_halfedge H h ->
  (primary (row H (twin (row H h))) =? 1) = negb (primary (row H h) =? 1).
Proof.
  intros Hh. destruct (Hinv h Hh) as (_ & _ & _ & Hp).
  destruct (Z.eqb_spec (primary (row H h)) 1) as [E|E],
           (Z.eqb_spec (primary (row H (twin (row H h)))) 1) as [E'|E'];
    simpl; try reflexivity; tauto.
Qed.

End Table.

(** *** Masks over the half-edges *)

Lemma at_lookup (M : list bool) (i : nat) (b : bool) :
  M !! i = Some b -> at_ M (Z.of_nat i) = b.
Proof. intros E. unfold at_. rewrite Nat2Z.id, E. reflexivity. Qed.

Lemma lookup_at (H : list HEdge) (M : list bool) (h : Z) :
  length M = length H -> is_halfedge H h -> M !! Z.to_nat h = Some (at_ M h).
Proof.
  intros HL [H0 H1]. unfold at_, Np.len in *.
  destruct (lookup_lt_is_Some_2 M (Z.to_nat h)) as [b E]; [lia|].
  rewrite E. reflexivity.
Qed.

Lemma put_seq_const (c : bool) (a : list bool) (ks : list nat) (i : nat) :
  Np.put_seq (fun _ b : bool => b) a ks (replicate (length ks) c) !! i
  = if decide (i ∈ ks) then (fun _ => c) <$> a !! i else a !! i.
Proof.
  revert a. induction ks as [|k ks IH]; intros a; simpl.
  - destruct (decide (i ∈ [])) as [Hin|_]; [inversion Hin|reflexivity].
  - rewrite IH. destruct (decide (i = k)) as [->|Hne].
    + rewrite list_lookup_alter_eq.
      destruct (decide (k ∈ ks)), (decide (k ∈ k :: ks)) as [|Hn];
        try reflexivity; try (destruct (a !! k); reflexivity).
      * exfalso. apply Hn. left.
      * exfalso. apply Hn. left.
    + rewrite list_lookup_alter_ne by congruence.
      destruct (decide (i ∈ ks)) as [Hin|Hin], (decide (i ∈ k :: ks)) as [Hin'|Hin'];
        try reflexivity.
      * exfalso. apply Hin'. right. exact Hin.
      * exfalso. apply elem_of_cons in Hin' as [?|?]; [congruence|contradiction].
Qed.

Lemma broadcast_singleton {B} (n : nat) (x : B) :
  Np.broadcast n [x] = ok (replicate n x).
Proof.
  unfold Np.broadcast. destruct (Nat.eqb_spec (length [x]) n) as [E|E]; [|reflexivity].
  simpl in E. subst n. reflexivity.
Qed.

Section Symmetrise.
Variables (NV : Z) (H : list HEdge) (M : list bool).
Hypothesis Hwf : well_formed NV H.
Hypothesis Hinv : invariants H.
Hypothesis HM : length M = length H.

Lemma symmetrise_ok :
  (tw ← Np.mask M (twin <$> H); Np.put (fun _ b : bool => b) M tw [true])
  = ok (symmetrised H M).
Proof.
  rewrite mask_ok by (rewrite length_fmap; exact HM). rewrite bind_ok.
  unfold Np.put. rewrite broadcast_singleton, bind_ok.
  rewrite select_fmap.
  rewrite norm_indices_ok.
  - rewrite bind_ok. unfold symmetrised. rewrite !length_fmap. reflexivity.
  - apply Forall_forall. intros z Hz.
    apply list_elem_of_fmap in Hz as (r & -> & Hr).
    apply list_elem_of_lookup_1 in Hr as (k & Hk).
    apply select_lookup_inv in Hk as (i & _ & Hi & _).
    apply lookup_row_nat in Hi as (Hi & <-).
    rewrite HM. apply (twin_is_halfedge NV H Hwf). exact Hi.
Qed.

Lemma length_symmetrised : length (symmetrised H M) = length H.
Proof. unfold symmetrised. rewrite length_put_seq. exact HM. Qed.

Lemma twin_marked_iff (h : Z) :
  is_halfedge H h ->
  Z.to_nat h ∈ Z.to_nat <$> (twin <$> Np.select M H) <-> at_ M (twin (row H h)) = true.
Proof.
  intros Hh. split.
  - intros Hin. apply list_elem_of_fmap in Hin as (z & Ez & Hz).
    apply list_elem_of_fmap in Hz as (r & -> & Hr).
    apply list_elem_of_lookup_1 in Hr as (k & Hk).
    apply select_lookup_inv in Hk as (i & HMi & Hi & _).
    apply lookup_row_nat in Hi as (Hi & <-).
    pose proof (twin_is_halfedge NV H Hwf _ Hi) as Ht.
    assert (h = twin (row H (Z.of_nat i))) as -> by (destruct Hh, Ht; lia).
    rewrite (twin_twin H Hinv) by exact Hi.
    apply at_lookup. exact HMi.
  - intros Hat. pose proof (twin_is_halfedge NV H Hwf _ Hh) as Ht.
    set (j := twin (row H h)) in *.
    pose proof (lookup_at H M j HM Ht) as Hj. rewrite Hat in Hj.
    pose proof (lookup_row H j Ht) as Hr.
    pose proof (select_lookup_rank _ _ _ _ Hj Hr) as Hs.
    apply list_elem_of_fmap. exists (twin (row H j)). split.
    + subst j. rewrite (twin_twin H Hinv) by exact Hh. reflexivity.
    + apply list_elem_of_fmap. exists (row H j). split; [reflexivity|].
      eapply list_elem_of_lookup_2. exact Hs.
Qed.

(** A half-edge is marked afterwards when it or its opposite was. *)
Lemma at_symmetrised (h : Z) :
  is_halfedge H h ->
  at_ (symmetrised H M) h = at_ M h || at_ M (twin (row H h)).
Proof.
  intros Hh. unfold at_ at 1. unfold symmetrised.
  rewrite <- (length_fmap twin), <- (length_fmap Z.to_nat).
  rewrite put_seq_const. rewrite (lookup_at H M h HM Hh).
  destruct (decide _) as [Hin|Hin].
  - apply twin_marked_iff in Hin; [|exact Hh]. rewrite Hin. simpl.
    rewrite orb_true_r. reflexivity.
  - simpl. destruct (at_ M (twin (row H h))) eqn:E.
    + exfalso. apply Hin. apply twin_marked_iff; assumption.
    + rewrite orb_false_r. reflexivity.
Qed.

Lemma symmetrised_symmetric : symmetric H (symmetrised H M).
Proof.
  split; [exact length_symmetrised|]. intros h Hh.
  pose proof (twin_is_halfedge NV H Hwf _ Hh) as Ht.
  rewrite !at_symmetrised by assumption.
  rewrite (twin_twin H Hinv) by exact Hh. apply orb_comm.
Qed.

End Symmetrise.

(** *** Counting the marked half-edges *)

Lemma flag_lookup (H : list HEdge) (g : HEdge -> bool) (M : list bool) (x : nat) :
  length M = length H ->
  zip_with andb (g <$> H) M !! x = Some true <->
  is_halfedge H (Z.of_nat x) /\ g (row H (Z.of_nat x)) = true /\ at_ M (Z.of_nat x) = true.
Proof.
  intros HL. rewrite lookup_zip_with. rewrite list_lookup_fmap. split.
  - destruct (H !! x) as [r|] eqn:Hr; [|discriminate]. simpl.
    destruct (M !! x) as [b|] eqn:Hb; [|discriminate]. simpl.
    intros E. injection E as E. apply andb_true_iff in E as [E1 E2].
    apply lookup_row_nat in Hr as (Hx & <-). apply at_lookup in Hb.
    repeat split; try assumption; apply Hx || congruence.
  - intros (Hx & Hg & Hm).
    pose proof (lookup_row H _ Hx) as Hr. rewrite Nat2Z.id in Hr. rewrite Hr. simpl.
    pose proof (lookup_at H M _ HL Hx) as Hb. rewrite Nat2Z.id in Hb. rewrite Hb. simpl.
    rewrite Hg, Hm. reflexivity.
Qed.

Section Counting.
Variables (NV : Z) (H : list HEdge) (M : list bool).
Hypothesis Hwf : well_formed NV H.
Hypothesis Hinv : invariants H.
Hypothesis Hsym : symmetric H M.

Let isMain : list bool := (fun r => primary r =? 1) <$> H.

Lemma count_main_marked_le (g g' : HEdge -> bool) :
  (forall h, is_halfedge H h -> g (row H h) = true -> g' (row H (twin (row H h))) = true) ->
  (Np.count_true (zip_with andb (g <$> H) M) <= Np.count_true (zip_with andb (g' <$> H) M))%nat.
Proof.
  intros Hg. destruct Hsym as [HL Hcl].
  apply (count_true_le_by_injection (fun x => Z.to_nat (twin (row H (Z.of_nat x))))).
  - intros x Hx. apply flag_lookup in Hx as (Hx & Hgx & Hm); [|exact HL].
    pose proof (twin_is_halfedge NV H Hwf _ Hx) as Ht.
    apply flag_lookup; [exact HL|]. rewrite Z2Nat.id by apply Ht.
    repeat split; try apply Ht; [apply Hg; assumption|].
    rewrite Hcl by exact Hx. exact Hm.
  - intros x y Hx Hy E.
    apply flag_lookup in Hx as (Hx & _); [|exact HL].
    apply flag_lookup in Hy as (Hy & _); [|exact HL].
    pose proof (twin_is_halfedge NV H Hwf _ Hx) as Htx.
    pose proof (twin_is_halfedge NV H Hwf _ Hy) as Hty.
    apply Nat2Z.inj. apply (twin_inj H Hinv); try assumption.
    destruct Htx, Hty. lia.
Qed.

(** Half of the marked half-edges are main ones. *)
Lemma count_marked :
  Np.count_true M = (2 * Np.count_true (zip_with andb isMain M))%nat.
Proof.
  destruct Hsym as [HL _].
  rewrite (count_true_split isMain M) by (subst isMain; rewrite length_fmap; congruence).
  subst isMain. rewrite <- list_fmap_compose.
  assert (Np.count_true (zip_with andb ((fun r => primary r =? 1) <$> H) M)
          = Np.count_true (zip_with andb ((negb ∘ (fun r => primary r =? 1)) <$> H) M)) as E.
  { apply Nat.le_antisymm; apply count_main_marked_le; intros h Hh Hp; simpl in *.
    - rewrite (primary_twin H Hinv) by exact Hh. rewrite Hp. reflexivity.
    - rewrite (primary_twin H Hinv) by exact Hh. rewrite negb_true_iff in Hp.
      rewrite Hp. reflexivity. }
  lia.
Qed.

End Counting.

(** *** A pass on a table that is in order *)

Lemma forall_rows_of (H : list HEdge) (P : HEdge -> Prop) :
  (forall h, is_halfedge H h -> P (row H h)) -> forall r, r ∈ H -> P r.
Proof.
  intros HP r Hr. apply list_elem_of_lookup_1 in Hr as (i & Hi).
  apply lookup_row_nat in Hi as (Hi & <-). apply HP. exact Hi.
Qed.

Lemma rows_of_lookups (H : list HEdge) (idx : list Z) (r : HEdge) :
  Forall (fun i => 0 <= i < Np.len H) idx ->
  r ∈ (fun i => H !!! Z.to_nat i) <$> idx -> r ∈ H.
Proof.
  intros Hidx Hr. apply list_elem_of_fmap in Hr as (i & -> & Hi).
  rewrite Forall_forall in Hidx. specialize (Hidx i Hi).
  apply list_elem_of_lookup_total_2. unfold Np.len in Hidx. lia.
Qed.

Lemma zeros_ok (k : nat) : zeros (Z.of_nat k) = ok (replicate k zero_row).
Proof.
  unfold zeros. destruct (Z.ltb_spec (Z.of_nat k) 0); [lia|]. rewrite Nat2Z.id. reflexivity.
Qed.

Lemma length_range_nat (a : Z) (k : nat) : length (Np.range a (a + Z.of_nat k)) = k.
Proof. unfold Np.range. rewrite length_seqZ. lia. Qed.

Lemma select_scatter_target (m : list bool) (a : list HEdge) (v : list Z) :
  length m = length a -> length v = Np.count_true m ->
  Np.select m (target <$> Np.scatter set_target m a v) = v.
Proof.
  revert a v. induction m as [|b m IH]; intros [|x a] v Hl Hv; try discriminate.
  - destruct v; [reflexivity|discriminate].
  - injection Hl as Hl. destruct b.
    + destruct v as [|y v]; [discriminate|]. csimpl. f_equal. apply IH; [exact Hl|].
      simpl in Hv. lia.
    + csimpl. apply IH; assumption.
Qed.

Ltac step := rewrite bind_ok; cbv beta zeta.

Section Pass.
Variables (NE NV : Z) (V : list point) (H : list HEdge) (M : list bool).
Hypothesis Hwf : well_formed NV H.
Hypothesis Hinv : invariants H.
Hypothesis HV : NV = Np.len V.
Hypothesis HE : NE = Np.len H.
Hypothesis Hsym : symmetric H M.

Let flag0 : list bool := zip_with andb (isMain H) M.
Let c : nat := Np.count_true flag0.

Lemma length_isMain : length (isMain H) = length H.
Proof. unfold isMain. apply length_fmap. Qed.

Lemma length_flag0 : length flag0 = length H.
Proof.
  subst flag0. rewrite length_zip_with, length_isMain. destruct Hsym as [-> _]. lia.
Qed.

Lemma count_marked_c : Np.count_true M = (2 * c)%nat.
Proof. apply (count_marked NV H M Hwf Hinv Hsym). Qed.

Lemma count_flag1 : Np.count_true (Np.select M (isMain H)) = c.
Proof.
  rewrite count_true_select_and; [reflexivity|].
  rewrite length_isMain. destruct Hsym as [-> _]. reflexivity.
Qed.

Lemma length_flag1 : length (Np.select M (isMain H)) = (2 * c)%nat.
Proof.
  rewrite length_select by (rewrite length_isMain; apply Hsym). apply count_marked_c.
Qed.

Lemma length_selected : length (Np.select M H) = (2 * c)%nat.
Proof. rewrite length_select by apply Hsym. apply count_marked_c. Qed.

Lemma length_main_selected : length (Np.select flag0 H) = c.
Proof. rewrite length_select by apply length_flag0. reflexivity. Qed.

Lemma length_centres : length (centres V H flag0) = c.
Proof.
  unfold centres. rewrite length_zip_with, !length_fmap, length_main_selected. lia.
Qed.

Lemma targets_in_range (rows : list HEdge) :
  (forall r, r ∈ rows -> r ∈ H) ->
  Forall (fun i => 0 <= i < Np.len V) (target <$> rows).
Proof.
  intros Hrows. apply Forall_fmap, Forall_forall. intros r Hr. simpl.
  rewrite <- HV. revert r Hr. intros r Hr.
  apply (forall_rows_of H (fun r => 0 <= target r < NV)); [|apply Hrows; exact Hr].
  intros h Hh. apply Hwf. exact Hh.
Qed.

Lemma twins_in_range (rows : list HEdge) :
  (forall r, r ∈ rows -> r ∈ H) ->
  Forall (fun i => 0 <= i < Np.len H) (twin <$> rows).
Proof.
  intros Hrows. apply Forall_fmap, Forall_forall. intros r Hr. simpl.
  apply (forall_rows_of H (fun r => 0 <= twin r < Np.len H)); [|apply Hrows; exact Hr].
  intros h Hh. apply (twin_is_halfedge NV H Hwf). exact Hh.
Qed.

Lemma centres_ok :
  (a ← Np.take V (target <$> Np.select flag0 H);
   rows ← Np.take H (twin <$> Np.select flag0 H);
   b ← Np.take V (target <$> rows);
   ok (zip_with midpoint a b)) = ok (centres V H flag0).
Proof.
  rewrite (take_ok V (target <$> Np.select flag0 H))
    by (apply targets_in_range; intros r; apply elem_of_select).
  step.
  rewrite (take_ok H) by (apply twins_in_range; intros r; apply elem_of_select).
  step.
  rewrite (take_ok V).
  - step. reflexivity.
  - apply targets_in_range. intros r. apply rows_of_lookups.
    apply twins_in_range. intros r'. apply elem_of_select.
Qed.

Lemma length_new_h0 :
  length (Np.scatter set_target (Np.select M (isMain H)) (replicate (2 * c) zero_row)
            (Np.range NV (NV + Z.of_nat c))) = (2 * c)%nat.
Proof. rewrite length_scatter, length_replicate. reflexivity. Qed.

Lemma length_new_targets :
  length (new_targets NV (Np.select M (isMain H)) (twin <$> Np.select flag0 H) c)
  = (2 * c)%nat.
Proof. unfold new_targets. rewrite length_scatter. apply length_new_h0. Qed.

Lemma length_new_rows : length (new_rows NV H M c) = (2 * c)%nat.
Proof.
  unfold new_rows. rewrite !length_zip_with, !length_fmap.
  fold flag0. rewrite length_new_targets, length_selected. lia.
Qed.

Lemma length_prev_set : length (prev_set NE H M c) = length H.
Proof. unfold prev_set. apply length_scatter. Qed.

Lemma length_rewired : length (rewired NE H M c) = length H.
Proof. unfold rewired. rewrite length_scatter. apply length_prev_set. Qed.

Lemma twin_prev_set : twin <$> prev_set NE H M c = twin <$> H.
Proof. unfold prev_set. apply scatter_frame. reflexivity. Qed.

Lemma twins_prev_set_in_range :
  Forall (fun i => 0 <= i < Np.len (prev_set NE H M c))
    (twin <$> Np.select M (prev_set NE H M c)).
Proof.
  rewrite <- select_fmap, twin_prev_set, select_fmap.
  unfold Np.len. rewrite length_prev_set.
  apply twins_in_range. intros r. apply elem_of_select.
Qed.

Lemma prev_in_range (r : HEdge) :
  r ∈ rewired NE H M c ++ new_rows NV H M c ->
  0 <= prev r < NE + 2 * Z.of_nat c.
Proof.
  assert (forall r, r ∈ H -> 0 <= prev r < NE) as Hold.
  { apply forall_rows_of. intros h Hh. rewrite HE. apply Hwf. exact Hh. }
  intros Hr. apply elem_of_app in Hr as [Hr|Hr].
  - assert (prev r ∈ prev <$> rewired NE H M c) as Hp
      by (apply list_elem_of_fmap; eauto).
    unfold rewired in Hp. rewrite scatter_frame in Hp by reflexivity.
    apply list_elem_of_fmap in Hp as (r' & -> & Hr').
    unfold prev_set in Hr'. apply scatter_elem in Hr' as [Hr'|(x & y & Hx & Hy & ->)].
    + apply Hold in Hr'. lia.
    + cbn [prev set_prev]. unfold Np.range in Hy. apply elem_of_seqZ in Hy.
      unfold Np.len in HE. lia.
  - assert (prev r ∈ prev <$> new_rows NV H M c) as Hp
      by (apply list_elem_of_fmap; eauto).
    unfold new_rows in Hp.
    rewrite (zip_with_frame prev set_primary) in Hp; [|reflexivity|].
    2:{ rewrite !length_zip_with, !length_fmap. fold flag0.
        rewrite length_new_targets, length_selected. lia. }
    rewrite (zip_with_frame prev set_twin) in Hp; [|reflexivity|].
    2:{ rewrite !length_zip_with, !length_fmap. fold flag0.
        rewrite length_new_targets, length_selected. lia. }
    assert (forall (a : list HEdge) (v : list Z), length a = length v ->
              prev <$> zip_with set_prev a v = v) as Hset.
    { induction a as [|x a IH]; intros [|y v] E; try discriminate; [reflexivity|].
      csimpl. f_equal. apply IH. simpl in E. lia. }
    rewrite Hset in Hp.
    2:{ rewrite !length_zip_with, !length_fmap. fold flag0.
        rewrite length_new_targets, length_selected. lia. }
    apply list_elem_of_fmap in Hp as (r' & -> & Hr').
    apply elem_of_select in Hr'. apply Hold in Hr'. lia.
Qed.

(** On a table that is in order and a symmetric mask every step of the pass
    goes through, and the arrays are the ones above. *)
Lemma marked_pass_ok (ec0 : list point) :
  length ec0 = c ->
  (let isMarkedHEdge := M in
   let halfedge := H in
   let isMainHEdge := (fun r => primary r =? 1) <$> halfedge in
   let flag0 := zip_with andb isMainHEdge isMarkedHEdge in
   let idx := twin <$> (Np.select flag0 halfedge) in
   let ec := ec0 in
   let NE1 := 2 * Np.len ec in
   halfedge1 ← zeros NE1;
   let flag1 := Np.select isMarkedHEdge isMainHEdge in
   halfedge1 ← Np.mask_set set_target flag1 halfedge1 (Np.range NV (NV + NE1 / 2));
   let idx0 := Np.argsort idx in
   new ← Np.mask flag1 (target <$> halfedge1);
   new ← Np.take new idx0;
   halfedge1 ← Np.mask_set set_target (negb <$> flag1) halfedge1 new;
   halfedge1 ← Np.col_set set_region halfedge1 (region <$> (Np.select isMarkedHEdge halfedge));
   halfedge1 ← Np.col_set set_prev halfedge1 (prev <$> (Np.select isMarkedHEdge halfedge));
   halfedge1 ← Np.col_set set_twin halfedge1 (twin <$> (Np.select isMarkedHEdge halfedge));
   halfedge1 ← Np.col_set set_primary halfedge1 (primary <$> (Np.select isMarkedHEdge halfedge));
   halfedge ← Np.mask_set set_prev isMarkedHEdge halfedge (Np.range NE (NE + NE1));
   let idx := twin <$> (Np.select isMarkedHEdge halfedge) in
   rows ← Np.take halfedge idx;
   halfedge ← Np.mask_set set_twin isMarkedHEdge halfedge (prev <$> rows);
   let halfedge' := halfedge ++ halfedge1 in
   halfedge' ← Np.put set_next halfedge' (prev <$> halfedge') (Np.range 0 (NE + NE1));
   ok (mkPass isMarkedHEdge halfedge ec halfedge'))
  = ok (adaptive_closed NE NV H M ec0).
Proof.
  intros Hec. cbv zeta. fold (isMain H). fold flag0.
  assert (Np.len ec0 = Z.of_nat c) as Hc by (unfold Np.len; rewrite Hec; reflexivity).
  rewrite Hc.
  replace (2 * Z.of_nat c) with (Z.of_nat (2 * c)) by lia.
  rewrite zeros_ok. step.
  replace (Z.of_nat (2 * c) / 2) with (Z.of_nat c)
    by (rewrite Nat2Z.inj_mul, Z.mul_comm, Z.div_mul by lia; reflexivity).
  rewrite (mask_set_ok set_target (Np.select M (isMain H)) (replicate (2 * c) zero_row)).
  2:{ rewrite length_replicate. apply length_flag1. }
  2:{ rewrite length_range_nat. symmetry. apply count_flag1. }
  step.
  rewrite (mask_ok (Np.select M (isMain H)))
    by (rewrite length_fmap, length_new_h0; apply length_flag1).
  step.
  rewrite (take_ok _ (Np.argsort _)).
  2:{ eapply Forall_impl; [apply argsort_range|]. intros i Hi. simpl in Hi.
      unfold Np.len in *. rewrite length_fmap in Hi.
      rewrite length_select by (rewrite length_fmap, length_new_h0; apply length_flag1).
      rewrite count_flag1. rewrite length_main_selected in Hi. exact Hi. }
  step.
  rewrite (mask_set_ok set_target (negb <$> _)).
  2:{ rewrite length_fmap, length_new_h0. apply length_flag1. }
  2:{ rewrite length_fmap, length_argsort, length_fmap, length_main_selected.
      pose proof (count_true_negb (Np.select M (isMain H))) as E.
      rewrite count_flag1, length_flag1 in E. lia. }
  step.
  fold (new_targets NV (Np.select M (isMain H)) (twin <$> Np.select flag0 H) c).
  rewrite (col_set_ok set_region)
    by (rewrite length_fmap, length_new_targets, length_selected; reflexivity).
  step.
  rewrite (col_set_ok set_prev)
    by (rewrite !length_zip_with, !length_fmap, length_new_targets, length_selected; lia).
  step.
  rewrite (col_set_ok set_twin)
    by (rewrite !length_zip_with, !length_fmap, length_new_targets, length_selected; lia).
  step.
  rewrite (col_set_ok set_primary)
    by (rewrite !length_zip_with, !length_fmap, length_new_targets, length_selected; lia).
  step.
  change (zip_with set_primary _ _) with (new_rows NV H M c).
  replace (Z.of_nat (2 * c)) with (2 * Z.of_nat c) by lia.
  rewrite (mask_set_ok set_prev M H).
  2:{ apply Hsym. }
  2:{ replace (2 * Z.of_nat c) with (Z.of_nat (2 * c)) by lia.
      rewrite length_range_nat. symmetry. apply count_marked_c. }
  step. fold (prev_set NE H M c).
  rewrite (take_ok (prev_set NE H M c)) by apply twins_prev_set_in_range.
  step.
  rewrite (mask_set_ok set_twin M).
  2:{ rewrite length_prev_set. apply Hsym. }
  2:{ rewrite !length_fmap. rewrite length_select by (rewrite length_prev_set; apply Hsym).
      reflexivity. }
  step. fold (rewired NE H M c).
  rewrite put_ok.
  2:{ rewrite length_fmap, length_app, length_rewired, length_new_rows.
      unfold Np.range. rewrite length_seqZ. unfold Np.len in HE. lia. }
  2:{ apply Forall_fmap, Forall_forall. intros r Hr. simpl.
      apply prev_in_range in Hr. unfold Np.len.
      rewrite length_app, length_rewired, length_new_rows.
      unfold Np.len in HE. lia. }
  step. unfold adaptive_closed. fold flag0. fold c. unfold linked.
  replace (Np.len (rewired NE H M c ++ new_rows NV H M c)) with (NE + 2 * Z.of_nat c).
  2:{ unfold Np.len. rewrite length_app, length_rewired, length_new_rows.
      unfold Np.len in HE. lia. }
  reflexivity.
Qed.

(** **** The rows of the table that was given *)

Lemma marked_lookup (h : Z) :
  is_halfedge H h -> at_ M h = true -> M !! Z.to_nat h = Some true.
Proof.
  intros Hh Hm. rewrite (lookup_at H M h) by (apply Hsym || exact Hh). rewrite Hm. reflexivity.
Qed.

Lemma unmarked_lookup (h : Z) :
  is_halfedge H h -> at_ M h = false -> M !! Z.to_nat h <> Some true.
Proof.
  intros Hh Hm. rewrite (lookup_at H M h) by (apply Hsym || exact Hh). rewrite Hm. discriminate.
Qed.

Lemma new_index_range (h : Z) :
  is_halfedge H h -> at_ M h = true ->
  NE <= new_index NE M h < NE + 2 * Z.of_nat c.
Proof.
  intros Hh Hm. unfold new_index.
  pose proof (rank_lt M _ (marked_lookup h Hh Hm)) as Hlt.
  rewrite count_marked_c in Hlt. lia.
Qed.

Lemma new_index_inj (h1 h2 : Z) :
  is_halfedge H h1 -> at_ M h1 = true ->
  is_halfedge H h2 -> at_ M h2 = true ->
  new_index NE M h1 = new_index NE M h2 -> h1 = h2.
Proof.
  intros H1 M1 H2 M2 E. unfold new_index in E.
  assert (Z.to_nat h1 = Z.to_nat h2) as E'.
  { apply (rank_inj M); try (apply marked_lookup; assumption). lia. }
  destruct H1, H2. lia.
Qed.

Lemma selected_lookup (h : Z) :
  is_halfedge H h -> at_ M h = true ->
  Np.select M H !! Np.rank M (Z.to_nat h) = Some (row H h).
Proof.
  intros Hh Hm. apply select_lookup_rank; [apply marked_lookup; assumption|].
  apply lookup_row. exact Hh.
Qed.

(** Every position of the selection is the rank of a marked half-edge. *)
Lemma selected_cover (k : nat) :
  (k < 2 * c)%nat ->
  exists h, is_halfedge H h /\ at_ M h = true /\ Np.rank M (Z.to_nat h) = k.
Proof.
  intros Hk. rewrite <- length_selected in Hk.
  apply lookup_lt_is_Some_2 in Hk as [r Hr].
  apply select_lookup_inv in Hr as (i & Hm & Hi & Hrk).
  apply lookup_row_nat in Hi as (Hi & _).
  exists (Z.of_nat i). rewrite Nat2Z.id. repeat split; try apply Hi; [|exact Hrk].
  apply at_lookup. exact Hm.
Qed.

Lemma prev_set_lookup (h : Z) :
  is_halfedge H h ->
  prev_set NE H M c !! Z.to_nat h
  = Some (if at_ M h then set_prev (row H h) (new_index NE M h) else row H h).
Proof.
  intros Hh. unfold prev_set. destruct (at_ M h) eqn:Hm.
  - apply scatter_lookup_true; [apply marked_lookup; assumption|apply lookup_row; exact Hh|].
    unfold new_index. apply lookup_range.
    pose proof (rank_lt M _ (marked_lookup h Hh Hm)) as Hlt.
    rewrite count_marked_c in Hlt. lia.
  - rewrite scatter_lookup_other by (apply unmarked_lookup; assumption).
    apply lookup_row. exact Hh.
Qed.

Lemma rewired_lookup (h : Z) :
  is_halfedge H h ->
  rewired NE H M c !! Z.to_nat h
  = Some (if at_ M h
          then set_twin (set_prev (row H h) (new_index NE M h))
                 (new_index NE M (twin (row H h)))
          else row H h).
Proof.
  intros Hh. unfold rewired. cbv zeta. destruct (at_ M h) eqn:Hm.
  - pose proof (twin_is_halfedge NV H Hwf h Hh) as Ht.
    assert (at_ M (twin (row H h)) = true) as Hmt
      by (destruct Hsym as [_ Hcl]; rewrite Hcl by exact Hh; exact Hm).
    pose proof (prev_set_lookup h Hh) as Hp. rewrite Hm in Hp.
    apply scatter_lookup_true; [apply marked_lookup; assumption|exact Hp|].
    rewrite !list_lookup_fmap.
    rewrite (select_lookup_rank M _ _ _ (marked_lookup h Hh Hm) Hp).
    cbn [fmap option_fmap option_map twin set_prev].
    pose proof (prev_set_lookup _ Ht) as Hpt. rewrite Hmt in Hpt.
    rewrite (list_lookup_total_correct _ _ _ Hpt). reflexivity.
  - rewrite scatter_lookup_other by (apply unmarked_lookup; assumption).
    pose proof (prev_set_lookup h Hh) as Hp. rewrite Hm in Hp. exact Hp.
Qed.

(** **** The new rows *)

(** **** The vertex a new row ends at *)

Lemma isMain_lookup (h : Z) :
  is_halfedge H h -> isMain H !! Z.to_nat h = Some (primary (row H h) =? 1).
Proof.
  intros Hh. unfold isMain. rewrite list_lookup_fmap, (lookup_row H h Hh). reflexivity.
Qed.

Lemma flag1_lookup (h : Z) :
  is_halfedge H h -> at_ M h = true ->
  Np.select M (isMain H) !! Np.rank M (Z.to_nat h) = Some (primary (row H h) =? 1).
Proof.
  intros Hh Hm. apply select_lookup_rank; [apply marked_lookup; assumption|].
  apply isMain_lookup. exact Hh.
Qed.

Lemma flag0_lookup (h : Z) :
  is_halfedge H h -> at_ M h = true -> (primary (row H h) =? 1) = true ->
  flag0 !! Z.to_nat h = Some true.
Proof.
  intros Hh Hm Hp. subst flag0. unfold isMain. apply flag_lookup; [apply Hsym|].
  rewrite Z2Nat.id by apply Hh. auto.
Qed.

Lemma edge_main_flagged (h : Z) :
  is_halfedge H h -> at_ M h = true ->
  is_halfedge H (edge_main H h) /\ flag0 !! Z.to_nat (edge_main H h) = Some true.
Proof.
  intros Hh Hm. unfold edge_main. destruct (primary (row H h) =? 1) eqn:Hp.
  - split; [exact Hh|]. apply flag0_lookup; assumption.
  - pose proof (twin_is_halfedge NV H Hwf h Hh) as Ht.
    split; [exact Ht|]. apply flag0_lookup; [exact Ht| |].
    + destruct Hsym as [_ Hcl]. rewrite Hcl by exact Hh. exact Hm.
    + rewrite (primary_twin H Hinv h Hh), Hp. reflexivity.
Qed.

Lemma new_vertex_range (h : Z) :
  is_halfedge H h -> at_ M h = true ->
  NV <= new_vertex NV H M h < NV + Z.of_nat c.
Proof.
  intros Hh Hm. destruct (edge_main_flagged h Hh Hm) as [_ Hf].
  pose proof (rank_lt flag0 _ Hf) as Hlt. unfold new_vertex. fold flag0. fold c in Hlt. lia.
Qed.

(** The twins of the flagged main half-edges are the marked half-edges that
    are not main. *)
Lemma twins_of_main_NoDup : NoDup (twin <$> Np.select flag0 H).
Proof.
  apply NoDup_alt. intros i j x Hi Hj.
  rewrite list_lookup_fmap in Hi, Hj.
  destruct (Np.select flag0 H !! i) as [ri|] eqn:Ei; [|discriminate].
  destruct (Np.select flag0 H !! j) as [rj|] eqn:Ej; [|discriminate].
  injection Hi as Hi. injection Hj as Hj.
  apply select_lookup_inv in Ei as (a & _ & Ha & <-).
  apply select_lookup_inv in Ej as (b & _ & Hb & <-).
  apply lookup_row_nat in Ha as (Ha & Ra). apply lookup_row_nat in Hb as (Hb & Rb).
  assert (Z.of_nat a = Z.of_nat b) as E.
  { apply (twin_inj H Hinv); [exact Ha|exact Hb|]. rewrite Ra, Rb. congruence. }
  apply Nat2Z.inj in E. subst b. reflexivity.
Qed.

Lemma twins_of_main_perm :
  Z.of_nat <$> Np.positions (zip_with andb ((fun r => negb (primary r =? 1)) <$> H) M)
  ≡ₚ twin <$> Np.select flag0 H.
Proof.
  destruct Hsym as [HL Hcl].
  apply NoDup_Permutation; [|apply twins_of_main_NoDup|].
  - apply NoDup_fmap_2_strong; [|apply NoDup_positions].
    intros x y _ _. apply Nat2Z.inj.
  - intros x. split.
    + intros Hx. apply list_elem_of_fmap in Hx as (q & -> & Hq).
      apply elem_of_positions in Hq. apply flag_lookup in Hq as (Hq & Hp & Hm); [|exact HL].
      apply negb_true_iff in Hp.
      pose proof (twin_is_halfedge NV H Hwf _ Hq) as Ht.
      assert (flag0 !! Z.to_nat (twin (row H (Z.of_nat q))) = Some true) as Hf.
      { apply flag0_lookup; [exact Ht|rewrite Hcl by exact Hq; exact Hm|].
        rewrite (primary_twin H Hinv _ Hq), Hp. reflexivity. }
      pose proof (select_lookup_rank flag0 H _ _ Hf (lookup_row H _ Ht)) as Hs.
      apply list_elem_of_fmap. exists (row H (twin (row H (Z.of_nat q)))).
      split; [symmetry; apply (twin_twin H Hinv); exact Hq|].
      eapply list_elem_of_lookup_2. exact Hs.
    + intros Hx. apply list_elem_of_fmap in Hx as (r & -> & Hr).
      apply list_elem_of_lookup_1 in Hr as (k & Hk).
      apply select_lookup_inv in Hk as (a & Hf & Ha & _).
      apply lookup_row_nat in Ha as (Ha & <-).
      subst flag0. unfold isMain in Hf. apply flag_lookup in Hf as (_ & Hp & Hm); [|exact HL].
      pose proof (twin_is_halfedge NV H Hwf _ Ha) as Ht.
      apply list_elem_of_fmap. exists (Z.to_nat (twin (row H (Z.of_nat a)))).
      split; [rewrite Z2Nat.id by apply Ht; reflexivity|].
      apply elem_of_positions. apply flag_lookup; [exact HL|].
      rewrite Z2Nat.id by apply Ht. split; [exact Ht|]. split.
      * rewrite (primary_twin H Hinv _ Ha), Hp. reflexivity.
      * rewrite Hcl by exact Ha. exact Hm.
Qed.

Lemma new_targets_lookup (h : Z) :
  is_halfedge H h -> at_ M h = true ->
  exists x,
    new_targets NV (Np.select M (isMain H)) (twin <$> Np.select flag0 H) c
      !! Np.rank M (Z.to_nat h) = Some x /\
    target x = new_vertex NV H M h.
Proof.
  intros Hh Hm. destruct Hsym as [HL Hcl].
  set (flag1 := Np.select M (isMain H)).
  set (idx := twin <$> Np.select flag0 H).
  set (k := Np.rank M (Z.to_nat h)).
  pose proof (flag1_lookup h Hh Hm) as Hk. fold flag1 k in Hk.
  pose proof (rank_lt M _ (marked_lookup h Hh Hm)) as Hlt. rewrite count_marked_c in Hlt.
  fold k in Hlt.
  destruct (edge_main_flagged h Hh Hm) as [Hmain Hf].
  pose proof (rank_lt flag0 _ Hf) as Hr. fold c in Hr.
  unfold new_targets. cbv zeta.
  set (h0 := Np.scatter set_target flag1 (replicate (2 * c) zero_row)
               (Np.range NV (NV + Z.of_nat c))).
  assert (Np.select flag1 (target <$> h0) = Np.range NV (NV + Z.of_nat c)) as Enew.
  { subst h0. apply select_scatter_target.
    - subst flag1. rewrite length_flag1, length_replicate. reflexivity.
    - subst flag1. rewrite count_flag1. unfold Np.range. rewrite length_seqZ. lia. }
  rewrite Enew.
  assert (length (isMain H) = length M) as LM by (rewrite length_isMain; congruence).
  unfold new_vertex, edge_main in *. fold flag0.
  destruct (primary (row H h) =? 1) eqn:Hp.
  - exists (set_target zero_row (NV + Z.of_nat (Np.rank flag0 (Z.to_nat h)))).
    split; [|reflexivity].
    rewrite scatter_lookup_other
      by (rewrite list_lookup_fmap, Hk; discriminate).
    subst h0. apply scatter_lookup_true; [exact Hk|apply lookup_replicate_2; lia|].
    subst flag1 k. rewrite (rank_select M (isMain H) _ LM). fold flag0.
    apply lookup_range. lia.
  - destruct (lookup_lt_is_Some_2 h0 k) as [x0 Hx0].
    { subst h0. rewrite length_scatter, length_replicate. exact Hlt. }
    set (m := twin (row H h)) in *.
    exists (set_target x0 (NV + Z.of_nat (Np.rank flag0 (Z.to_nat m)))).
    split; [|reflexivity].
    apply scatter_lookup_true; [rewrite list_lookup_fmap, Hk; reflexivity|exact Hx0|].
    assert (negb <$> flag1 = Np.select M ((fun r => negb (primary r =? 1)) <$> H)) as ->.
    { subst flag1. unfold isMain. rewrite <- select_fmap, <- list_fmap_compose. reflexivity. }
    subst k. rewrite rank_select by (rewrite length_fmap; congruence).
    set (nm := zip_with andb ((fun r => negb (primary r =? 1)) <$> H) M).
    assert (nm !! Z.to_nat h = Some true) as Hnm.
    { subst nm. apply flag_lookup; [exact HL|]. rewrite Z2Nat.id by apply Hh.
      rewrite Hp. auto. }
    assert ((Z.of_nat <$> Np.positions nm) !! Np.rank nm (Z.to_nat h) = Some h) as HLj.
    { rewrite list_lookup_fmap, (positions_lookup_rank nm _ Hnm). cbn.
      rewrite Z2Nat.id by apply Hh. reflexivity. }
    destruct (argsort_lookup idx _ _ _ (positions_sorted nm) twins_of_main_perm HLj)
      as (p & Hp1 & Hp2).
    assert (idx !! Np.rank flag0 (Z.to_nat m) = Some h) as Hp3.
    { subst idx. rewrite list_lookup_fmap.
      rewrite (select_lookup_rank flag0 H _ _ Hf (lookup_row H m Hmain)). cbn.
      f_equal. apply (twin_twin H Hinv). exact Hh. }
    pose proof (NoDup_lookup _ _ _ _ twins_of_main_NoDup Hp2 Hp3) as ->.
    rewrite list_lookup_fmap, Hp1. cbn. f_equal. rewrite Nat2Z.id.
    apply list_lookup_total_correct. apply lookup_range. lia.
Qed.

Lemma new_rows_lookup (h : Z) :
  is_halfedge H h -> at_ M h = true ->
  new_rows NV H M c !! Np.rank M (Z.to_nat h)
  = Some (mkHEdge (new_vertex NV H M h) (region (row H h)) 0 (prev (row H h))
            (twin (row H h)) (primary (row H h))).
Proof.
  intros Hh Hm.
  pose proof (selected_lookup h Hh Hm) as Hs.
  destruct (new_targets_lookup h Hh Hm) as (x & Hx & Hxt).
  unfold new_rows. cbv zeta. fold flag0.
  rewrite !lookup_zip_with, !list_lookup_fmap, Hx, Hs. cbn.
  assert (forall r, r ∈ new_targets NV (Np.select M (isMain H)) (twin <$> Np.select flag0 H) c ->
            region r = 0 /\ next r = 0 /\ prev r = 0 /\ twin r = 0 /\ primary r = 0) as Hz.
  { intros r Hr. unfold new_targets in Hr. cbv zeta in Hr.
    assert (forall r, r ∈ Np.scatter set_target (Np.select M (isMain H))
                           (replicate (2 * c) zero_row) (Np.range NV (NV + Z.of_nat c)) ->
              region r = 0 /\ next r = 0 /\ prev r = 0 /\ twin r = 0 /\ primary r = 0) as Hz0.
    { intros r0 Hr0. apply scatter_elem in Hr0 as [Hr0|(x0 & y0 & Hx0 & _ & ->)].
      - apply elem_of_replicate in Hr0 as [-> _]. repeat split.
      - apply elem_of_replicate in Hx0 as [-> _]. repeat split. }
    apply scatter_elem in Hr as [Hr|(x0 & y0 & Hx0 & _ & ->)]; [auto|].
    apply Hz0 in Hx0. exact Hx0. }
  destruct (Hz x (list_elem_of_lookup_2 _ _ _ Hx)) as (_ & Hn & _).
  destruct x as [xt xr xn xp xw xm]. cbn [target next] in *. subst xn xt. reflexivity.
Qed.

(** **** The joined table and its [next] column *)

Let T : list HEdge := rewired NE H M c ++ new_rows NV H M c.

Lemma length_T : Np.len T = NE + 2 * Z.of_nat c.
Proof.
  subst T. unfold Np.len. rewrite length_app, length_rewired, length_new_rows.
  unfold Np.len in HE. lia.
Qed.

Lemma T_old (h : Z) :
  is_halfedge H h ->
  T !! Z.to_nat h
  = Some (if at_ M h
          then set_twin (set_prev (row H h) (new_index NE M h))
                 (new_index NE M (twin (row H h)))
          else row H h).
Proof.
  intros Hh. subst T. rewrite lookup_app_l.
  - apply rewired_lookup. exact Hh.
  - rewrite length_rewired. destruct Hh as [? Hlt]. unfold Np.len in Hlt. lia.
Qed.

Lemma T_new (h : Z) :
  is_halfedge H h -> at_ M h = true ->
  T !! Z.to_nat (new_index NE M h)
  = Some (mkHEdge (new_vertex NV H M h) (region (row H h)) 0 (prev (row H h))
            (twin (row H h)) (primary (row H h))).
Proof.
  intros Hh Hm. pose proof (new_rows_lookup h Hh Hm) as Hl.
  subst T. rewrite lookup_app_r.
  - rewrite length_rewired. unfold new_index.
    replace (Z.to_nat (NE + Z.of_nat (Np.rank M (Z.to_nat h))) - length H)%nat
      with (Np.rank M (Z.to_nat h)) by (unfold Np.len in HE; lia).
    exact Hl.
  - rewrite length_rewired. unfold new_index. unfold Np.len in HE. lia.
Qed.

(** A row of the joined table is an old row or the new row of a marked
    half-edge. *)
Lemma T_cases (i : nat) :
  (Z.of_nat i < NE + 2 * Z.of_nat c) ->
  is_halfedge H (Z.of_nat i) \/
  exists h, is_halfedge H h /\ at_ M h = true /\ Z.of_nat i = new_index NE M h.
Proof.
  intros Hi. destruct (decide (Z.of_nat i < NE)) as [Hlt|Hge].
  - left. unfold is_halfedge. rewrite <- HE. lia.
  - right. destruct (selected_cover (i - length H)%nat) as (h & Hh & Hm & Hrk).
    + unfold Np.len in HE. lia.
    + exists h. repeat split; try apply Hh; [exact Hm|].
      unfold new_index. rewrite Hrk. unfold Np.len in HE. lia.
Qed.

(** The [prev] column of the joined table, row by row. *)
Lemma T_prev (i : nat) (r : HEdge) :
  T !! i = Some r ->
  (exists h, Z.of_nat i = h /\ is_halfedge H h /\ at_ M h = true /\
             prev r = new_index NE M h) \/
  (exists h, is_halfedge H h /\ prev r = prev (row H h) /\
             ((Z.of_nat i = h /\ at_ M h = false) \/
              (Z.of_nat i = new_index NE M h /\ at_ M h = true))).
Proof.
  intros Hr. pose proof (lookup_lt_Some _ _ _ Hr) as Hlt.
  assert (Z.of_nat i < NE + 2 * Z.of_nat c) as Hi
    by (rewrite <- length_T; unfold Np.len; lia).
  destruct (T_cases i Hi) as [Hh|(h & Hh & Hm & Ei)].
  - pose proof (T_old _ Hh) as Ho. rewrite Nat2Z.id, Hr in Ho. injection Ho as ->.
    destruct (at_ M (Z.of_nat i)) eqn:Hm.
    + left. exists (Z.of_nat i). repeat split; try apply Hh. exact Hm.
    + right. exists (Z.of_nat i). repeat split; try apply Hh. left. auto.
  - pose proof (T_new h Hh Hm) as Hn. rewrite <- Ei, Nat2Z.id, Hr in Hn.
    injection Hn as ->. right. exists h. repeat split; try apply Hh. right. auto.
Qed.

Lemma NoDup_prev_T : NoDup (Z.to_nat <$> (prev <$> T)).
Proof.
  apply NoDup_alt. intros i1 i2 k H1 H2.
  rewrite !list_lookup_fmap in H1, H2.
  destruct (T !! i1) as [r1|] eqn:Hr1; [|discriminate].
  destruct (T !! i2) as [r2|] eqn:Hr2; [|discriminate].
  cbn in H1, H2. injection H1 as H1. injection H2 as H2.
  assert (forall r, r ∈ T -> 0 <= prev r) as Hnn
    by (intros r Hr; apply prev_in_range in Hr; lia).
  pose proof (Hnn r1 (list_elem_of_lookup_2 _ _ _ Hr1)) as N1.
  pose proof (Hnn r2 (list_elem_of_lookup_2 _ _ _ Hr2)) as N2.
  assert (prev r1 = prev r2) as E by lia. clear H1 H2 N1 N2 Hnn k.
  apply Nat2Z.inj.
  destruct (T_prev i1 r1 Hr1) as [(h1 & E1 & Hh1 & Hm1 & P1)|(h1 & Hh1 & P1 & C1)];
    destruct (T_prev i2 r2 Hr2) as [(h2 & E2 & Hh2 & Hm2 & P2)|(h2 & Hh2 & P2 & C2)].
  - rewrite E1, E2. apply new_index_inj; try assumption. congruence.
  - exfalso. pose proof (new_index_range h1 Hh1 Hm1) as R1.
    assert (0 <= prev (row H h2) < NE) as R2 by (rewrite HE; apply Hwf; exact Hh2).
    lia.
  - exfalso. pose proof (new_index_range h2 Hh2 Hm2) as R2.
    assert (0 <= prev (row H h1) < NE) as R1 by (rewrite HE; apply Hwf; exact Hh1).
    lia.
  - assert (h1 = h2) as <- by (apply (prev_inj H Hinv); try assumption; congruence).
    destruct C1 as [[-> M1]|[-> M1]], C2 as [[-> M2]|[-> M2]]; congruence.
Qed.

Lemma linked_lookup (i : nat) (r r' : HEdge) :
  T !! i = Some r -> T !! Z.to_nat (prev r) = Some r' ->
  linked T !! Z.to_nat (prev r) = Some (set_next r' (Z.of_nat i)).
Proof.
  intros Hr Hr'. unfold linked.
  apply (put_seq_lookup_in set_next T _ _ i); [apply NoDup_prev_T| | |exact Hr'].
  - rewrite !list_lookup_fmap, Hr. reflexivity.
  - pose proof (lookup_lt_Some _ _ _ Hr) as Hlt.
    rewrite (lookup_range 0 (Np.len T) i) by (unfold Np.len; lia).
    reflexivity.
Qed.

(** The rows of the refined table. *)
Lemma refined_old (h : Z) :
  is_halfedge H h ->
  linked T !! Z.to_nat h
  = Some (mkHEdge (target (row H h)) (region (row H h))
            (if at_ M (next (row H h)) then new_index NE M (next (row H h))
             else next (row H h))
            (if at_ M h then new_index NE M h else prev (row H h))
            (if at_ M h then new_index NE M (twin (row H h)) else twin (row H h))
            (primary (row H h))).
Proof.
  intros Hh. set (x := next (row H h)).
  assert (is_halfedge H x) as Hx by (apply Hwf; exact Hh).
  assert (prev (row H x) = h) as Hpx by (apply Hinv; exact Hh).
  pose proof (T_old h Hh) as Hrow.
  destruct (at_ M x) eqn:Hmx.
  - pose proof (T_new x Hx Hmx) as Hn.
    pose proof (fun r' => linked_lookup _ _ r' Hn) as L. cbn [prev] in L. rewrite Hpx in L.
    rewrite (L _ Hrow). f_equal.
    rewrite Z2Nat.id by (pose proof (new_index_range x Hx Hmx); unfold Np.len in HE; lia).
    destruct (at_ M h); destruct (row H h); reflexivity.
  - pose proof (T_old x Hx) as Ho. rewrite Hmx in Ho.
    pose proof (fun r' => linked_lookup _ _ r' Ho) as L. rewrite Hpx in L.
    rewrite (L _ Hrow). f_equal.
    rewrite Z2Nat.id by apply Hx.
    destruct (at_ M h); destruct (row H h); reflexivity.
Qed.

Lemma refined_new (h : Z) :
  is_halfedge H h -> at_ M h = true ->
  linked T !! Z.to_nat (new_index NE M h)
  = Some (mkHEdge (new_vertex NV H M h) (region (row H h)) h (prev (row H h))
            (twin (row H h)) (primary (row H h))).
Proof.
  intros Hh Hm. pose proof (T_new h Hh Hm) as Hn.
  pose proof (T_old h Hh) as Ho. rewrite Hm in Ho.
  pose proof (fun r' => linked_lookup _ _ r' Ho) as L. cbn [prev set_twin set_prev] in L.
  rewrite (L _ Hn). f_equal. cbn [set_next target region prev twin primary].
  rewrite Z2Nat.id by apply Hh. reflexivity.
Qed.

Lemma length_refined : Np.len (linked T) = NE + 2 * Z.of_nat c.
Proof. unfold linked, Np.len. rewrite length_put_seq. apply length_T. Qed.

(** **** The refined table is in order *)

Lemma row_refined_old (h : Z) :
  is_halfedge H h ->
  row (linked T) h
  = mkHEdge (target (row H h)) (region (row H h))
      (if at_ M (next (row H h)) then new_index NE M (next (row H h))
       else next (row H h))
      (if at_ M h then new_index NE M h else prev (row H h))
      (if at_ M h then new_index NE M (twin (row H h)) else twin (row H h))
      (primary (row H h)).
Proof.
  intros Hh. unfold row at 1. apply list_lookup_total_correct.
  apply refined_old. exact Hh.
Qed.

Lemma row_refined_new (h : Z) :
  is_halfedge H h -> at_ M h = true ->
  row (linked T) (new_index NE M h)
  = mkHEdge (new_vertex NV H M h) (region (row H h)) h (prev (row H h))
      (twin (row H h)) (primary (row H h)).
Proof.
  intros Hh Hm. unfold row at 1. apply list_lookup_total_correct.
  apply refined_new; assumption.
Qed.

Lemma refined_cases (j : Z) :
  is_halfedge (linked T) j ->
  is_halfedge H j \/
  exists h, is_halfedge H h /\ at_ M h = true /\ j = new_index NE M h.
Proof.
  intros [Hj0 Hj1]. rewrite length_refined in Hj1.
  destruct (T_cases (Z.to_nat j)) as [Hc|(h & Hh & Hm & E)].
  - lia.
  - left. rewrite Z2Nat.id in Hc by lia. exact Hc.
  - right. exists h. rewrite Z2Nat.id in E by lia. auto.
Qed.

Lemma is_halfedge_refined_old (h : Z) : is_halfedge H h -> is_halfedge (linked T) h.
Proof.
  intros [H0 H1]. unfold is_halfedge. rewrite length_refined. rewrite <- HE in H1. lia.
Qed.

Lemma is_halfedge_refined_new (h : Z) :
  is_halfedge H h -> at_ M h = true -> is_halfedge (linked T) (new_index NE M h).
Proof.
  intros Hh Hm. pose proof (new_index_range h Hh Hm) as R.
  unfold is_halfedge. rewrite length_refined. unfold Np.len in HE. lia.
Qed.

Lemma is_halfedge_refined_if (b : bool) (h : Z) :
  is_halfedge H h -> at_ M h = b ->
  is_halfedge (linked T) (if b then new_index NE M h else h).
Proof.
  intros Hh Hm. destruct b.
  - apply is_halfedge_refined_new; assumption.
  - apply is_halfedge_refined_old; assumption.
Qed.

Lemma refined_well_formed : well_formed (NV + Z.of_nat c) (linked T).
Proof.
  intros j Hj. destruct (refined_cases j Hj) as [Hh|(h & Hh & Hm & ->)].
  - rewrite (row_refined_old j Hh). cbn [target next prev twin].
    destruct (Hwf j Hh) as (Ht & Hn & Hp & Hw).
    destruct (Hsym) as [_ Hcl].
    split; [lia|]. split; [|split].
    + apply is_halfedge_refined_if; [exact Hn|reflexivity].
    + destruct (at_ M j) eqn:Hm.
      * apply is_halfedge_refined_new; assumption.
      * apply is_halfedge_refined_old; assumption.
    + destruct (at_ M j) eqn:Hm.
      * apply is_halfedge_refined_new; [exact Hw|]. rewrite Hcl; assumption.
      * apply is_halfedge_refined_old; assumption.
  - rewrite (row_refined_new h Hh Hm). pose proof (new_vertex_range h Hh Hm) as Ht. cbn [target next prev twin].
    destruct (Hwf h Hh) as (_ & Hn & Hp & Hw).
    split; [unfold Np.len in HV; lia|].
    repeat split; apply is_halfedge_refined_old; assumption.
Qed.

Lemma refined_invariants : invariants (linked T).
Proof.
  destruct Hsym as [_ Hcl].
  intros j Hj. destruct (refined_cases j Hj) as [Hh|(h & Hh & Hm & ->)].
  - rewrite (row_refined_old j Hh). cbn [target next prev twin primary].
    destruct (Hwf j Hh) as (_ & Hn & Hp & Hw).
    destruct (Hinv j Hh) as (Itw & Inp & Ipn & Ipr).
    assert (at_ M (twin (row H j)) = at_ M j) as Hmt by (apply Hcl; exact Hh).
    split; [|split; [|split]].
    + destruct (at_ M j) eqn:Hm.
      * rewrite (row_refined_new _ Hw Hmt). cbn [twin]. exact Itw.
      * rewrite (row_refined_old _ Hw). cbn [twin]. rewrite Hmt. exact Itw.
    + destruct (at_ M j) eqn:Hm.
      * rewrite (row_refined_new _ Hh Hm). reflexivity.
      * rewrite (row_refined_old _ Hp). cbn [next]. rewrite Inp, Hm. reflexivity.
    + destruct (at_ M (next (row H j))) eqn:Hm.
      * rewrite (row_refined_new _ Hn Hm). cbn [prev]. exact Ipn.
      * rewrite (row_refined_old _ Hn). cbn [prev]. rewrite Hm. exact Ipn.
    + destruct (at_ M j) eqn:Hm.
      * rewrite (row_refined_new _ Hw Hmt). cbn [primary]. exact Ipr.
      * rewrite (row_refined_old _ Hw). cbn [primary]. exact Ipr.
  - rewrite (row_refined_new h Hh Hm). pose proof (new_vertex_range h Hh Hm) as Ht. cbn [target next prev twin primary].
    destruct (Hwf h Hh) as (_ & Hn & Hp & Hw).
    destruct (Hinv h Hh) as (Itw & Inp & Ipn & Ipr).
    assert (at_ M (twin (row H h)) = true) as Hmt by (rewrite Hcl; assumption).
    split; [|split; [|split]].
    + rewrite (row_refined_old _ Hw). cbn [twin]. rewrite Hmt, Itw. reflexivity.
    + rewrite (row_refined_old _ Hp). cbn [next]. rewrite Inp, Hm. reflexivity.
    + rewrite (row_refined_old _ Hh). cbn [prev]. rewrite Hm. reflexivity.
    + rewrite (row_refined_old _ Hw). cbn [primary]. exact Ipr.
Qed.

Lemma refined_valid : valid_table (NV + Z.of_nat c) (linked T).
Proof. split; [apply refined_well_formed|apply refined_invariants]. Qed.

End Pass.

(** *** The two passes *)

Lemma put_marks_ok (NV : Z) (H : list HEdge) (M : list bool) :
  well_formed NV H -> length M = length H ->
  Np.put (fun _ b : bool => b) M (Np.select M (twin <$> H)) [true] = ok (symmetrised H M).
Proof.
  intros Hwf HM.
  pose proof (symmetrise_ok NV H M Hwf HM) as E.
  rewrite mask_ok in E by (rewrite length_fmap; exact HM). exact E.
Qed.

(** [boundary_adaptive_refine]'s pass on a table that is in order: the mask
    is made symmetric, and the arrays are those computed above.  When the
    centres are passed in, there must be one for every marked edge. *)
Lemma adaptive_pass_ok (NE NV : Z) (V : list point) (H : list HEdge) (M0 : list bool)
    (edgecenter : option (list point)) :
  valid_table NV H -> NV = Np.len V -> NE = Np.len H -> length M0 = length H ->
  (forall e, edgecenter = Some e ->
     length e = Np.count_true (zip_with andb (isMain H) (symmetrised H M0))) ->
  adaptive_pass NE NV V H M0 edgecenter
  = ok (adaptive_closed NE NV H (symmetrised H M0)
          (default (centres V H (zip_with andb (isMain H) (symmetrised H M0))) edgecenter)).
Proof.
  intros [Hwf Hinv] HV HE HM Hec. unfold adaptive_pass.
  rewrite (mask_ok M0 (twin <$> H)) by (rewrite length_fmap; exact HM). step.
  rewrite (put_marks_ok NV H M0 Hwf HM). step.
  pose proof (symmetrised_symmetric NV H M0 Hwf Hinv HM) as Hsym.
  fold (isMain H).
  destruct edgecenter as [e|].
  - step. cbn [default]. specialize (Hec e eq_refl).
    exact (marked_pass_ok NE NV H (symmetrised H M0) Hwf Hinv HE Hsym e Hec).
  - rewrite (centres_ok NV V H (symmetrised H M0) Hwf HV). step. cbn [default].
    apply (marked_pass_ok NE NV H (symmetrised H M0) Hwf Hinv HE Hsym).
    apply (length_centres V H (symmetrised H M0) Hsym).
Qed.

Section AllMarked.
Variables (NV : Z) (H : list HEdge).
Hypothesis Hwf : well_formed NV H.

Let A : list bool := replicate (length H) true.

Lemma at_all_true (z : Z) : is_halfedge H z -> at_ A z = true.
Proof.
  intros [H0 H1]. unfold at_, A. rewrite lookup_replicate_2; [reflexivity|].
  unfold Np.len in H1. lia.
Qed.

Lemma all_true_symmetric : symmetric H A.
Proof.
  split; [apply length_replicate|]. intros h Hh.
  rewrite !at_all_true; [reflexivity|exact Hh|apply Hwf; exact Hh].
Qed.

Lemma symmetrised_all_true : symmetrised H A = A.
Proof.
  apply list_eq. intros i. unfold symmetrised.
  rewrite <- (length_fmap twin), <- (length_fmap Z.to_nat).
  rewrite put_seq_const. destruct (decide _); [|reflexivity].
  destruct (A !! i) as [b|] eqn:E; [|reflexivity]. cbn.
  subst A. apply lookup_replicate in E as [-> _]. reflexivity.
Qed.

Lemma rank_all_true (h : Z) : is_halfedge H h -> Np.rank A (Z.to_nat h) = Z.to_nat h.
Proof.
  intros [H0 H1]. apply rank_replicate_true. unfold Np.len in H1. lia.
Qed.

End AllMarked.

Section Uniform.
Variables (NE NV : Z) (V : list point) (H : list HEdge).
Hypothesis Hwf : well_formed NV H.
Hypothesis Hinv : invariants H.
Hypothesis HV : NV = Np.len V.
Hypothesis HE : NE = Np.len H.

Let A : list bool := replicate (length H) true.
Let c : nat := Np.count_true (isMain H).

Lemma flag0_all_true : zip_with andb (isMain H) A = isMain H.
Proof.
  subst A. rewrite <- (length_isMain H). apply zip_with_andb_true_r.
Qed.

Lemma select_all_true_table {B} (a : list B) : length a = length H -> Np.select A a = a.
Proof. intros E. subst A. rewrite <- E. apply select_all_true. Qed.

Lemma half_are_main : length H = (2 * c)%nat.
Proof.
  pose proof (count_marked NV H A Hwf Hinv (all_true_symmetric NV H Hwf)) as E.
  change ((fun r => primary r =? 1) <$> H) with (isMain H) in E.
  rewrite flag0_all_true in E. subst A. rewrite count_true_replicate_true in E. exact E.
Qed.

Lemma new_rows_all_true :
  new_rows NV H A c
  = zip_with set_primary
      (zip_with set_twin
         (zip_with set_prev
            (zip_with set_region
               (new_targets NV (isMain H) (twin <$> Np.select (isMain H) H) c)
               (region <$> H))
            (prev <$> H))
         (twin <$> H))
      (primary <$> H).
Proof.
  unfold new_rows. cbv zeta. rewrite flag0_all_true.
  rewrite !select_all_true_table by (rewrite ?length_isMain; reflexivity). reflexivity.
Qed.

Lemma prev_set_all_true :
  prev_set NE H A c = zip_with set_prev H (Np.range NE (2 * NE)).
Proof.
  pose proof half_are_main as Hn.
  unfold prev_set. subst A.
  replace (NE + 2 * Z.of_nat c) with (2 * NE) by (unfold Np.len in HE; lia).
  apply scatter_all_true. unfold Np.range. rewrite length_seqZ. unfold Np.len in HE. lia.
Qed.

Lemma rewired_all_true :
  rewired NE H A c
  = zip_with set_twin (zip_with set_prev H (Np.range NE (2 * NE)))
      (prev <$> ((fun i => zip_with set_prev H (Np.range NE (2 * NE)) !!! Z.to_nat i) <$>
                   (twin <$> zip_with set_prev H (Np.range NE (2 * NE))))).
Proof.
  unfold rewired. cbv zeta. rewrite prev_set_all_true.
  assert (length (zip_with set_prev H (Np.range NE (2 * NE))) = length H) as EL.
  { rewrite length_zip_with. unfold Np.range. rewrite length_seqZ.
    unfold Np.len in HE. lia. }
  rewrite select_all_true_table by exact EL.
  subst A. rewrite <- EL at 1. apply scatter_all_true.
  rewrite !length_fmap. reflexivity.
Qed.

(** [boundary_uniform_refine]'s pass on a table that is in order: its
    arrays are those of the adaptive pass with every half-edge marked. *)
Lemma uniform_pass_ok :
  uniform_pass NE NV V H
  = ok (mkPass [] (rewired NE H A c) (centres V H (isMain H))
          (linked (rewired NE H A c ++ new_rows NV H A c))).
Proof.
  pose proof half_are_main as Hn.
  pose proof (all_true_symmetric NV H Hwf) as Hsym. fold A in Hsym.
  assert (Np.count_true (zip_with andb (isMain H) A) = c) as Hc0
    by (rewrite flag0_all_true; reflexivity).
  assert (length (rewired NE H A c) = length H) as LR
    by (rewrite <- Hc0; apply length_rewired).
  unfold uniform_pass. cbv zeta. fold (isMain H).
  rewrite (take_ok V (target <$> Np.select (isMain H) H))
    by (apply (targets_in_range NV V H Hwf HV); intros r; apply elem_of_select).
  step.
  rewrite (take_ok H)
    by (apply (twins_in_range NV H Hwf); intros r; apply elem_of_select).
  step.
  rewrite (take_ok V).
  2:{ apply (targets_in_range NV V H Hwf HV). intros r.
      apply rows_of_lookups. apply (twins_in_range NV H Hwf).
      intros r'. apply elem_of_select. }
  step. fold (centres V H (isMain H)).
  replace NE with (Z.of_nat (2 * c)) at 1 by (unfold Np.len in HE; lia).
  rewrite zeros_ok. step.
  replace (NE / 2) with (Z.of_nat c).
  2:{ rewrite HE. unfold Np.len. rewrite Hn, Nat2Z.inj_mul, Z.mul_comm, Z.div_mul by lia.
      reflexivity. }
  rewrite (mask_set_ok set_target (isMain H) (replicate (2 * c) zero_row)).
  2:{ rewrite length_replicate, length_isMain. exact Hn. }
  2:{ rewrite length_range_nat. reflexivity. }
  step.
  assert (length (Np.scatter set_target (isMain H) (replicate (2 * c) zero_row)
                    (Np.range NV (NV + Z.of_nat c))) = length (isMain H)) as Lh0
    by (rewrite length_scatter, length_replicate, length_isMain; lia).
  rewrite (mask_ok (isMain H)) by (rewrite length_fmap; symmetry; exact Lh0).
  step.
  rewrite (take_ok _ (Np.argsort _)).
  2:{ eapply Forall_impl; [apply argsort_range|]. intros i Hi. simpl in Hi.
      unfold Np.len in *. rewrite length_fmap in Hi.
      rewrite length_select in Hi by (rewrite length_isMain; reflexivity).
      rewrite length_select by (rewrite length_fmap; symmetry; exact Lh0). exact Hi. }
  step.
  rewrite (mask_set_ok set_target (negb <$> _)).
  2:{ rewrite length_fmap. symmetry. exact Lh0. }
  2:{ rewrite length_fmap, length_argsort, length_fmap.
      rewrite length_select by (rewrite length_isMain; reflexivity).
      pose proof (count_true_negb (isMain H)) as E. rewrite length_isMain in E.
      fold c in E |- *. lia. }
  step.
  fold (new_targets NV (isMain H) (twin <$> Np.select (isMain H) H) c).
  assert (length (new_targets NV (isMain H) (twin <$> Np.select (isMain H) H) c) = length H) as Lnt.
  { unfold new_targets. rewrite length_scatter. rewrite Lh0. apply length_isMain. }
  rewrite (col_set_ok set_region) by (rewrite length_fmap, Lnt; reflexivity).
  step.
  rewrite (col_set_ok set_prev (zip_with set_region _ _))
    by (rewrite !length_zip_with, !length_fmap, Lnt; lia).
  step.
  rewrite (col_set_ok set_twin (zip_with set_prev _ _))
    by (rewrite !length_zip_with, !length_fmap, Lnt; lia).
  step.
  rewrite (col_set_ok set_primary) by (rewrite !length_zip_with, !length_fmap, Lnt; lia).
  step.
  rewrite <- new_rows_all_true.
  rewrite (col_set_ok set_prev H)
    by (unfold Np.range; rewrite length_seqZ; unfold Np.len in HE; lia).
  step.
  rewrite <- prev_set_all_true.
  rewrite (take_ok (prev_set NE H A c)).
  2:{ pose proof (twins_prev_set_in_range NE NV H A Hwf) as Hr.
      rewrite select_all_true_table in Hr
        by (apply (length_prev_set NE H A)).
      rewrite Hc0 in Hr. exact Hr. }
  step.
  rewrite (col_set_ok set_twin) by (rewrite !length_fmap; reflexivity).
  step.
  rewrite prev_set_all_true. rewrite <- rewired_all_true.
  rewrite put_ok.
  2:{ rewrite length_fmap, length_app, LR, new_rows_all_true.
      rewrite !length_zip_with, !length_fmap, Lnt.
      unfold Np.range. rewrite length_seqZ. unfold Np.len in HE. lia. }
  2:{ apply Forall_fmap, Forall_forall. intros r Hr. simpl.
      pose proof (prev_in_range NE NV H A Hwf Hinv HE Hsym) as Hp. rewrite Hc0 in Hp.
      apply Hp in Hr. unfold Np.len.
      rewrite length_app, LR, new_rows_all_true.
      rewrite !length_zip_with, !length_fmap, Lnt.
      unfold Np.len in HE. lia. }
  step. unfold linked.
  replace (Np.len (rewired NE H A c ++ new_rows NV H A c)) with (2 * NE).
  2:{ unfold Np.len. rewrite length_app, LR, new_rows_all_true.
      rewrite !length_zip_with, !length_fmap, Lnt. unfold Np.len in HE. lia. }
  reflexivity.
Qed.

End Uniform.

(** *** The rows after one uniform level *)

Lemma centres_lookup (V : list point) (H : list HEdge) (flag : list bool)
    (k : nat) (m : HEdge) :
  Np.select flag H !! k = Some m ->
  centres V H flag !! k
  = Some (midpoint (V !!! Z.to_nat (target m))
            (V !!! Z.to_nat (target (row H (twin m))))).
Proof.
  intros Hk. unfold centres. rewrite lookup_zip_with, !list_lookup_fmap, Hk. reflexivity.
Qed.

Section UniformRows.
Variables (NE NV : Z) (V : list point) (H : list HEdge).
Hypothesis Htab : valid_table NV H.
Hypothesis HV : NV = Np.len V.
Hypothesis HE : NE = Np.len H.

Let A : list bool := replicate (length H) true.
Let c : nat := Np.count_true (isMain H).
Let R : list HEdge := linked (rewired NE H A c ++ new_rows NV H A c).

Lemma new_index_all_true (h : Z) : is_halfedge H h -> new_index NE A h = NE + h.
Proof.
  intros Hh. unfold new_index, A. rewrite (rank_all_true H h Hh).
  destruct Hh. lia.
Qed.

(** An old half-edge keeps its target, sub-domain and mark and is rewired to
    the new rows. *)
Lemma uniform_row_old (h : Z) :
  is_halfedge H h ->
  row R h
  = mkHEdge (target (row H h)) (region (row H h)) (NE + next (row H h)) (NE + h)
      (NE + twin (row H h)) (primary (row H h)).
Proof.
  intros Hh. destruct Htab as [Hwf Hinv].
  pose proof (all_true_symmetric NV H Hwf) as Hsym.
  pose proof (row_refined_old NE NV H A Hwf Hinv HE Hsym h Hh) as E.
  unfold A in E. rewrite (flag0_all_true H) in E. fold A c R in E. rewrite E.
  destruct (Hwf h Hh) as (_ & Hn & _ & Hw).
  rewrite !(at_all_true H) by assumption.
  rewrite !new_index_all_true by assumption. reflexivity.
Qed.

(** The vertex made for the edge of [h]: the edges get the vertices from
    [NV] on in the order of their main half-edges. *)
Lemma new_vertex_all_true (h : Z) :
  new_vertex NV H A h = NV + Z.of_nat (Np.rank (isMain H) (Z.to_nat (edge_main H h))).
Proof. unfold new_vertex, A. rewrite (flag0_all_true H). reflexivity. Qed.

Lemma uniform_new_vertex_range (h : Z) :
  is_halfedge H h -> NV <= new_vertex NV H A h < NV + Z.of_nat c.
Proof.
  intros Hh. destruct Htab as [Hwf Hinv].
  pose proof (new_vertex_range NV H A Hwf Hinv (all_true_symmetric NV H Hwf) h Hh
                (at_all_true H h Hh)) as R0.
  unfold A in R0. rewrite (flag0_all_true H) in R0. exact R0.
Qed.

(** The new row [NE + h] takes over the sub-domain, the previous half-edge,
    the opposite half-edge and the mark of [h], is followed by [h], and
    points to the vertex made for the edge of [h]. *)
Lemma uniform_row_new (h : Z) :
  is_halfedge H h ->
  row R (NE + h)
  = mkHEdge (new_vertex NV H A h) (region (row H h)) h (prev (row H h))
      (twin (row H h)) (primary (row H h)).
Proof.
  intros Hh. destruct Htab as [Hwf Hinv].
  pose proof (all_true_symmetric NV H Hwf) as Hsym.
  pose proof (row_refined_new NE NV H A Hwf Hinv HE Hsym h Hh (at_all_true H h Hh)) as E.
  unfold A in E. rewrite (flag0_all_true H) in E. fold A c R in E.
  rewrite new_index_all_true in E by exact Hh. exact E.
Qed.

(** The vertex made for the edge of [h] is the centre of that edge. *)
Lemma uniform_new_vertex_lookup (h : Z) :
  is_halfedge H h ->
  (V ++ centres V H (isMain H)) !! Z.to_nat (new_vertex NV H A h)
  = Some (midpoint (V !!! Z.to_nat (target (row H (edge_main H h))))
            (V !!! Z.to_nat (target (row H (twin (row H (edge_main H h))))))).
Proof.
  intros Hh. destruct Htab as [Hwf Hinv].
  destruct (edge_main_flagged NV H A Hwf Hinv (all_true_symmetric NV H Hwf) h Hh
              (at_all_true H h Hh)) as [Hm Hf].
  unfold A in Hf. rewrite (flag0_all_true H) in Hf.
  rewrite new_vertex_all_true.
  rewrite lookup_app_r by (unfold Np.len in HV; lia).
  replace (Z.to_nat (NV + Z.of_nat (Np.rank (isMain H) (Z.to_nat (edge_main H h))))
           - length V)%nat
    with (Np.rank (isMain H) (Z.to_nat (edge_main H h))) by (unfold Np.len in HV; lia).
  rewrite (centres_lookup V H (isMain H) _ (row H (edge_main H h))); [reflexivity|].
  apply select_lookup_rank; [exact Hf|]. apply lookup_row. exact Hm.
Qed.

End UniformRows.

End TableFacts.


(** ** The methods on the store *)

Module DomainFacts.
Import HalfEdgeDomain NpFacts TableFacts.

Lemma alloc_lookup {A} (m : gmap loc A) (a : A) :
  (alloc m a).2 !! (alloc m a).1 = Some a.
Proof. unfold alloc. cbn. apply lookup_insert_eq. Qed.

Lemma alloc_fresh {A} (m : gmap loc A) (a : A) : m !! (alloc m a).1 = None.
Proof. unfold alloc. cbn. apply not_elem_of_dom. apply is_fresh. Qed.

Lemma alloc_other {A} (m : gmap loc A) (a : A) (l : loc) (x : A) :
  m !! l = Some x -> (alloc m a).2 !! l = Some x.
Proof.
  intros Hl. unfold alloc. cbn. rewrite lookup_insert_ne; [exact Hl|].
  intros E. pose proof (alloc_fresh m a) as Hf. unfold alloc in Hf. cbn in Hf.
  rewrite E in Hf. congruence.
Qed.

Lemma read_ok {A} (m : gmap loc A) (l : loc) (a : A) : m !! l = Some a -> read m l = ok a.
Proof. intros E. unfold read. rewrite E. reflexivity. Qed.

(** *** One pass in place *)

(** The state a pass in place leaves: new arrays for the vertices, the table
    and the fixed flags, and the counts moved. *)
Lemma adaptive_in_place (σ : heap) (self : t) (ml : loc) (vertices_ halfedge_ : option loc)
    (V : list point) (H : list HEdge) (F M0 : list bool) (p : pass) :
  supplied vertices_ halfedge_ = false ->
  holds σ self V H F ->
  bools σ !! ml = Some M0 ->
  adaptive_pass (NE self) (NV self) V H M0 None = ok p ->
  exists self' σ',
    boundary_adaptive_refine self ml vertices_ halfedge_ None σ = ok (None, self', σ') /\
    holds σ' self' (V ++ ec p) (refined p)
      ((if decide (fixed self = ml) then marked p else F)
         ++ replicate (length (ec p)) false) /\
    NV self' = NV self + 2 * Np.len (ec p) / 2 /\
    NE self' = NE self + 2 * Np.len (ec p).
Proof.
  intros Hs (HV & HH & HF) HM Hp. unfold boundary_adaptive_refine.
  rewrite Hs. cbn [negb].
  rewrite (read_ok _ _ _ HV), bind_ok.
  rewrite (read_ok _ _ _ HH), bind_ok.
  rewrite (read_ok _ _ _ HM), bind_ok. rewrite bind_ok.
  rewrite Hp, bind_ok.
  set (σ1 := write_table (write_bools σ ml (marked p)) (halfedge self) (written p)).
  unfold alloc_floats at 1.
  destruct (alloc (floats σ1) (ec p)) as [ecloc m1] eqn:E1.
  unfold alloc_table at 1. cbn [floats tables bools].
  destruct (alloc (tables σ1) (refined p)) as [hnew m2] eqn:E2.
  unfold alloc_floats at 1. cbn [floats tables bools].
  destruct (alloc m1 (V ++ ec p)) as [vnew m3] eqn:E3.
  cbn [floats tables bools].
  assert (bools σ1 !! fixed self
          = Some (if decide (fixed self = ml) then marked p else F)) as HF1.
  { subst σ1. cbn. destruct (decide (fixed self = ml)) as [->|Hne].
    - apply lookup_insert_eq.
    - rewrite lookup_insert_ne by congruence. exact HF. }
  rewrite (read_ok _ _ _ HF1), bind_ok.
  unfold alloc_bools at 1. cbn [floats tables bools].
  destruct (alloc (bools σ1) _) as [fnew m4] eqn:E4.
  eexists. eexists. split; [reflexivity|].
  split; [|split; reflexivity].
  unfold holds. cbn.
  pose proof (alloc_lookup m1 (V ++ ec p)) as L3. rewrite E3 in L3.
  pose proof (alloc_lookup (tables σ1) (refined p)) as L2. rewrite E2 in L2.
  pose proof (alloc_lookup (bools σ1)
                ((if decide (fixed self = ml) then marked p else F)
                   ++ replicate (length (ec p)) false)) as L4.
  rewrite E4 in L4.
  repeat split; assumption.
Qed.

Lemma uniform_in_place (σ : heap) (self : t) (vl hl : loc)
    (V : list point) (H : list HEdge) (F : list bool) (p : pass) :
  holds σ self V H F ->
  uniform_pass (NE self) (NV self) V H = ok p ->
  exists self' σ',
    (forall k, uniform_loop (S k) true self vl hl σ
               = uniform_loop k true self' (vertices self') (halfedge self') σ') /\
    holds σ' self' (V ++ ec p) (refined p) (F ++ replicate (length (ec p)) false) /\
    NV self' = NV self + NE self / 2 /\
    NE self' = NE self * 2.
Proof.
  intros (HV & HH & HF) Hp.
  set (σ1 := write_table σ (halfedge self) (written p)).
  destruct (alloc (floats σ1) (V ++ ec p)) as [vnew m1] eqn:E1.
  destruct (alloc (tables σ1) (refined p)) as [hnew m2] eqn:E2.
  assert (bools σ1 !! fixed self = Some F) as HF1 by exact HF.
  destruct (alloc (bools σ1) (F ++ replicate (length (ec p)) false)) as [fnew m4] eqn:E4.
  exists (mk vnew hnew (GD self) (NS self) (NV self + NE self / 2) (NE self * 2) fnew),
    (mkHeap m1 m2 m4).
  split.
  { intros k. cbn [uniform_loop].
    rewrite (read_ok _ _ _ HV), bind_ok.
    rewrite (read_ok _ _ _ HH), bind_ok.
    rewrite Hp, bind_ok. fold σ1.
    unfold alloc_floats at 1. rewrite E1.
    unfold alloc_table at 1. cbn [floats tables bools]. rewrite E2.
    cbn [floats tables bools].
    rewrite (read_ok _ _ _ HF1), bind_ok.
    unfold alloc_bools at 1. cbn [floats tables bools]. rewrite E4. reflexivity. }
  split; [|split; reflexivity].
  unfold holds. cbn.
  pose proof (alloc_lookup (floats σ1) (V ++ ec p)) as L1. rewrite E1 in L1.
  pose proof (alloc_lookup (tables σ1) (refined p)) as L2. rewrite E2 in L2.
  pose proof (alloc_lookup (bools σ1) (F ++ replicate (length (ec p)) false)) as L4.
  rewrite E4 in L4.
  repeat split; assumption.
Qed.

(** A pass in place with the centres passed in: no array is made for them. *)
Lemma adaptive_in_place_centres (σ : heap) (self : t) (ml el : loc)
    (V E : list point) (H : list HEdge) (F M0 : list bool) (p : pass) :
  holds σ self V H F ->
  bools σ !! ml = Some M0 ->
  floats σ !! el = Some E ->
  adaptive_pass (NE self) (NV self) V H M0 (Some E) = ok p ->
  exists self' σ',
    boundary_adaptive_refine self ml None None (Some el) σ = ok (None, self', σ') /\
    holds σ' self' (V ++ ec p) (refined p)
      ((if decide (fixed self = ml) then marked p else F)
         ++ replicate (length (ec p)) false) /\
    floats σ' !! el = Some E /\
    NV self' = NV self + 2 * Np.len (ec p) / 2 /\
    NE self' = NE self + 2 * Np.len (ec p).
Proof.
  intros (HV & HH & HF) HM HE Hp. unfold boundary_adaptive_refine.
  cbn [supplied bool_decide negb andb decide_rel default].
  change (negb (supplied None None)) with true. cbv iota.
  rewrite (read_ok _ _ _ HV), bind_ok.
  rewrite (read_ok _ _ _ HH), bind_ok.
  rewrite (read_ok _ _ _ HM), bind_ok.
  rewrite (read_ok _ _ _ HE), !bind_ok.
  rewrite Hp, bind_ok.
  set (σ1 := write_table (write_bools σ ml (marked p)) (halfedge self) (written p)).
  unfold alloc_table at 1. cbn [floats tables bools].
  destruct (alloc (tables σ1) (refined p)) as [hnew m2] eqn:E2.
  unfold alloc_floats at 1. cbn [floats tables bools].
  destruct (alloc (floats σ1) (V ++ ec p)) as [vnew m3] eqn:E3.
  cbn [floats tables bools].
  assert (bools σ1 !! fixed self
          = Some (if decide (fixed self = ml) then marked p else F)) as HF1.
  { subst σ1. cbn. destruct (decide (fixed self = ml)) as [->|Hne].
    - apply lookup_insert_eq.
    - rewrite lookup_insert_ne by congruence. exact HF. }
  rewrite (read_ok _ _ _ HF1), bind_ok.
  unfold alloc_bools at 1. cbn [floats tables bools].
  destruct (alloc (bools σ1) _) as [fnew m4] eqn:E4.
  eexists. eexists. split; [reflexivity|].
  pose proof (alloc_lookup (floats σ1) (V ++ ec p)) as L3. rewrite E3 in L3.
  pose proof (alloc_lookup (tables σ1) (refined p)) as L2. rewrite E2 in L2.
  pose proof (alloc_lookup (bools σ1)
                ((if decide (fixed self = ml) then marked p else F)
                   ++ replicate (length (ec p)) false)) as L4.
  rewrite E4 in L4.
  pose proof (alloc_other (floats σ1) (V ++ ec p) el E HE) as O. rewrite E3 in O.
  split; [|split; [exact O|split; reflexivity]].
  unfold holds. cbn. repeat split; assumption.
Qed.

(** *** The methods on arrays passed in *)

(** With both arrays passed in, the loop of [boundary_uniform_refine] returns
    in its first pass, whatever the number of levels.  The pass writes to the
    table passed in; the arrays returned are new. *)
Lemma uniform_functional (σ : heap) (self : t) (vl hl : loc)
    (V : list point) (H : list HEdge) (p : pass) (k : nat) :
  floats σ !! vl = Some V ->
  tables σ !! hl = Some H ->
  uniform_pass (Np.len H) (Np.len V) V H = ok p ->
  exists vnew hnew,
    floats σ !! vnew = None /\
    tables σ !! hnew = None /\ hnew <> hl /\
    uniform_loop (S k) false self vl hl σ
    = ok (Some (vnew, hnew), self,
          mkHeap (<[vnew := V ++ ec p]> (floats σ))
            (<[hnew := refined p]> (<[hl := written p]> (tables σ)))
            (bools σ)).
Proof.
  intros HV HH Hp.
  exists (alloc (floats σ) (V ++ ec p)).1,
    (alloc (<[hl := written p]> (tables σ)) (refined p)).1.
  split; [apply alloc_fresh|].
  pose proof (alloc_fresh (<[hl := written p]> (tables σ)) (refined p)) as Hf.
  assert ((alloc (<[hl := written p]> (tables σ)) (refined p)).1 <> hl) as Hne.
  { intros E. rewrite E, lookup_insert_eq in Hf. discriminate. }
  split; [rewrite lookup_insert_ne in Hf by congruence; exact Hf|].
  split; [exact Hne|].
  cbn [uniform_loop].
  rewrite (read_ok _ _ _ HV), bind_ok.
  rewrite (read_ok _ _ _ HH), bind_ok.
  rewrite Hp, bind_ok. reflexivity.
Qed.

(** With both arrays passed in, [boundary_adaptive_refine] writes to the mask
    and to the table passed in, and returns the centres and the refined table
    as new arrays. *)
Lemma adaptive_functional (σ : heap) (self : t) (ml vl hl : loc)
    (V : list point) (H : list HEdge) (M0 : list bool) (p : pass) :
  floats σ !! vl = Some V ->
  tables σ !! hl = Some H ->
  bools σ !! ml = Some M0 ->
  adaptive_pass (Np.len H) (Np.len V) V H M0 None = ok p ->
  exists ecloc hnew,
    floats σ !! ecloc = None /\
    tables σ !! hnew = None /\ hnew <> hl /\
    boundary_adaptive_refine self ml (Some vl) (Some hl) None σ
    = ok (Some (ecloc, hnew), self,
          mkHeap (<[ecloc := ec p]> (floats σ))
            (<[hnew := refined p]> (<[hl := written p]> (tables σ)))
            (<[ml := marked p]> (bools σ))).
Proof.
  intros HV HH HM Hp.
  exists (alloc (floats σ) (ec p)).1,
    (alloc (<[hl := written p]> (tables σ)) (refined p)).1.
  split; [apply alloc_fresh|].
  pose proof (alloc_fresh (<[hl := written p]> (tables σ)) (refined p)) as Hf.
  assert ((alloc (<[hl := written p]> (tables σ)) (refined p)).1 <> hl) as Hne.
  { intros E. rewrite E, lookup_insert_eq in Hf. discriminate. }
  split; [rewrite lookup_insert_ne in Hf by congruence; exact Hf|].
  split; [exact Hne|].
  unfold boundary_adaptive_refine.
  change (supplied (Some vl) (Some hl)) with true. cbn [negb default id].
  rewrite (read_ok _ _ _ HV), bind_ok.
  rewrite (read_ok _ _ _ HH), bind_ok.
  rewrite (read_ok _ _ _ HM), bind_ok. rewrite bind_ok.
  rewrite Hp, bind_ok. reflexivity.
Qed.

(** The table a call on arrays passed in returns is in order for the
    vertices it stands for. *)
Lemma uniform_functional_valid (σ : heap) (self : t) (vl hl : loc)
    (V : list point) (H : list HEdge) (k : nat) :
  floats σ !! vl = Some V -> tables σ !! hl = Some H -> valid_table (Np.len V) H ->
  exists vnew hnew σ' V' H',
    uniform_loop (S k) false self vl hl σ = ok (Some (vnew, hnew), self, σ') /\
    floats σ' !! vnew = Some V' /\
    tables σ' !! hnew = Some H' /\
    valid_table (Np.len V') H'.
Proof.
  intros HV HH [Hwf Hinv].
  pose proof (uniform_pass_ok (Np.len H) (Np.len V) V H Hwf Hinv eq_refl eq_refl) as Hp.
  destruct (uniform_functional σ self vl hl V H _ k HV HH Hp)
    as (vnew & hnew & _ & _ & _ & Hcall).
  cbn [ec refined written] in Hcall.
  eexists vnew, hnew, _, _, _. split; [exact Hcall|]. cbn [floats tables].
  split; [apply lookup_insert_eq|]. split; [apply lookup_insert_eq|].
  pose proof (all_true_symmetric _ H Hwf) as Hsym.
  pose proof (refined_valid (Np.len H) (Np.len V) V H _ Hwf Hinv eq_refl eq_refl Hsym) as R.
  pose proof (length_centres V H _ Hsym) as Lc.
  rewrite (flag0_all_true H) in R, Lc.
  unfold Np.len at 1. rewrite length_app, Lc, Nat2Z.inj_add. exact R.
Qed.

Lemma adaptive_functional_valid (σ : heap) (self : t) (ml vl hl : loc)
    (V : list point) (H : list HEdge) (M0 : list bool) :
  floats σ !! vl = Some V -> tables σ !! hl = Some H -> valid_table (Np.len V) H ->
  bools σ !! ml = Some M0 -> length M0 = length H ->
  exists ecloc hnew σ' E H',
    boundary_adaptive_refine self ml (Some vl) (Some hl) None σ
    = ok (Some (ecloc, hnew), self, σ') /\
    floats σ' !! ecloc = Some E /\
    tables σ' !! hnew = Some H' /\
    valid_table (Np.len V + Np.len E) H'.
Proof.
  intros HV HH [Hwf Hinv] HM HL.
  pose proof (adaptive_pass_ok (Np.len H) (Np.len V) V H M0 None (conj Hwf Hinv)
                eq_refl eq_refl HL ltac:(intros e He; discriminate)) as Hp.
  destruct (adaptive_functional σ self ml vl hl V H M0 _ HV HH HM Hp)
    as (ecloc & hnew & _ & _ & _ & Hcall).
  cbn [ec refined written marked adaptive_closed default] in Hcall.
  eexists ecloc, hnew, _, _, _. split; [exact Hcall|]. cbn [floats tables].
  split; [apply lookup_insert_eq|]. split; [apply lookup_insert_eq|].
  pose proof (symmetrised_symmetric _ H M0 Hwf Hinv HL) as Hsym.
  pose proof (refined_valid (Np.len H) (Np.len V) V H _ Hwf Hinv eq_refl eq_refl Hsym) as R.
  unfold Np.len at 2. rewrite (length_centres V H _ Hsym). exact R.
Qed.

(** *** One level of uniform refinement in place *)

Section Level.
Variables (σ : heap) (self : t) (V : list point) (H : list HEdge) (F : list bool).
Hypothesis Hholds : holds σ self V H F.
Hypothesis HNV : NV self = Np.len V.
Hypothesis HNE : NE self = Np.len H.
Hypothesis HF : Np.len F = Np.len V.
Hypothesis Htab : valid_table (NV self) H.

Let A : list bool := replicate (length H) true.
Let c : nat := Np.count_true (isMain H).

Lemma count_all_marked : Np.count_true (zip_with andb (isMain H) A) = c.
Proof.
  unfold A. rewrite (flag0_all_true H). reflexivity.
Qed.

Lemma halfedges_even : NE self = 2 * Z.of_nat c.
Proof.
  destruct Htab as [Hwf Hinv].
  pose proof (half_are_main (NV self) H Hwf Hinv) as E.
  rewrite HNE. unfold Np.len. fold c in E. lia.
Qed.

Lemma refined_uniform_valid : valid_table (NV self + Z.of_nat c) (refined_uniform self H).
Proof.
  destruct Htab as [Hwf Hinv].
  pose proof (refined_valid (NE self) (NV self) V H A Hwf Hinv HNV HNE
                (all_true_symmetric (NV self) H Hwf)) as R.
  rewrite count_all_marked in R. exact R.
Qed.

Lemma length_refined_uniform : Np.len (refined_uniform self H) = 2 * NE self.
Proof.
  destruct Htab as [Hwf Hinv].
  pose proof (length_refined (NE self) (NV self) H A Hwf Hinv HNE
                (all_true_symmetric (NV self) H Hwf)) as R.
  rewrite count_all_marked in R. change (refined_uniform self H)
    with (linked (rewired (NE self) H A c ++ new_rows (NV self) H A c)). rewrite R.
  pose proof halfedges_even. lia.
Qed.

Lemma length_centres_uniform : length (centres V H (isMain H)) = c.
Proof.
  destruct Htab as [Hwf Hinv].
  pose proof (length_centres V H A (all_true_symmetric (NV self) H Hwf)) as R.
  unfold A in R. rewrite (flag0_all_true H) in R. exact R.
Qed.

Lemma uniform_level (vl hl : loc) :
  exists self' σ',
    (forall k, uniform_loop (S k) true self vl hl σ
               = uniform_loop k true self' (vertices self') (halfedge self') σ') /\
    holds σ' self' (V ++ centres V H (isMain H)) (refined_uniform self H)
      (F ++ replicate c false) /\
    NV self' = NV self + Z.of_nat c /\
    NE self' = 2 * NE self /\
    valid σ' self'.
Proof.
  destruct Htab as [Hwf Hinv].
  pose proof (uniform_pass_ok (NE self) (NV self) V H Hwf Hinv HNV HNE) as Hp.
  fold A c in Hp.
  destruct (uniform_in_place σ self vl hl V H F _ Hholds Hp)
    as (self' & σ' & Hloop & Hh & Hv & He).
  cbn [ec refined] in Hh. rewrite length_centres_uniform in Hh.
  pose proof halfedges_even as Hev.
  assert (NV self' = NV self + Z.of_nat c) as Hv'.
  { rewrite Hv, Hev, Z.mul_comm, Z.div_mul by lia. reflexivity. }
  exists self', σ'. split; [exact Hloop|]. split; [exact Hh|].
  split; [exact Hv'|]. split; [lia|].
  exists (V ++ centres V H (isMain H)), (refined_uniform self H), (F ++ replicate c false).
  split; [exact Hh|]. unfold Np.len in *.
  rewrite !length_app, length_centres_uniform, length_replicate.
  pose proof length_refined_uniform as LR. unfold Np.len in LR.
  split; [lia|]. split; [lia|]. split; [lia|].
  rewrite Hv'. apply refined_uniform_valid.
Qed.

End Level.

(** *** One adaptive pass in place *)

Section AdaptiveLevel.
Variables (σ : heap) (self : t) (V : list point) (H : list HEdge) (F M0 : list bool)
  (ml : loc).
Hypothesis Hholds : holds σ self V H F.
Hypothesis HNV : NV self = Np.len V.
Hypothesis HNE : NE self = Np.len H.
Hypothesis HF : Np.len F = Np.len V.
Hypothesis Htab : valid_table (NV self) H.
Hypothesis Hmarks : bools σ !! ml = Some M0.
Hypothesis HM0 : length M0 = length H.

Let M : list bool := symmetrised H M0.
Let flag0 : list bool := zip_with andb (isMain H) M.
Let c : nat := Np.count_true flag0.

Lemma adaptive_level (vertices_ halfedge_ : option loc) :
  supplied vertices_ halfedge_ = false ->
  exists self' σ',
    boundary_adaptive_refine self ml vertices_ halfedge_ None σ = ok (None, self', σ') /\
    holds σ' self' (V ++ centres V H flag0) (refined_adaptive self H M0)
      ((if decide (fixed self = ml) then M else F) ++ replicate c false) /\
    NV self' = NV self + Z.of_nat c /\
    NE self' = NE self + 2 * Z.of_nat c /\
    valid σ' self'.
Proof.
  intros Hs. pose proof Htab as [Hwf Hinv].
  assert (adaptive_pass (NE self) (NV self) V H M0 None
          = ok (adaptive_closed (NE self) (NV self) H M (centres V H flag0))) as Hp.
  { apply (adaptive_pass_ok (NE self) (NV self) V H M0 None Htab HNV HNE HM0).
    intros e He. discriminate. }
  pose proof (symmetrised_symmetric (NV self) H M0 Hwf Hinv HM0) as Hsym. fold M in Hsym.
  destruct (adaptive_in_place σ self ml vertices_ halfedge_ V H F M0 _ Hs Hholds Hmarks Hp)
    as (self' & σ' & Hcall & Hh & Hv & He).
  unfold adaptive_closed in Hh, Hv, He. cbn [ec refined marked] in Hh, Hv, He.
  fold flag0 c in Hh.
  pose proof (length_centres V H M Hsym) as Lc. fold flag0 c in Lc.
  rewrite Lc in Hh. unfold Np.len in Hv, He. rewrite Lc in Hv, He.
  assert (NV self' = NV self + Z.of_nat c) as Hv'.
  { rewrite Hv, Z.mul_comm, Z.div_mul by lia. reflexivity. }
  exists self', σ'. split; [exact Hcall|]. split; [exact Hh|].
  split; [exact Hv'|]. split; [exact He|].
  eexists _, _, _. split; [exact Hh|].
  pose proof (length_refined (NE self) (NV self) H M Hwf Hinv HNE Hsym) as LR.
  fold flag0 c in LR.
  pose proof (refined_valid (NE self) (NV self) V H M Hwf Hinv HNV HNE Hsym) as RV.
  fold flag0 c in RV.
  change (refined_adaptive self H M0)
    with (linked (rewired (NE self) H M c ++ new_rows (NV self) H M c)). unfold Np.len in *.
  rewrite !length_app, Lc, length_replicate.
  assert (length (if decide (fixed self = ml) then M else F) = length V) as LF.
  { destruct (decide (fixed self = ml)) as [E|E]; [|lia].
    destruct Hholds as (_ & _ & HFl). rewrite E, Hmarks in HFl. injection HFl as <-.
    destruct Hsym as [-> _]. lia. }
  rewrite LF. split; [lia|]. split; [lia|]. split; [lia|].
  rewrite Hv'. apply RV.
Qed.

End AdaptiveLevel.

(** *** The loop of uniform refinement in place *)

(** Every level doubles the half-edges and keeps the domain in order. *)
Lemma uniform_levels (k : nat) (σ : heap) (self : t) (vl hl : loc) :
  valid σ self ->
  exists self' σ',
    uniform_loop k true self vl hl σ = ok (None, self', σ') /\
    valid σ' self' /\
    NE self' = NE self * 2 ^ Z.of_nat k.
Proof.
  revert σ self vl hl. induction k as [|k IH]; intros σ self vl hl Hv.
  - exists self, σ. split; [reflexivity|]. split; [exact Hv|]. cbn. lia.
  - destruct Hv as (V & H & F & Hh & HNV & HNE & HF & Htab).
    destruct (uniform_level σ self V H F Hh HNV HNE HF Htab vl hl)
      as (self1 & σ1 & Hloop & _ & _ & HE1 & Hv1).
    destruct (IH σ1 self1 (vertices self1) (halfedge self1) Hv1)
      as (self' & σ' & Hk & Hv' & HE').
    exists self', σ'. split; [rewrite Hloop; exact Hk|]. split; [exact Hv'|].
    rewrite HE', HE1. rewrite Nat2Z.inj_succ, Z.pow_succ_r by lia. lia.
Qed.

(** Running one more level is running the levels and then one level. *)
Lemma uniform_loop_succ (k : nat) (σ : heap) (self : t) (vl hl : loc) :
  valid σ self ->
  exists self_k σ_k,
    uniform_loop k true self vl hl σ = ok (None, self_k, σ_k) /\
    uniform_loop (S k) true self vl hl σ
    = uniform_loop 1 true self_k (vertices self_k) (halfedge self_k) σ_k.
Proof.
  revert σ self vl hl. induction k as [|k IH]; intros σ self vl hl Hv.
  - exists self, σ. split; [reflexivity|].
    destruct Hv as (V & H & F & Hh & HNV & HNE & HF & Htab).
    destruct (uniform_level σ self V H F Hh HNV HNE HF Htab vl hl)
      as (self1 & σ1 & Hloop & _).
    destruct (uniform_level σ self V H F Hh HNV HNE HF Htab (vertices self) (halfedge self))
      as (self2 & σ2 & Hloop2 & _).
    rewrite Hloop, Hloop2. cbn [uniform_loop].
    pose proof (Hloop O) as E1. pose proof (Hloop2 O) as E2. cbn [uniform_loop] in E1, E2.
    cbn [uniform_loop] in *. congruence.
  - destruct Hv as (V & H & F & Hh & HNV & HNE & HF & Htab).
    destruct (uniform_level σ self V H F Hh HNV HNE HF Htab vl hl)
      as (self1 & σ1 & Hloop & _ & _ & _ & Hv1).
    destruct (IH σ1 self1 (vertices self1) (halfedge self1) Hv1)
      as (self_k & σ_k & Hk & Hsucc).
    exists self_k, σ_k. split.
    + rewrite Hloop. exact Hk.
    + rewrite Hloop. exact Hsucc.
Qed.

End DomainFacts.


(** ** Refinement of a half-edge domain *)

Module Refinement.
Import HalfEdgeDomain NpFacts TableFacts DomainFacts UnitSquare.

(** *** The unit square is in order *)

Lemma square_halfedges (h : Z) :
  is_halfedge square_halfedge h ->
  h = 0 \/ h = 1 \/ h = 2 \/ h = 3 \/ h = 4 \/ h = 5 \/ h = 6 \/ h = 7.
Proof. unfold is_halfedge, Np.len. cbn. lia. Qed.

Lemma square_table_valid : valid_table 4 square_halfedge.
Proof.
  split.
  - intros h Hh. apply square_halfedges in Hh.
    repeat (destruct Hh as [->|Hh]); try subst h; vm_compute;
      repeat split; first [reflexivity | intros; discriminate].
  - intros h Hh. apply square_halfedges in Hh.
    repeat (destruct Hh as [->|Hh]); try subst h; vm_compute;
      (repeat split; try reflexivity; try (intros; discriminate);
       try (intros E; exfalso; apply E; reflexivity)).
Qed.

Lemma square_valid : valid store square.
Proof.
  exists square_vertices, square_halfedge, [true; true; true; true].
  split; [repeat split; vm_compute; reflexivity|].
  split; [reflexivity|]. split; [reflexivity|]. split; [reflexivity|].
  exact square_table_valid.
Qed.

Lemma init_square : __init__ 0%nat 0%nat None None arrays = ok (square, store).
Proof. vm_compute. reflexivity. Qed.

Lemma square_holds :
  holds store square square_vertices square_halfedge (replicate 4 true).
Proof. repeat split; vm_compute; reflexivity. Qed.

Lemma with_centre_holds :
  holds with_centre square square_vertices square_halfedge (replicate 4 true).
Proof. repeat split; vm_compute; reflexivity. Qed.

Lemma with_centre_valid : valid with_centre square.
Proof.
  exists square_vertices, square_halfedge, (replicate 4 true).
  split; [exact with_centre_holds|].
  split; [reflexivity|]. split; [reflexivity|]. split; [reflexivity|].
  exact square_table_valid.
Qed.

(** *** C1 *)

(** C1.  A domain whose counts match its arrays and whose half-edge table
    satisfies the structural invariants (every pointer is a half-edge,
    [twin (twin h) = h], [next (prev h) = h], [prev (next h) = h], and exactly
    one of [h] and [twin h] is a main half-edge) is refined in place, by
    [boundary_uniform_refine] with any number of levels and by
    [boundary_adaptive_refine] with any marking of its half-edges, into a
    domain that satisfies the same again.  With both arrays passed in and a
    table that satisfies the invariants, the table the two methods return
    satisfies them as well. *)
Theorem refinement_preserves_invariants (σ : heap) (self : t) :
  (valid σ self ->
   (forall n : Z,
      exists self' σ',
        boundary_uniform_refine self n None None σ = ok (None, self', σ') /\
        valid σ' self') /\
   (forall (isMarkedHEdge : loc) (M : list bool),
      bools σ !! isMarkedHEdge = Some M -> Np.len M = NE self ->
      exists self' σ',
        boundary_adaptive_refine self isMarkedHEdge None None None σ
        = ok (None, self', σ') /\
        valid σ' self')) /\
  (forall (vl hl : loc) (V : list point) (H : list HEdge),
     floats σ !! vl = Some V -> tables σ !! hl = Some H -> valid_table (Np.len V) H ->
     (forall n : Z, 0 < n ->
        exists vnew hnew σ' V' H',
          boundary_uniform_refine self n (Some vl) (Some hl) σ
          = ok (Some (vnew, hnew), self, σ') /\
          floats σ' !! vnew = Some V' /\ tables σ' !! hnew = Some H' /\
          valid_table (Np.len V') H') /\
     (forall (isMarkedHEdge : loc) (M : list bool),
        bools σ !! isMarkedHEdge = Some M -> Np.len M = Np.len H ->
        exists ecloc hnew σ' E H',
          boundary_adaptive_refine self isMarkedHEdge (Some vl) (Some hl) None σ
          = ok (Some (ecloc, hnew), self, σ') /\
          floats σ' !! ecloc = Some E /\ tables σ' !! hnew = Some H' /\
          valid_table (Np.len V + Np.len E) H')).
Proof.
  split.
  - intros Hv. split.
    + intros n. unfold boundary_uniform_refine. cbn [supplied negb andb bool_decide].
      destruct (uniform_levels (Z.to_nat n) σ self (vertices self) (halfedge self) Hv)
        as (self' & σ' & Hloop & Hv' & _).
      exists self', σ'. split; [exact Hloop|exact Hv'].
    + intros ml M HM HL.
      destruct Hv as (V & H & F & Hh & HNV & HNE & HF & Htab).
      assert (length M = length H) as HL' by (unfold Np.len in *; lia).
      destruct (adaptive_level σ self V H F M ml Hh HNV HNE HF Htab HM HL' None None eq_refl)
        as (self' & σ' & Hcall & _ & _ & _ & Hv').
      exists self', σ'. split; [exact Hcall|exact Hv'].
  - intros vl hl V H HV HH Htab. split.
    + intros n Hn.
      change (boundary_uniform_refine self n (Some vl) (Some hl) σ)
        with (uniform_loop (Z.to_nat n) false self vl hl σ).
      replace (Z.to_nat n) with (S (Z.to_nat (n - 1))) by lia.
      apply (uniform_functional_valid σ self vl hl V H _ HV HH Htab).
    + intros ml M HM HL.
      apply (adaptive_functional_valid σ self ml vl hl V H M HV HH Htab HM).
      unfold Np.len in HL. lia.
Qed.

Lemma refinement_preserves_invariants_witness :
  valid store square /\
  (exists self' σ',
     boundary_uniform_refine square 3 None None store = ok (None, self', σ') /\
     valid σ' self') /\
  (exists self' σ',
     boundary_adaptive_refine square 0%nat None None None store = ok (None, self', σ') /\
     valid σ' self') /\
  (exists vnew hnew σ' V' H',
     boundary_uniform_refine square 2 (Some 1%nat) (Some 1%nat) copies
     = ok (Some (vnew, hnew), square, σ') /\
     floats σ' !! vnew = Some V' /\ tables σ' !! hnew = Some H' /\
     valid_table (Np.len V') H').
Proof.
  split; [exact square_valid|].
  destruct (refinement_preserves_invariants store square) as [HI _].
  destruct (HI square_valid) as [HU HA].
  split; [exact (HU 3)|].
  split; [apply (HA 0%nat square_marks); vm_compute; reflexivity|].
  destruct (refinement_preserves_invariants copies square) as [_ HF].
  destruct (HF 1%nat 1%nat square_vertices square_halfedge) as [HFU _].
  - vm_compute. reflexivity.
  - vm_compute. reflexivity.
  - exact square_table_valid.
  - apply (HFU 2). lia.
Defined.

(** *** C2 *)

Lemma uniform_refine_in_place (self : t) (n : Z) (σ : heap) :
  boundary_uniform_refine self n None None σ
  = uniform_loop (Z.to_nat n) true self (vertices self) (halfedge self) σ.
Proof. reflexivity. Qed.

(** The state after one level in place, from the state before it. *)
Lemma one_level (σ : heap) (self : t) (V : list point) (H : list HEdge) (F : list bool) :
  holds σ self V H F -> NV self = Np.len V -> NE self = Np.len H ->
  Np.len F = Np.len V -> valid_table (NV self) H ->
  exists self' σ',
    uniform_loop 1 true self (vertices self) (halfedge self) σ = ok (None, self', σ') /\
    holds σ' self' (V ++ centres V H (isMain H)) (refined_uniform self H)
      (F ++ replicate (Np.count_true (isMain H)) false) /\
    NV self' = NV self + Z.of_nat (Np.count_true (isMain H)) /\
    NE self = 2 * Z.of_nat (Np.count_true (isMain H)) /\
    Np.len (centres V H (isMain H)) = Z.of_nat (Np.count_true (isMain H)) /\
    NE self' = 2 * NE self /\
    valid σ' self'.
Proof.
  intros Hh HNV HNE HF Htab.
  destruct (uniform_level σ self V H F Hh HNV HNE HF Htab (vertices self) (halfedge self))
    as (self' & σ' & Hloop & Hh' & HV' & HE' & Hv').
  exists self', σ'. split; [rewrite Hloop; reflexivity|].
  split; [exact Hh'|]. split; [exact HV'|].
  split; [apply (halfedges_even self H HNE Htab)|].
  split; [|split; assumption].
  unfold Np.len. rewrite (length_centres_uniform self V H Htab). reflexivity.
Qed.

(** C2, as the code has it.  On a domain that is in order,
    [boundary_uniform_refine(n)] in place leaves [NE * 2^n] half-edges (in
    the count and in the table), and the level after these [n] adds one
    vertex for every two half-edges of that level: the new vertex of the
    [k]-th main half-edge [m] has the index [NV + k] and the coordinates
    [((a.x + b.x) / 2, (a.y + b.y) / 2)], computed in binary64, of the ends
    [a = vertices[m.target]] and [b = vertices[twin(m).target]] of the edge.
    On the unit square, one level gives 16 half-edges and the four new
    vertices [(0.5, 0)], [(1, 0.5)], [(0.5, 1)], [(0, 0.5)], the first one
    from the edge from [(0, 0)] to [(1, 0)]. *)
Theorem uniform_refine_counts_and_midpoints :
  (forall (σ : heap) (self : t) (n : Z),
     valid σ self -> 0 <= n ->
     exists self_n σ_n V_n H_n F_n,
       boundary_uniform_refine self n None None σ = ok (None, self_n, σ_n) /\
       holds σ_n self_n V_n H_n F_n /\
       NE self_n = NE self * 2 ^ n /\
       Np.len H_n = NE self * 2 ^ n /\
       exists self' σ' H' F',
         boundary_uniform_refine self (n + 1) None None σ = ok (None, self', σ') /\
         holds σ' self' (V_n ++ centres V_n H_n (isMain H_n)) H' F' /\
         Np.len (centres V_n H_n (isMain H_n)) = Np.len H_n / 2 /\
         NV self' = NV self_n + Np.len H_n / 2 /\
         forall (k : nat) (m : HEdge),
           Np.select (isMain H_n) H_n !! k = Some m ->
           let a := V_n !!! Z.to_nat (target m) in
           let b := V_n !!! Z.to_nat (target (row H_n (twin m))) in
           (V_n ++ centres V_n H_n (isMain H_n)) !! (Z.to_nat (NV self_n) + k)%nat
           = Some (((a.1 + b.1) / 2)%float, ((a.2 + b.2) / 2)%float)) /\
  (r ← boundary_uniform_refine square 1 None None store;
   ok (NE r.1.2, NV r.1.2,
       length <$> tables r.2 !! halfedge r.1.2, floats r.2 !! vertices r.1.2))
  = ok (16, 8, Some 16%nat,
        Some (square_vertices ++ [(0.5, 0); (1, 0.5); (0.5, 1); (0, 0.5)]%float)).
Proof.
  split; [|vm_compute; reflexivity].
  intros σ self n Hv Hn. rewrite !uniform_refine_in_place.
  replace (Z.to_nat (n + 1)) with (S (Z.to_nat n)) by lia.
  destruct (uniform_levels (Z.to_nat n) σ self (vertices self) (halfedge self) Hv)
    as (self_n & σ_n & Hloop & Hvn & HEn).
  destruct (uniform_loop_succ (Z.to_nat n) σ self (vertices self) (halfedge self) Hv)
    as (self_n' & σ_n' & Hloop' & Hsucc).
  rewrite Hloop in Hloop'. injection Hloop' as <- <-.
  rewrite Z2Nat.id in HEn by exact Hn.
  destruct Hvn as (V_n & H_n & F_n & Hh & HNV & HNE & HF & Htab).
  exists self_n, σ_n, V_n, H_n, F_n.
  split; [exact Hloop|]. split; [exact Hh|]. split; [exact HEn|].
  split; [rewrite <- HNE; exact HEn|].
  destruct (one_level σ_n self_n V_n H_n F_n Hh HNV HNE HF Htab)
    as (self' & σ' & Hone & Hh' & HV' & Heven & Hlc & _ & _).
  exists self', σ', (refined_uniform self_n H_n),
    (F_n ++ replicate (Np.count_true (isMain H_n)) false).
  split; [rewrite Hsucc; exact Hone|]. split; [exact Hh'|].
  assert (Np.len H_n / 2 = Z.of_nat (Np.count_true (isMain H_n))) as Hhalf.
  { rewrite <- HNE, Heven, Z.mul_comm, Z.div_mul by lia. reflexivity. }
  split; [rewrite Hhalf; exact Hlc|]. split; [rewrite Hhalf; exact HV'|].
  intros k m Hk. cbv zeta. unfold Np.len in HNV. unfold point in *.
  rewrite lookup_app_r by lia.
  replace (Z.to_nat (NV self_n) + k - length V_n)%nat with k by lia.
  exact (centres_lookup V_n H_n (isMain H_n) k m Hk).
Qed.

Lemma uniform_refine_counts_and_midpoints_witness :
  valid store square /\
  exists self_n σ_n V_n H_n F_n,
    boundary_uniform_refine square 2 None None store = ok (None, self_n, σ_n) /\
    holds σ_n self_n V_n H_n F_n /\
    NE self_n = 32 /\ Np.len H_n = 32.
Proof.
  split; [exact square_valid|].
  destruct (proj1 uniform_refine_counts_and_midpoints store square 2 square_valid ltac:(lia))
    as (self_n & σ_n & V_n & H_n & F_n & H1 & H2 & H3 & H4 & _).
  exists self_n, σ_n, V_n, H_n, F_n.
  split; [exact H1|]. split; [exact H2|]. split; [exact H3|exact H4].
Defined.

Lemma huge_valid : valid huge_store square.
Proof.
  exists huge_vertices, square_halfedge, [true; true; true; true].
  split; [repeat split; vm_compute; reflexivity|].
  split; [reflexivity|]. split; [reflexivity|]. split; [reflexivity|].
  exact square_table_valid.
Qed.

(** C2 does not hold where the sum of two coordinates overflows.  On the
    square whose side is the largest binary64 number, half-edge 1 runs from
    vertex 1, [(huge, 0)], to vertex 2, [(huge, huge)].  The vertex made for
    it, vertex 5, has the first coordinate [(huge + huge) / 2], which is
    infinite, while both ends have the first coordinate [huge], which is
    finite and is their arithmetic mean. *)
Lemma uniform_refine_midpoint_overflows :
  valid huge_store square /\
  (r ← boundary_uniform_refine square 1 None None huge_store;
   V' ← read (floats r.2) (vertices r.1.2);
   ok (V' !! 1%nat, V' !! 2%nat, V' !! 5%nat))
  = ok (Some (huge, 0%float), Some (huge, huge),
        Some (infinity, 0x1.fffffffffffffp+1022%float)) /\
  (huge <? infinity)%float = true /\
  ((huge + huge) / 2 =? huge)%float = false.
Proof.
  split; [exact huge_valid|]. split; [vm_compute; reflexivity|].
  split; vm_compute; reflexivity.
Qed.

(** *** C3 *)

(** C3.  On a domain that is in order, [boundary_adaptive_refine] in place
    with every half-edge marked and no centres passed in, and
    [boundary_uniform_refine] in place with one level, leave the same vertex
    array, the same half-edge table, the same fixed flags and the same
    counts. *)
Theorem adaptive_all_marked_is_uniform (σ : heap) (self : t) (isMarkedHEdge : loc) :
  valid σ self ->
  bools σ !! isMarkedHEdge = Some (replicate (Z.to_nat (NE self)) true) ->
  exists self1 σ1 self2 σ2 V' H' F',
    boundary_adaptive_refine self isMarkedHEdge None None None σ = ok (None, self1, σ1) /\
    boundary_uniform_refine self 1 None None σ = ok (None, self2, σ2) /\
    holds σ1 self1 V' H' F' /\
    holds σ2 self2 V' H' F' /\
    NV self1 = NV self2 /\
    NE self1 = NE self2.
Proof.
  intros (V & H & F & Hh & HNV & HNE & HF & Htab) HM.
  pose proof Htab as [Hwf Hinv].
  assert (Z.to_nat (NE self) = length H) as EL by (unfold Np.len in HNE; lia).
  rewrite EL in HM.
  destruct (adaptive_level σ self V H F _ isMarkedHEdge Hh HNV HNE HF Htab HM
              (length_replicate _ _) None None eq_refl)
    as (self1 & σ1 & Hcall & Hh1 & HV1 & HE1 & _).
  destruct (one_level σ self V H F Hh HNV HNE HF Htab)
    as (self2 & σ2 & Hone & Hh2 & HV2 & Heven & _ & HE2 & _).
  rewrite uniform_refine_in_place. change (Z.to_nat 1) with 1%nat.
  unfold refined_adaptive in Hh1.
  rewrite (symmetrised_all_true H) in Hh1, HV1, HE1.
  rewrite (flag0_all_true H) in Hh1, HV1, HE1.
  assert ((if decide (fixed self = isMarkedHEdge) then replicate (length H) true else F) = F)
    as EF.
  { destruct (decide (fixed self = isMarkedHEdge)) as [E|E]; [|reflexivity].
    destruct Hh as (_ & _ & HFl). rewrite E, HM in HFl. congruence. }
  rewrite EF in Hh1.
  exists self1, σ1, self2, σ2, (V ++ centres V H (isMain H)), (refined_uniform self H),
    (F ++ replicate (Np.count_true (isMain H)) false).
  split; [exact Hcall|]. split; [exact Hone|]. split; [exact Hh1|]. split; [exact Hh2|].
  split; lia.
Qed.

Lemma adaptive_all_marked_is_uniform_witness :
  let σ := mkHeap (floats store) (tables store)
             (<[ 0%nat := replicate 8 true ]> (bools store)) in
  valid σ square /\
  exists self1 σ1 self2 σ2 V' H' F',
    boundary_adaptive_refine square 0%nat None None None σ = ok (None, self1, σ1) /\
    boundary_uniform_refine square 1 None None σ = ok (None, self2, σ2) /\
    holds σ1 self1 V' H' F' /\
    holds σ2 self2 V' H' F' /\
    NV self1 = NV self2 /\
    NE self1 = NE self2.
Proof.
  intros σ.
  assert (valid σ square) as Hv.
  { exists square_vertices, square_halfedge, [true; true; true; true].
    split; [repeat split; vm_compute; reflexivity|].
    split; [reflexivity|]. split; [reflexivity|]. split; [reflexivity|].
    exact square_table_valid. }
  split; [exact Hv|].
  apply (adaptive_all_marked_is_uniform σ square 0%nat Hv). vm_compute. reflexivity.
Defined.

(** *** The rows after one level *)

Lemma valid_holds (σ : heap) (self : t) (V : list point) (H : list HEdge) (F : list bool) :
  valid σ self -> holds σ self V H F ->
  NV self = Np.len V /\ NE self = Np.len H /\ Np.len F = Np.len V /\
  valid_table (NV self) H.
Proof.
  intros (V0 & H0 & F0 & (A0 & B0 & C0) & HNV & HNE & HF & Htab) (A1 & B1 & C1).
  rewrite A1 in A0. rewrite B1 in B0. rewrite C1 in C0.
  injection A0 as <-. injection B0 as <-. injection C0 as <-. auto.
Qed.

Lemma refined_uniform_row_old (self : t) (V : list point) (H : list HEdge) (h : Z) :
  valid_table (NV self) H -> NV self = Np.len V -> NE self = Np.len H ->
  is_halfedge H h ->
  row (refined_uniform self H) h
  = mkHEdge (target (row H h)) (region (row H h)) (NE self + next (row H h))
      (NE self + h) (NE self + twin (row H h)) (primary (row H h)).
Proof.
  intros Htab HNV HNE Hh. unfold refined_uniform.
  eapply uniform_row_old; eassumption.
Qed.

Lemma refined_uniform_row_new (self : t) (V : list point) (H : list HEdge) (h : Z) :
  valid_table (NV self) H -> NV self = Np.len V -> NE self = Np.len H ->
  is_halfedge H h ->
  row (refined_uniform self H) (NE self + h)
  = mkHEdge (NV self + Z.of_nat (Np.rank (isMain H) (Z.to_nat (edge_main H h))))
      (region (row H h)) h (prev (row H h)) (twin (row H h)) (primary (row H h)).
Proof.
  intros Htab HNV HNE Hh. rewrite <- new_vertex_all_true. unfold refined_uniform.
  eapply uniform_row_new; eassumption.
Qed.

(** The vertex a new row ends at is a new one, the centre of the edge. *)
Lemma refined_uniform_vertex (self : t) (V : list point) (H : list HEdge) (h : Z) :
  valid_table (NV self) H -> NV self = Np.len V -> NE self = Np.len H ->
  is_halfedge H h ->
  let v := NV self + Z.of_nat (Np.rank (isMain H) (Z.to_nat (edge_main H h))) in
  NV self <= v < NV self + Z.of_nat (Np.count_true (isMain H)) /\
  (V ++ centres V H (isMain H)) !! Z.to_nat v
  = Some (midpoint (V !!! Z.to_nat (target (row H (edge_main H h))))
            (V !!! Z.to_nat (target (row H (twin (row H (edge_main H h))))))).
Proof.
  intros Htab HNV HNE Hh v. subst v. rewrite <- new_vertex_all_true. split.
  - eapply uniform_new_vertex_range; eassumption.
  - eapply uniform_new_vertex_lookup; eassumption.
Qed.

Lemma refined_uniform_region (self : t) (V : list point) (H : list HEdge) (j : Z) :
  valid_table (NV self) H -> NV self = Np.len V -> NE self = Np.len H ->
  0 <= j < 2 * NE self ->
  region (row (refined_uniform self H) j) = region (row H (j mod NE self)).
Proof.
  intros Htab HNV HNE Hj. destruct (decide (j < NE self)) as [Hlt|Hge].
  - rewrite Z.mod_small by lia.
    rewrite (refined_uniform_row_old self V H j Htab HNV HNE)
      by (unfold is_halfedge; lia).
    reflexivity.
  - assert (is_halfedge H (j - NE self)) as Hh by (unfold is_halfedge; lia).
    pose proof (refined_uniform_row_new self V H _ Htab HNV HNE Hh) as Hrow.
    replace (NE self + (j - NE self)) with j in Hrow by lia. rewrite Hrow. cbn [region].
    replace j with (j - NE self + 1 * NE self) at 2 by lia.
    rewrite Z.mod_add by lia. rewrite Z.mod_small by lia. reflexivity.
Qed.

(** [k] levels in place only append, and every row has the region of the
    row of the first table it comes from. *)
Lemma uniform_levels_append (k : nat) :
  forall (σ : heap) (self : t) (V : list point) (H : list HEdge) (F : list bool)
         (vl hl : loc),
    valid σ self -> holds σ self V H F ->
    exists self' σ' W H',
      uniform_loop k true self vl hl σ = ok (None, self', σ') /\
      holds σ' self' (V ++ W) H' (F ++ replicate (length W) false) /\
      Np.len H' = NE self * 2 ^ Z.of_nat k /\
      forall j, 0 <= j < Np.len H' ->
        region (row H' j) = region (row H (j mod NE self)).
Proof.
  induction k as [|k IH]; intros σ self V H F vl hl Hv Hh.
  - destruct (valid_holds σ self V H F Hv Hh) as (HNV & HNE & HF & Htab).
    exists self, σ, [], H. split; [reflexivity|].
    split; [cbn [length replicate]; rewrite !app_nil_r; exact Hh|].
    split; [cbn; lia|].
    intros j Hj. rewrite Z.mod_small by lia. reflexivity.
  - destruct (valid_holds σ self V H F Hv Hh) as (HNV & HNE & HF & Htab).
    destruct (uniform_level σ self V H F Hh HNV HNE HF Htab vl hl)
      as (self1 & σ1 & Hloop & Hh1 & HV1 & HE1 & Hv1).
    destruct (IH σ1 self1 _ _ _ (vertices self1) (halfedge self1) Hv1 Hh1)
      as (self' & σ' & W & H' & Hk & Hh' & HL & Hreg).
    pose proof (length_centres_uniform self V H Htab) as Lc.
    exists self', σ', (centres V H (isMain H) ++ W), H'.
    split; [rewrite Hloop; exact Hk|].
    split.
    { rewrite length_app, Lc, replicate_add, !app_assoc. exact Hh'. }
    assert (NE self * 2 ^ Z.of_nat (S k) = NE self1 * 2 ^ Z.of_nat k) as Epow.
    { rewrite Nat2Z.inj_succ, Z.pow_succ_r by lia. lia. }
    split; [rewrite Epow; exact HL|].
    intros j Hj. rewrite (Hreg j Hj).
    assert (0 <= NE self) as Hge by (unfold Np.len in HNE; lia).
    destruct (decide (NE self = 0)) as [E0|Hne].
    { exfalso. rewrite HL, HE1, E0 in Hj. lia. }
    assert (0 <= j mod NE self1 < 2 * NE self) as Hm.
    { rewrite HE1. apply Z.mod_pos_bound. lia. }
    rewrite (refined_uniform_region self V H _ Htab HNV HNE Hm).
    rewrite HE1, Z.mod_mod_divide by (exists 2; lia). reflexivity.
Qed.

(** *** C7 *)

(** C7, as the code has it.  One level of [boundary_uniform_refine] on a
    domain that is in order makes, for every half-edge [h] of the table,
    exactly one new half-edge [NE + h], and the table has [2 * NE] rows
    afterwards.  The new half-edge takes the first half of the edge: it ends
    at the new vertex made for the edge, which is the midpoint of the targets
    of the two half-edges of the edge; it has the region, the [prev], the twin
    and the main flag [h] had before, and its [next] is [h].  The half-edge
    [h] takes the second half: it keeps its target, its region and its main
    flag, its [prev] is the new half-edge [NE + h], its [next] is the new
    half-edge made for the [next] it had, and its twin is the new half-edge
    made for the twin it had.  The new vertices are numbered from [NV] on in
    the order of the main half-edges of their edges. *)
Theorem uniform_refine_splits_before (σ : heap) (self : t)
    (V : list point) (H : list HEdge) (F : list bool) :
  valid σ self -> holds σ self V H F ->
  exists self' σ' V' H' F',
    boundary_uniform_refine self 1 None None σ = ok (None, self', σ') /\
    holds σ' self' V' H' F' /\
    Np.len H' = 2 * NE self /\
    forall h, is_halfedge H h ->
      let m := edge_main H h in
      let v := NV self + Z.of_nat (Np.rank (isMain H) (Z.to_nat m)) in
      row H' h
      = mkHEdge (target (row H h)) (region (row H h)) (NE self + next (row H h))
          (NE self + h) (NE self + twin (row H h)) (primary (row H h)) /\
      row H' (NE self + h)
      = mkHEdge v (region (row H h)) h (prev (row H h)) (twin (row H h))
          (primary (row H h)) /\
      NV self <= v < NV self' /\
      V' !! Z.to_nat v
      = Some (midpoint (V !!! Z.to_nat (target (row H m)))
                (V !!! Z.to_nat (target (row H (twin (row H m)))))).
Proof.
  intros Hv Hh. destruct (valid_holds σ self V H F Hv Hh) as (HNV & HNE & HF & Htab).
  destruct (one_level σ self V H F Hh HNV HNE HF Htab)
    as (self' & σ' & Hone & Hh' & HV' & Heven & _ & HE' & Hv').
  exists self', σ', (V ++ centres V H (isMain H)), (refined_uniform self H),
    (F ++ replicate (Np.count_true (isMain H)) false).
  split; [rewrite uniform_refine_in_place; exact Hone|]. split; [exact Hh'|].
  split; [eapply length_refined_uniform; eassumption|].
  intros h Hhe m v.
  destruct (refined_uniform_vertex self V H h Htab HNV HNE Hhe) as [Hr Hl].
  split; [apply (refined_uniform_row_old self V H h Htab HNV HNE Hhe)|].
  split; [apply (refined_uniform_row_new self V H h Htab HNV HNE Hhe)|].
  split; [subst v m; lia|exact Hl].
Qed.

Lemma uniform_refine_splits_before_witness :
  valid store square /\ holds store square square_vertices square_halfedge (replicate 4 true) /\
  exists self' σ' V' H' F',
    boundary_uniform_refine square 1 None None store = ok (None, self', σ') /\
    holds σ' self' V' H' F' /\
    Np.len H' = 16 /\
    row H' 0 = mkHEdge 1 1 9 8 12 1 /\
    row H' 8 = mkHEdge 4 1 0 3 4 1 /\
    V' !! 4%nat = Some (0.5, 0)%float.
Proof.
  assert (holds store square square_vertices square_halfedge (replicate 4 true)) as Hh.
  { repeat split; vm_compute; reflexivity. }
  split; [exact square_valid|]. split; [exact Hh|].
  destruct (uniform_refine_splits_before store square _ _ _ square_valid Hh)
    as (self' & σ' & V' & H' & F' & Hcall & Hh' & HL & Hrows).
  exists self', σ', V', H', F'.
  split; [exact Hcall|]. split; [exact Hh'|]. split; [exact HL|].
  destruct (Hrows 0 ltac:(vm_compute; split; [discriminate|reflexivity]))
    as (Ho & Hn & _ & Hm).
  split; [exact Ho|]. split; [exact Hn|exact Hm].
Defined.

(** On the unit square, half-edge 0 runs from vertex 0 to vertex 1 and is
    followed by half-edge 1.  After one level it still ends at vertex 1; the
    half-edge made for it is row 8, which ends at the new vertex 4 and is
    followed by half-edge 0, not by half-edge 1. *)
Lemma uniform_refine_new_row_comes_first :
  (r ← boundary_uniform_refine square 1 None None store;
   H' ← read (tables r.2) (halfedge r.1.2);
   ok (row square_halfedge 0, row H' 0, row H' 8, NV square))
  = ok (mkHEdge 1 1 1 3 4 1, mkHEdge 1 1 9 8 12 1, mkHEdge 4 1 0 3 4 1, 4).
Proof. vm_compute. reflexivity. Qed.

(** *** C9 *)

(** The rows after an adaptive pass with the marks [M0]: the old rows keep
    their region, and every new row is the one made for a marked half-edge,
    whose region it has. *)
Lemma refined_adaptive_regions (self : t) (H : list HEdge) (M0 : list bool) :
  valid_table (NV self) H -> NE self = Np.len H -> length M0 = length H ->
  (forall h, is_halfedge H h ->
     region (row (refined_adaptive self H M0) h) = region (row H h)) /\
  (forall j, NE self <= j < Np.len (refined_adaptive self H M0) ->
     exists h, is_halfedge H h /\
       prev (row (refined_adaptive self H M0) h) = j /\
       next (row (refined_adaptive self H M0) j) = h /\
       region (row (refined_adaptive self H M0) j) = region (row H h)).
Proof.
  intros [Hwf Hinv] HNE HM.
  pose proof (symmetrised_symmetric (NV self) H M0 Hwf Hinv HM) as Hsym.
  unfold refined_adaptive. split.
  - intros h Hh. rewrite (row_refined_old _ _ H _ Hwf Hinv HNE Hsym h Hh). reflexivity.
  - intros j Hj.
    destruct (refined_cases _ _ H _ Hwf Hinv HNE Hsym j) as [Hold|(h & Hh & Hm & ->)].
    + unfold is_halfedge, Np.len in *. lia.
    + unfold is_halfedge, Np.len in *. lia.
    + exists h. split; [exact Hh|].
      rewrite (row_refined_old _ _ H _ Hwf Hinv HNE Hsym h Hh).
      rewrite (row_refined_new _ _ H _ Hwf Hinv HNE Hsym h Hh Hm).
      cbn [prev next region]. rewrite Hm. auto.
Qed.

(** The rows of a table, one by one. *)
Lemma rows_keep_regions (H H' : list HEdge) :
  (length H <= length H')%nat ->
  (forall h, is_halfedge H h -> region (row H' h) = region (row H h)) ->
  forall (h : nat) (r : HEdge), H !! h = Some r ->
    exists r', H' !! h = Some r' /\ region r' = region r.
Proof.
  intros HL Hreg h r Hr. apply lookup_row_nat in Hr as (Hh & <-).
  exists (row H' (Z.of_nat h)). split; [|apply Hreg; exact Hh].
  rewrite <- (Nat2Z.id h) at 1. apply lookup_row.
  unfold is_halfedge, Np.len in *. lia.
Qed.

(** An adaptive pass in place, with or without centres: the arrays it
    leaves. *)
Lemma adaptive_appends (σ : heap) (self : t) (V : list point) (H : list HEdge)
    (F M : list bool) (ml : loc) (edgecenter : option loc) :
  valid σ self -> holds σ self V H F ->
  bools σ !! ml = Some M -> Np.len M = NE self ->
  match edgecenter with
  | None => True
  | Some l => exists E, floats σ !! l = Some E /\
                length E = Np.count_true (zip_with andb (isMain H) (symmetrised H M))
  end ->
  exists self' σ' W,
    boundary_adaptive_refine self ml None None edgecenter σ = ok (None, self', σ') /\
    holds σ' self' (V ++ W) (refined_adaptive self H M)
      ((if decide (fixed self = ml) then symmetrised H M else F)
         ++ replicate (length W) false) /\
    length W = Np.count_true (zip_with andb (isMain H) (symmetrised H M)) /\
    match edgecenter with
    | None => W = centres V H (zip_with andb (isMain H) (symmetrised H M))
    | Some l => floats σ !! l = Some W
    end.
Proof.
  intros Hv Hh HM HL Hec.
  destruct (valid_holds σ self V H F Hv Hh) as (HNV & HNE & HF & Htab).
  pose proof Htab as [Hwf Hinv].
  assert (length M = length H) as HM' by (unfold Np.len in HL, HNE; lia).
  pose proof (symmetrised_symmetric (NV self) H M Hwf Hinv HM') as Hsym.
  destruct edgecenter as [l|].
  - destruct Hec as (E & HE & HLE).
    assert (adaptive_pass (NE self) (NV self) V H M (Some E)
            = ok (adaptive_closed (NE self) (NV self) H (symmetrised H M) E)) as Hp.
    { apply (adaptive_pass_ok (NE self) (NV self) V H M (Some E) Htab HNV HNE HM').
      intros e He. injection He as <-. exact HLE. }
    destruct (adaptive_in_place_centres σ self ml l V E H F M _ Hh HM HE Hp)
      as (self' & σ' & Hcall & Hh' & _).
    exists self', σ', E. split; [exact Hcall|]. split; [exact Hh'|].
    split; [exact HLE|exact HE].
  - destruct (adaptive_level σ self V H F M ml Hh HNV HNE HF Htab HM HM' None None eq_refl)
      as (self' & σ' & Hcall & Hh' & _).
    rewrite <- (length_centres V H _ Hsym) in Hh'.
    eexists self', σ', _. split; [exact Hcall|]. split; [exact Hh'|].
    split; [apply (length_centres V H _ Hsym)|reflexivity].
Qed.

(** C9, as the code has it.  In-place refinement of a domain that is in order
    only appends.  After [boundary_uniform_refine(n)], and after
    [boundary_adaptive_refine] with a mask of the table's length, with no
    centres or with one centre passed in for every split edge, the vertex
    array is the old one followed by the new vertices, every row of the old
    table is a row of the new one at the same index and keeps its region, and
    the fixed flags end with [false] for every new vertex.  The fixed flags of
    the old vertices are the old ones, with one exception: when the mask
    passed to [boundary_adaptive_refine] is the [fixed] array of the domain
    itself, they are the mask as the call leaves it, with the twins of the
    marked half-edges marked as well.  After [n] uniform levels the table has
    [NE * 2^n] rows and row [j] has the region of row [j mod NE] of the old
    table, which for one level is the row it was split from; after an
    adaptive pass the table has two more rows for every new vertex, and every
    new row [j] is the [prev] of an old half-edge [h], has [h] as its [next]
    and has the region of [h]. *)
Theorem in_place_refinement_only_appends (σ : heap) (self : t)
    (V : list point) (H : list HEdge) (F : list bool) :
  valid σ self -> holds σ self V H F ->
  (forall n : Z,
     exists self' σ' W H',
       boundary_uniform_refine self n None None σ = ok (None, self', σ') /\
       holds σ' self' (V ++ W) H' (F ++ replicate (length W) false) /\
       Np.len H' = NE self * 2 ^ Z.max 0 n /\
       (forall (h : nat) (r : HEdge), H !! h = Some r ->
          exists r', H' !! h = Some r' /\ region r' = region r) /\
       (forall (j : nat) (r' : HEdge), H' !! j = Some r' ->
          exists r, H !! (j mod length H)%nat = Some r /\ region r' = region r)) /\
  (forall (isMarkedHEdge : loc) (M : list bool) (edgecenter : option loc),
     bools σ !! isMarkedHEdge = Some M -> Np.len M = NE self ->
     match edgecenter with
     | None => True
     | Some l => exists E, floats σ !! l = Some E /\
                   length E = Np.count_true (zip_with andb (isMain H) (symmetrised H M))
     end ->
     exists self' σ' W H',
       boundary_adaptive_refine self isMarkedHEdge None None edgecenter σ
       = ok (None, self', σ') /\
       holds σ' self' (V ++ W) H'
         ((if decide (fixed self = isMarkedHEdge) then symmetrised H M else F)
            ++ replicate (length W) false) /\
       match edgecenter with
       | None => True
       | Some l => floats σ !! l = Some W
       end /\
       Np.len H' = NE self + 2 * Np.len W /\
       (forall (h : nat) (r : HEdge), H !! h = Some r ->
          exists r', H' !! h = Some r' /\ region r' = region r) /\
       (forall (j : nat) (r' : HEdge), H' !! j = Some r' -> (length H <= j)%nat ->
          exists (h : nat) (r rh : HEdge),
            H !! h = Some r /\ H' !! h = Some rh /\
            prev rh = Z.of_nat j /\ next r' = Z.of_nat h /\ region r' = region r)).
Proof.
  intros Hv Hh. destruct (valid_holds σ self V H F Hv Hh) as (HNV & HNE & HF & Htab).
  split.
  - intros n. rewrite uniform_refine_in_place.
    destruct (uniform_levels_append (Z.to_nat n) σ self V H F (vertices self) (halfedge self)
                Hv Hh) as (self' & σ' & W & H' & Hcall & Hh' & HL & Hreg).
    exists self', σ', W, H'. split; [exact Hcall|]. split; [exact Hh'|].
    assert (0 < 2 ^ Z.of_nat (Z.to_nat n)) as Hpow by (apply Z.pow_pos_nonneg; lia).
    split; [rewrite HL; f_equal; f_equal; lia|].
    unfold Np.len in HL, HNE. split.
    + apply rows_keep_regions; [nia|].
      intros h [H0 H1]. unfold Np.len in H1. rewrite Hreg by (unfold Np.len; nia).
      rewrite Z.mod_small by lia. reflexivity.
    + intros j r' Hj. apply lookup_row_nat in Hj as ([Hj0 Hj1] & <-).
      unfold Np.len in Hj1.
      assert (0 < length H)%nat as Hpos by nia.
      exists (row H (Z.of_nat (j mod length H))). split.
      * rewrite <- (Nat2Z.id (j mod length H)) at 1. apply lookup_row.
        pose proof (Nat.mod_upper_bound j (length H) ltac:(lia)).
        unfold is_halfedge, Np.len. lia.
      * rewrite Hreg by (unfold Np.len; lia). rewrite HNE, Nat2Z.inj_mod. reflexivity.
  - intros ml M edgecenter HM HLM Hec.
    assert (length M = length H) as HM' by (unfold Np.len in HLM, HNE; lia).
    destruct (adaptive_appends σ self V H F M ml edgecenter Hv Hh HM HLM Hec)
      as (self' & σ' & W & Hcall & Hh' & HLW & HW).
    destruct Htab as [Hwf Hinv].
    pose proof (symmetrised_symmetric (NV self) H M Hwf Hinv HM') as Hsym.
    pose proof (length_refined (NE self) (NV self) H _ Hwf Hinv HNE Hsym) as LR.
    change (linked _) with (refined_adaptive self H M) in LR.
    destruct (refined_adaptive_regions self H M (conj Hwf Hinv) HNE HM') as [Hold Hnew].
    exists self', σ', W, (refined_adaptive self H M).
    split; [exact Hcall|]. split; [exact Hh'|].
    split; [destruct edgecenter; [exact HW|exact I]|].
    split; [rewrite LR; unfold Np.len; rewrite HLW; reflexivity|].
    unfold Np.len in LR, HNE. split.
    + apply rows_keep_regions; [lia|exact Hold].
    + intros j r' Hj Hge. apply lookup_row_nat in Hj as ([Hj0 Hj1] & <-).
      destruct (Hnew (Z.of_nat j)) as (h & Hhe & Hp & Hn & Hr);
        [unfold Np.len in *; lia|].
      exists (Z.to_nat h), (row H h), (row (refined_adaptive self H M) h).
      split; [apply lookup_row; exact Hhe|].
      split.
      { apply lookup_row. destruct Hhe as [A B]. unfold is_halfedge, Np.len in *. lia. }
      split; [exact Hp|]. split; [|exact Hr].
      rewrite Hn. destruct Hhe. lia.
Qed.

Lemma in_place_refinement_only_appends_witness :
  valid with_centre square /\
  holds with_centre square square_vertices square_halfedge (replicate 4 true) /\
  (exists self' σ' W H',
     boundary_uniform_refine square 2 None None with_centre = ok (None, self', σ') /\
     holds σ' self' (square_vertices ++ W) H' (replicate 4 true ++ replicate (length W) false) /\
     Np.len H' = 32) /\
  (exists self' σ' W H',
     boundary_adaptive_refine square 0%nat None None None with_centre
     = ok (None, self', σ') /\
     holds σ' self' (square_vertices ++ W) H' (replicate 4 true ++ replicate (length W) false) /\
     Np.len H' = 8 + 2 * Np.len W) /\
  (exists self' σ' H',
     boundary_adaptive_refine square 0%nat None None (Some 2%nat) with_centre
     = ok (None, self', σ') /\
     holds σ' self' (square_vertices ++ [(1.25, 0.5)%float]) H'
       (replicate 4 true ++ [false]) /\
     Np.len H' = 10).
Proof.
  split; [exact with_centre_valid|]. split; [exact with_centre_holds|].
  destruct (in_place_refinement_only_appends with_centre square _ _ _ with_centre_valid
              with_centre_holds) as [U A].
  split; [|split].
  - destruct (U 2) as (self' & σ' & W & H' & Hcall & Hh' & HL & _).
    exists self', σ', W, H'. split; [exact Hcall|]. split; [exact Hh'|exact HL].
  - destruct (A 0%nat square_marks None eq_refl eq_refl I)
      as (self' & σ' & W & H' & Hcall & Hh' & _ & HL & _).
    exists self', σ', W, H'. split; [exact Hcall|]. split; [exact Hh'|exact HL].
  - destruct (A 0%nat square_marks (Some 2%nat) eq_refl eq_refl)
      as (self' & σ' & W & H' & Hcall & Hh' & HW & HL & _).
    { exists [(1.25, 0.5)%float]. split; reflexivity. }
    assert (W = [(1.25, 0.5)%float]) as -> by (vm_compute in HW; congruence).
    exists self', σ', H'. split; [exact Hcall|]. split; [exact Hh'|exact HL].
Defined.

Lemma eight_valid : valid eight_store eight.
Proof.
  exists eight_vertices, square_halfedge, eight_fixed.
  split; [repeat split; vm_compute; reflexivity|].
  split; [reflexivity|]. split; [reflexivity|]. split; [reflexivity|].
  destruct square_table_valid as [Hwf Hinv]. split; [|exact Hinv].
  intros h Hh. destruct (Hwf h Hh) as (Ht & Hrest). split; [|exact Hrest].
  cbn [NV eight]. lia.
Qed.

(** C9 does not hold when the mask is the [fixed] array of the domain.  The
    square with four more vertices has eight vertices and eight half-edges,
    and its fixed flags mark the half-edges 0 to 3.  [boundary_adaptive_refine]
    with these flags as the mask marks the twins 4 to 7 in them: vertex 4,
    which was not fixed, is fixed afterwards. *)
Lemma in_place_refinement_changes_a_fixed_flag :
  valid eight_store eight /\
  bools eight_store !! fixed eight = Some eight_fixed /\
  Np.len eight_fixed = NE eight /\
  (r ← boundary_adaptive_refine eight (fixed eight) None None None eight_store;
   F' ← read (bools r.2) (fixed r.1.2);
   ok (eight_fixed !! 4%nat, F' !! 4%nat, length F'))
  = ok (Some false, Some true, 12%nat).
Proof.
  split; [exact eight_valid|]. split; [reflexivity|]. split; [reflexivity|].
  vm_compute. reflexivity.
Qed.

(** *** C6 *)

(** C6, as the code has it.  With both arrays passed in and a table that is
    in order for the vertices passed in, [boundary_uniform_refine(1)] and
    [boundary_adaptive_refine] (no centres passed in, a mask of the table's
    length) return two new arrays and leave the domain object and every other
    array of the store as they were, the table passed in and the mask
    excepted.  The uniform call returns the vertices followed by the centres,
    and the refined table; the adaptive call returns the centres alone, and
    the refined table.  The table passed in is written to: its marked rows
    (all rows in the uniform call) have the new half-edge made for them as
    [prev] and the new half-edge made for their twin as twin.  The mask
    passed to the adaptive call is written to: it is made symmetric under
    twin. *)
Theorem functional_refinement_writes_table_passed_in (σ : heap) (self : t)
    (vl hl : loc) (V : list point) (H : list HEdge) :
  floats σ !! vl = Some V -> tables σ !! hl = Some H -> valid_table (Np.len V) H ->
  (let A := replicate (length H) true in
   let c := Np.count_true (isMain H) in
   let Hw := rewired (Np.len H) H A c in
   exists vnew hnew,
     floats σ !! vnew = None /\ tables σ !! hnew = None /\ hnew <> hl /\
     boundary_uniform_refine self 1 (Some vl) (Some hl) σ
     = ok (Some (vnew, hnew), self,
           mkHeap (<[vnew := V ++ centres V H (isMain H)]> (floats σ))
             (<[hnew := linked (Hw ++ new_rows (Np.len V) H A c)]>
                (<[hl := Hw]> (tables σ)))
             (bools σ)) /\
     forall h, is_halfedge H h ->
       Hw !! Z.to_nat h
       = Some (mkHEdge (target (row H h)) (region (row H h)) (next (row H h))
                 (Np.len H + h) (Np.len H + twin (row H h)) (primary (row H h)))) /\
  (forall (isMarkedHEdge : loc) (M0 : list bool),
     bools σ !! isMarkedHEdge = Some M0 -> Np.len M0 = Np.len H ->
     let M := symmetrised H M0 in
     let c := Np.count_true (zip_with andb (isMain H) M) in
     let Hw := rewired (Np.len H) H M c in
     exists ecloc hnew,
       floats σ !! ecloc = None /\ tables σ !! hnew = None /\ hnew <> hl /\
       boundary_adaptive_refine self isMarkedHEdge (Some vl) (Some hl) None σ
       = ok (Some (ecloc, hnew), self,
             mkHeap (<[ecloc := centres V H (zip_with andb (isMain H) M)]> (floats σ))
               (<[hnew := linked (Hw ++ new_rows (Np.len V) H M c)]>
                  (<[hl := Hw]> (tables σ)))
               (<[isMarkedHEdge := M]> (bools σ))) /\
       forall h, is_halfedge H h ->
         Hw !! Z.to_nat h
         = Some (if at_ M h
                 then mkHEdge (target (row H h)) (region (row H h)) (next (row H h))
                        (new_index (Np.len H) M h)
                        (new_index (Np.len H) M (twin (row H h))) (primary (row H h))
                 else row H h)).
Proof.
  intros HV HH [Hwf Hinv]. split.
  - intros A c Hw.
    pose proof (uniform_pass_ok (Np.len H) (Np.len V) V H Hwf Hinv eq_refl eq_refl) as Hp.
    destruct (uniform_functional σ self vl hl V H _ 0 HV HH Hp)
      as (vnew & hnew & Hf1 & Hf2 & Hne & Hcall).
    exists vnew, hnew. split; [exact Hf1|]. split; [exact Hf2|]. split; [exact Hne|].
    split; [exact Hcall|].
    intros h Hh. subst Hw c.
    pose proof (rewired_lookup (Np.len H) (Np.len V) H A Hwf Hinv
                  (all_true_symmetric _ H Hwf) h Hh) as R.
    unfold A in R. rewrite (flag0_all_true H) in R. fold A in R. rewrite R.
    unfold A. rewrite (at_all_true H h Hh).
    rewrite (new_index_all_true _ H h Hh).
    rewrite (new_index_all_true _ H _ (twin_is_halfedge _ H Hwf h Hh)).
    destruct (row H h). reflexivity.
  - intros ml M0 HM HL M c Hw.
    assert (length M0 = length H) as HL' by (unfold Np.len in HL; lia).
    pose proof (adaptive_pass_ok (Np.len H) (Np.len V) V H M0 None (conj Hwf Hinv)
                  eq_refl eq_refl HL' ltac:(intros e He; discriminate)) as Hp.
    destruct (adaptive_functional σ self ml vl hl V H M0 _ HV HH HM Hp)
      as (ecloc & hnew & Hf1 & Hf2 & Hne & Hcall).
    exists ecloc, hnew. split; [exact Hf1|]. split; [exact Hf2|]. split; [exact Hne|].
    split; [exact Hcall|].
    intros h Hh. subst Hw c.
    rewrite (rewired_lookup (Np.len H) (Np.len V) H M Hwf Hinv
               (symmetrised_symmetric _ H M0 Hwf Hinv HL') h Hh).
    destruct (at_ M h); [|reflexivity]. destruct (row H h). reflexivity.
Qed.

Lemma functional_refinement_writes_table_passed_in_witness :
  floats copies !! 1%nat = Some square_vertices /\
  tables copies !! 1%nat = Some square_halfedge /\
  valid_table (Np.len square_vertices) square_halfedge /\
  (exists vnew hnew σ',
     boundary_uniform_refine square 1 (Some 1%nat) (Some 1%nat) copies
     = ok (Some (vnew, hnew), square, σ')) /\
  (exists ecloc hnew σ',
     boundary_adaptive_refine square 0%nat (Some 1%nat) (Some 1%nat) None copies
     = ok (Some (ecloc, hnew), square, σ')).
Proof.
  assert (floats copies !! 1%nat = Some square_vertices) as HV by (vm_compute; reflexivity).
  assert (tables copies !! 1%nat = Some square_halfedge) as HH by (vm_compute; reflexivity).
  split; [exact HV|]. split; [exact HH|]. split; [exact square_table_valid|].
  destruct (functional_refinement_writes_table_passed_in copies square 1%nat 1%nat _ _
              HV HH square_table_valid) as [U A].
  split.
  - destruct U as (vnew & hnew & _ & _ & _ & Hcall & _).
    exists vnew, hnew. eexists. exact Hcall.
  - destruct (A 0%nat square_marks ltac:(vm_compute; reflexivity) eq_refl)
      as (ecloc & hnew & _ & _ & _ & Hcall & _).
    exists ecloc, hnew. eexists. exact Hcall.
Defined.

(** On the unit square, with copies of the two arrays passed in.  The [prev]
    column of the table passed in is 3, 0, 1, 2, 5, 6, 7, 4 before the uniform
    call and 8, ..., 15 after it, rows the table passed in does not have.
    The adaptive call with half-edge 1 marked returns the one centre
    [(1, 0.5)] and not the five vertices, and leaves half-edge 5, the twin of
    1, marked in the mask passed in. *)
Lemma functional_refinement_overwrites_its_input :
  (H ← read (tables copies) 1%nat; ok (prev <$> H)) = ok [3; 0; 1; 2; 5; 6; 7; 4] /\
  (r ← boundary_uniform_refine square 1 (Some 1%nat) (Some 1%nat) copies;
   H ← read (tables r.2) 1%nat; ok (prev <$> H))
  = ok [8; 9; 10; 11; 12; 13; 14; 15] /\
  (r ← boundary_adaptive_refine square 0%nat (Some 1%nat) (Some 1%nat) None copies;
   ok (match r.1.1 with Some (e, _) => floats r.2 !! e | None => None end,
       bools r.2 !! 0%nat))
  = ok (Some [(1, 0.5)%float],
        Some [false; true; false; false; false; true; false; false]).
Proof. vm_compute. repeat split. Qed.

End Refinement.


(** ** Segment intersection *)

Module Clipping.
Import HalfEdgeDomain NpFacts.

(** *** C4 *)

Lemma binop_ok {A B C} (f : A -> B -> C) (a : list A) (b : list B) :
  length a = length b -> Np.binop f a b = ok (zip_with f a b).
Proof.
  intros E. unfold Np.binop. cbv zeta.
  assert ((if Nat.eqb (length a) 1 then length b else length a) = length a) as ->
    by (destruct (Nat.eqb (length a) 1); congruence).
  unfold Np.broadcast. rewrite <- E, Nat.eqb_refl, bind_ok, bind_ok. reflexivity.
Qed.

Lemma binop_length {A B C} (f : A -> B -> C) (a : list A) (b : list B) (c : list C) :
  length a = length b -> Np.binop f a b = ok c -> length c = length a.
Proof.
  intros E. rewrite (binop_ok f a b E). intros [= <-].
  rewrite length_zip_with. lia.
Qed.

(** Whatever the parameters are, line 517 starts with [flag & t] on a float64
    array. *)
Lemma is_intersect_after_parameters (p0 p1 v0 v1 : list point) (returnin : bool)
    (x : list bool * list float * list float * list point) :
  parameters p0 p1 v0 v1 = ok x ->
  is_intersect p0 p1 v0 v1 returnin = raise TypeError.
Proof.
  intros E. unfold is_intersect. rewrite E, bind_ok.
  destruct x as [[[flag t] u] s]. reflexivity.
Qed.

Lemma is_intersect_raises (p0 p1 v0 v1 : list point) (returnin : bool) :
  exists e, is_intersect p0 p1 v0 v1 returnin = raise e.
Proof.
  destruct (parameters p0 p1 v0 v1) as [e|x] eqn:E.
  - exists e. unfold is_intersect. rewrite E. reflexivity.
  - exists TypeError. apply (is_intersect_after_parameters _ _ _ _ _ x E).
Qed.

Ltac lens :=
  repeat first [ rewrite length_zip_with | rewrite length_fmap | rewrite length_replicate ];
  lia.

(** On arrays of one length nothing goes wrong before line 517. *)
Lemma parameters_ok (p0 p1 v0 v1 : list point) :
  length p1 = length p0 -> length v0 = length p0 -> length v1 = length p0 ->
  exists x, parameters p0 p1 v0 v1 = ok x.
Proof.
  intros E1 E2 E3. unfold parameters, sub, cross. unfold point in *.
  rewrite (binop_ok _ p1 p0) by lia. rewrite bind_ok.
  rewrite (binop_ok _ v1 v0) by lia. rewrite bind_ok.
  rewrite (binop_ok _ v0 p1) by lia. rewrite bind_ok. cbv zeta.
  set (s := zip_with _ p1 p0). set (r := zip_with _ v1 v0). set (v := zip_with _ v0 p1).
  assert (length s = length p0) as Ls by (subst s; lens).
  assert (length r = length p0) as Lr by (subst r; lens).
  assert (length v = length p0) as Lv by (subst v; lens).
  clearbody s r v.
  rewrite (binop_ok _ r s) by lia. rewrite bind_ok.
  rewrite (binop_ok _ v r) by lia. rewrite bind_ok.
  rewrite (binop_ok _ v s) by lia. rewrite bind_ok.
  set (c0 := zip_with _ r s). set (c1 := zip_with _ v r). set (c2 := zip_with _ v s).
  assert (length c0 = length p0) as L0 by (subst c0; lens).
  assert (length c1 = length p0) as L1 by (subst c1; lens).
  assert (length c2 = length p0) as L2 by (subst c2; lens).
  clearbody c0 c1 c2.
  rewrite !binop_ok by lens. rewrite !bind_ok.
  rewrite binop_ok by lens. rewrite bind_ok.
  set (flag := zip_with andb (negb <$> _) _).
  assert (length flag = length p0) as Lf by (subst flag; lens).
  clearbody flag.
  rewrite (mask_ok flag c2) by lia. rewrite bind_ok.
  rewrite (mask_ok flag c0) by lia. rewrite bind_ok.
  rewrite binop_ok by (rewrite !length_select by lia; reflexivity). rewrite bind_ok.
  rewrite mask_set_ok;
    [|lens|rewrite length_zip_with, !length_select by lia; lia]. rewrite bind_ok.
  rewrite (mask_ok flag c1) by lia. rewrite !bind_ok.
  rewrite binop_ok by (rewrite !length_select by lia; reflexivity). rewrite bind_ok.
  rewrite mask_set_ok;
    [|lens|rewrite length_zip_with, !length_select by lia; lia]. rewrite bind_ok.
  eexists. reflexivity.
Qed.

(** C4.  [is_intersect] reports nothing: on arrays of one length it raises
    TypeError in line 517, where [flag & t] is a bitwise and of a bool array
    and a float64 array.  So it does on the two segments from [(0, 0)] to
    [(1, 1)] and from [(0, 1)] to [(1, 0)], which cross at [(0.5, 0.5)], and
    on the parallel segments from [(0, 0)] to [(1, 0)] and from [(0, 1)] to
    [(1, 1)].  For the crossing segments the parameters computed before that
    line are [t = -0.5] and [u = 0.5], with [v = v0 - p1]. *)
Theorem is_intersect_raises_TypeError :
  (forall (p0 p1 v0 v1 : list point) (returnin : bool),
     length p1 = length p0 -> length v0 = length p0 -> length v1 = length p0 ->
     is_intersect p0 p1 v0 v1 returnin = raise TypeError) /\
  is_intersect [(0, 0)%float] [(1, 1)%float] [(0, 1)%float] [(1, 0)%float] false
  = raise TypeError /\
  is_intersect [(0, 0)%float] [(1, 1)%float] [(0, 1)%float] [(1, 0)%float] true
  = raise TypeError /\
  is_intersect [(0, 0)%float] [(1, 0)%float] [(0, 1)%float] [(1, 1)%float] false
  = raise TypeError /\
  parameters [(0, 0)%float] [(1, 1)%float] [(0, 1)%float] [(1, 0)%float]
  = ok ([true], [(-0.5)%float], [0.5%float], [(1, 1)%float]).
Proof.
  split.
  - intros p0 p1 v0 v1 returnin E1 E2 E3.
    destruct (parameters_ok p0 p1 v0 v1 E1 E2 E3) as [x Hx].
    apply (is_intersect_after_parameters _ _ _ _ _ x Hx).
  - repeat split; vm_compute; reflexivity.
Qed.

Lemma is_intersect_raises_TypeError_witness :
  is_intersect [(0, 0); (2, 0)]%float [(1, 1); (2, 2)]%float [(0, 1); (0, 3)]%float
    [(1, 0); (5, 5)]%float true
  = raise TypeError.
Proof.
  apply (proj1 is_intersect_raises_TypeError); reflexivity.
Defined.

End Clipping.


(** ** DynamicArray: indexing, growth and the constructors *)

Module DynamicArrayMore.
Import DynamicArray DynamicArrayFacts NpFacts.

Section Dtype.
Context {A : Type} (zero : A).

(** *** The live part *)

Lemma live_slice (self : @t A) :
  wf self ->
  Np.slice_bounds (length (data self)) 0 (size self) = (0%nat, Z.to_nat (size self)).
Proof.
  intros (Hsz & Hlen & _). unfold Np.len in Hlen.
  rewrite slice_bounds_inside by lia. reflexivity.
Qed.

Lemma length_live (self : @t A) :
  wf self -> length (take (Z.to_nat (size self)) (data self)) = Z.to_nat (size self).
Proof.
  intros (Hsz & Hlen & _). unfold Np.len in Hlen. rewrite length_take. lia.
Qed.

(** The slot an index in [[-size, size)] stands for. *)
Lemma norm_index_mod (n : nat) (i : Z) :
  - Z.of_nat n <= i < Z.of_nat n ->
  Np.norm_index n i = ok (Z.to_nat (i mod Z.of_nat n)).
Proof.
  intros Hi. unfold Np.norm_index.
  destruct (Z.leb_spec 0 i) as [H0|H0].
  - replace (i <? Z.of_nat n) with true by (symmetry; apply Z.ltb_lt; lia).
    cbn [andb]. rewrite Z.mod_small by lia. reflexivity.
  - cbn [andb].
    replace (- Z.of_nat n <=? i) with true by (symmetry; apply Z.leb_le; lia).
    replace (i <? 0) with true by (symmetry; apply Z.ltb_lt; lia). cbn [andb].
    f_equal. f_equal.
    replace i with (Z.of_nat n + i + (-1) * Z.of_nat n) at 2 by lia.
    rewrite Z.mod_add by lia. rewrite Z.mod_small by lia. reflexivity.
Qed.

Lemma norm_index_outside (n : nat) (i : Z) :
  ~ (- Z.of_nat n <= i < Z.of_nat n) -> Np.norm_index n i = raise IndexError.
Proof.
  intros Hi. unfold Np.norm_index.
  destruct (Z.leb_spec 0 i) as [H0|H0].
  - replace (i <? Z.of_nat n) with false by (symmetry; apply Z.ltb_ge; lia).
    cbn [andb].
    replace (i <? 0) with false by (symmetry; apply Z.ltb_ge; lia).
    rewrite andb_false_r. reflexivity.
  - cbn [andb].
    replace (- Z.of_nat n <=? i) with false by (symmetry; apply Z.leb_gt; lia).
    reflexivity.
Qed.

Lemma getitem_inside (self : @t A) (idx : Z) (c : cell) :
  wf self -> - size self <= idx < size self ->
  data self !! Z.to_nat (idx mod size self) = Some c ->
  __getitem__ self idx = ok c.
Proof.
  intros Hwf Hi Hc. unfold __getitem__. rewrite (live_slice self Hwf).
  rewrite Nat.sub_0_r, drop_0. unfold Np.item.
  rewrite (length_live self Hwf).
  destruct Hwf as (Hsz & _).
  rewrite norm_index_mod by lia. rewrite bind_ok. rewrite Z2Nat.id by lia.
  rewrite lookup_take_lt, Hc; [reflexivity|].
  pose proof (Z.mod_pos_bound idx (size self) ltac:(lia)). lia.
Qed.

Lemma getitem_outside (self : @t A) (idx : Z) :
  wf self -> ~ (- size self <= idx < size self) ->
  __getitem__ self idx = raise IndexError.
Proof.
  intros Hwf Hi. unfold __getitem__. rewrite (live_slice self Hwf).
  rewrite Nat.sub_0_r, drop_0. unfold Np.item.
  rewrite (length_live self Hwf).
  destruct Hwf as (Hsz & _).
  rewrite norm_index_outside by lia. reflexivity.
Qed.

(** X1.  On an array in order [a[i]] reads slot [i] of the buffer for
    [0 <= i < size] and slot [size + i] for [-size <= i < 0]; every other
    index raises IndexError, also when the buffer has such a slot below its
    capacity. *)
Theorem getitem_reads_the_live_part (self : @t A) (idx : Z) :
  wf self ->
  (0 <= idx < size self ->
   exists c, data self !! Z.to_nat idx = Some c /\ __getitem__ self idx = ok c) /\
  (- size self <= idx < 0 ->
   exists c, data self !! Z.to_nat (size self + idx) = Some c /\
     __getitem__ self idx = ok c) /\
  (idx < - size self \/ size self <= idx -> __getitem__ self idx = raise IndexError).
Proof.
  intros Hwf. pose proof Hwf as (Hsz & Hlen & _). unfold Np.len in Hlen.
  split; [|split].
  - intros Hi. destruct (lookup_lt_is_Some_2 (data self) (Z.to_nat idx)) as [c Hc]; [lia|].
    exists c. split; [exact Hc|]. apply (getitem_inside self idx c Hwf); [lia|].
    rewrite Z.mod_small by lia. exact Hc.
  - intros Hi.
    destruct (lookup_lt_is_Some_2 (data self) (Z.to_nat (size self + idx))) as [c Hc]; [lia|].
    exists c. split; [exact Hc|]. apply (getitem_inside self idx c Hwf); [lia|].
    replace idx with (size self + idx + (-1) * size self) at 1 by lia.
    rewrite Z.mod_add by lia. rewrite Z.mod_small by lia. exact Hc.
  - intros Hi. apply (getitem_outside self idx Hwf). lia.
Qed.

(** *** Writing a slot *)

Lemma setitem_inside (self : @t A) (idx : Z) (v : A) :
  wf self -> - size self <= idx < size self ->
  __setitem__ self idx v
  = ok {| shape := shape self; size := size self; capacity := capacity self;
          ndim := ndim self;
          data := <[Z.to_nat (idx mod size self) := Some v]> (data self) |}.
Proof.
  intros Hwf Hi. unfold __setitem__. rewrite (live_slice self Hwf).
  rewrite Nat.sub_0_r, drop_0, (length_live self Hwf).
  destruct Hwf as (Hsz & _).
  rewrite norm_index_mod by lia. rewrite bind_ok, Z2Nat.id by lia. reflexivity.
Qed.

(** X2.  On an array in order and for an index [i] in [[-size, size)],
    [a[i] = v] succeeds and leaves shape, size and capacity alone; afterwards
    [a[i]] reads [v] and every index that stands for another slot reads what
    it read before.  For an index outside [[-size, size)] the assignment
    raises IndexError. *)
Theorem setitem_then_getitem (self : @t A) (idx : Z) (v : A) :
  wf self ->
  (- size self <= idx < size self ->
   exists self',
     __setitem__ self idx v = ok self' /\
     wf self' /\
     shape self' = shape self /\ size self' = size self /\
     capacity self' = capacity self /\
     __getitem__ self' idx = ok (Some v) /\
     forall j, - size self <= j < size self -> j mod size self <> idx mod size self ->
       __getitem__ self' j = __getitem__ self j) /\
  (idx < - size self \/ size self <= idx -> __setitem__ self idx v = raise IndexError).
Proof.
  intros Hwf. pose proof Hwf as (Hsz & Hlen & Htr). unfold Np.len in Hlen. split.
  - intros Hi. eexists. split; [apply (setitem_inside self idx v Hwf Hi)|].
    set (k := Z.to_nat (idx mod size self)).
    set (self' := {| shape := shape self; size := size self; capacity := capacity self;
                     ndim := ndim self; data := <[k := Some v]> (data self) |}).
    pose proof (Z.mod_pos_bound idx (size self) ltac:(lia)) as Hk.
    assert (wf self') as Hwf'.
    { unfold wf, Np.len. cbn [size capacity data shape self'].
      rewrite length_insert. repeat split; try lia; assumption. }
    split; [exact Hwf'|]. repeat (split; [reflexivity|]). split.
    + apply (getitem_inside self' idx (Some v) Hwf' Hi). cbn [data size self']. fold k.
      apply list_lookup_insert_eq. lia.
    + intros j Hj Hne.
      pose proof (Z.mod_pos_bound j (size self) ltac:(lia)) as Hjm.
      destruct (lookup_lt_is_Some_2 (data self) (Z.to_nat (j mod size self))) as [c Hc];
        [lia|].
      rewrite (getitem_inside self j c Hwf Hj Hc).
      apply (getitem_inside self' j c Hwf' Hj). cbn [data size self'].
      rewrite list_lookup_insert_ne by (subst k; lia). exact Hc.
  - intros Hi. unfold __setitem__. rewrite (live_slice self Hwf).
    rewrite Nat.sub_0_r, drop_0, (length_live self Hwf).
    rewrite norm_index_outside by lia. reflexivity.
Qed.


(** *** Growth *)

Lemma lookup_mjoin_replicate {B} (k : nat) (a : list B) (j : nat) :
  (j < k * length a)%nat ->
  mjoin (replicate k a) !! j = a !! (j mod length a)%nat.
Proof.
  revert j. induction k as [|k IH]; intros j Hj; [lia|].
  cbn [replicate mjoin]. change (mjoin (replicate k a)) with (mjoin (replicate k a)).
  assert (0 < length a)%nat as HL by (destruct a; simpl in *; lia).
  destruct (decide (j < length a)%nat) as [Hlt|Hge].
  - csimpl. rewrite lookup_app_l by exact Hlt. rewrite Nat.mod_small by exact Hlt.
    reflexivity.
  - csimpl. rewrite lookup_app_r by lia. rewrite IH by lia.
    f_equal. replace j with ((j - length a) + 1 * length a)%nat at 2 by lia.
    rewrite Nat.Div0.mod_add. reflexivity.
Qed.

(** [np.resize] of a buffer that is not empty: slot [j] of the result is slot
    [j mod len] of the buffer. *)
Lemma np_resize_lookup (a : list (@cell A)) (n : Z) (trailing : list Z)
    (buf : list cell) (j : nat) :
  np_resize zero a n trailing = ok buf -> a <> [] -> Z.of_nat j < n ->
  buf !! j = a !! (j mod length a)%nat.
Proof.
  intros H Ha Hj. pose proof (np_resize_length zero a n trailing buf H) as [_ Hn].
  unfold np_resize in H. destruct (_ || _); [discriminate|].
  destruct a as [|c a]; [congruence|]. apply ok_inj in H. subst buf.
  rewrite lookup_take_lt by lia.
  apply lookup_mjoin_replicate. unfold Np.len.
  set (L := length (c :: a)).
  assert (0 < Z.of_nat L) by (subst L; simpl; lia).
  pose proof (ceil_div_covers n (Z.of_nat L) ltac:(lia)) as C.
  assert (0 <= - (- n / Z.of_nat L)) by nia.
  assert (Z.of_nat (Z.to_nat (- (- n / Z.of_nat L)) * L) = - (- n / Z.of_nat L) * Z.of_nat L)
    as E2 by (rewrite Nat2Z.inj_mul, Z2Nat.id by lia; reflexivity).
  lia.
Qed.

Lemma np_resize_empty (n : Z) (trailing : list Z) (buf : list (@cell A)) :
  np_resize zero [] n trailing = ok buf -> buf = replicate (Z.to_nat n) (Some zero).
Proof.
  unfold np_resize. destruct (_ || _); [discriminate|]. intros H. apply ok_inj in H.
  congruence.
Qed.

Lemma grow_ok (self : @t A) (required : Z) :
  wf self -> size self <= required ->
  exists self',
    (if capacity self <=? required
     then resize zero self (Z.max (2 * capacity self) required)
     else ok self) = ok self' /\
    grown zero self required self'.
Proof.
  intros (Hsz & Hlen & Htr) Hr. unfold Np.len in Hlen.
  unfold grown. destruct (capacity self <=? required) eqn:Eleb;
    [apply Z.leb_le in Eleb as Hge|apply Z.leb_gt in Eleb as Hlt].
  - unfold resize, _get_trailing_dimensions.
    destruct (np_resize_ok zero (data self) (Z.max (2 * capacity self) required)
                (tail (shape self)) ltac:(lia) Htr) as [buf Hbuf].
    rewrite Hbuf, bind_ok. eexists. split; [reflexivity|].
    pose proof (np_resize_length zero _ _ _ _ Hbuf) as [Hbl _].
    cbn [shape size ndim capacity data].
    repeat (split; [reflexivity|]). split; [exact Hbl|].
    assert (forall j : nat, 0 < capacity self ->
              Z.of_nat j < Z.max (2 * capacity self) required ->
              buf !! j = data self !! (j mod length (data self))%nat) as Hrep.
    { intros j HC Hj. apply (np_resize_lookup _ _ _ _ _ Hbuf); [|exact Hj].
      intros E. rewrite E in Hlen. simpl in Hlen. lia. }
    split; [|split; [exact Hrep|]].
    + intros j Hj. rewrite Hrep by lia. rewrite Nat.mod_small by lia. reflexivity.
    + intros HC. destruct (data self) as [|c d] eqn:Ed; [|simpl in Hlen; lia].
      apply (np_resize_empty _ _ _ Hbuf).
  - exists self. split; [reflexivity|].
    repeat (split; [reflexivity|]). split; [unfold Np.len; lia|].
    split; [reflexivity|]. split.
    + intros j HC Hj. rewrite Nat.mod_small by lia. reflexivity.
    + intros HC. lia.
Qed.


Lemma grown_capacity_covers (self self' : @t A) (required : Z) :
  wf self -> size self <= required -> grown zero self required self' ->
  required <= capacity self' /\ capacity self <= capacity self'.
Proof.
  intros (Hsz & _) Hr (_ & _ & _ & Hc & _). rewrite Hc.
  destruct (Z.leb_spec (capacity self) required); lia.
Qed.

(** What [extend] does to an array in order: the buffer it goes on with has
    room, and the values are written behind the live slots. *)
Lemma extend_ok (self : @t A) (values : list A) :
  wf self ->
  exists self1,
    grown zero self (size self + Np.len values) self1 /\
    extend zero self values
    = ok {| shape := shape self1; size := size self + Np.len values;
            capacity := capacity self1; ndim := ndim self1;
            data := take (Z.to_nat (size self)) (data self1) ++ (Some <$> values)
                    ++ drop (Z.to_nat (size self + Np.len values)) (data self1) |}.
Proof.
  intros Hwf. pose proof Hwf as (Hsz & Hlen & Htr). unfold Np.len in Hlen.
  assert (size self <= size self + Np.len values) as Hr by (unfold Np.len; lia).
  destruct (grow_ok self _ Hwf Hr) as (self1 & Hg & G).
  pose proof (grown_capacity_covers self self1 _ Hwf Hr G) as [Hcov Hmono].
  exists self1. split; [exact G|].
  destruct G as (Gsh & Gsz & Gnd & Gcap & Glen & Gpre & _).
  unfold extend. cbv zeta. rewrite Hg, bind_ok. unfold Np.len in *.
  rewrite Gsz. rewrite slice_bounds_inside by lia.
  rewrite broadcast_ok by lia. rewrite bind_ok. reflexivity.
Qed.

Lemma extend_wf (self self' : @t A) (values : list A) :
  wf self -> extend zero self values = ok self' -> wf self'.
Proof.
  intros Hwf H. pose proof Hwf as (Hsz & Hlen & Htr). unfold Np.len in Hlen.
  destruct (extend_ok self values Hwf) as (self1 & G & Hc).
  assert (size self <= size self + Np.len values) as Hr by (unfold Np.len; lia).
  pose proof (grown_capacity_covers self self1 _ Hwf Hr G) as [Hcov Hmono].
  destruct G as (Gsh & Gsz & Gnd & Gcap & Glen & _).
  rewrite Hc in H. apply ok_inj in H. subst self'.
  unfold wf, Np.len in *. cbn [size capacity data shape].
  rewrite !length_app, length_take, length_fmap, length_drop, Gsh.
  repeat split; try lia. exact Htr.
Qed.

(** X3.  On an array in order [extend(values)] succeeds, leaves [shape]
    alone and raises the size by [len(values)]; afterwards the values are
    read back at the indices [size], [size + 1], ... and every index below
    the old size reads what it read before, also when the buffer had to
    grow. *)
Theorem extend_then_getitem (self : @t A) (values : list A) :
  wf self ->
  exists self',
    extend zero self values = ok self' /\
    wf self' /\
    shape self' = shape self /\
    size self' = size self + Np.len values /\
    (forall (i : nat) (v : A), values !! i = Some v ->
       __getitem__ self' (size self + Z.of_nat i) = ok (Some v)) /\
    (forall j, 0 <= j < size self -> __getitem__ self' j = __getitem__ self j).
Proof.
  intros Hwf. pose proof Hwf as (Hsz & Hlen & Htr). unfold Np.len in Hlen.
  destruct (extend_ok self values Hwf) as (self1 & G & Hc).
  assert (size self <= size self + Np.len values) as Hr by (unfold Np.len; lia).
  pose proof (grown_capacity_covers self self1 _ Hwf Hr G) as [Hcov Hmono].
  pose proof (extend_wf self _ values Hwf Hc) as Hwf'.
  destruct G as (Gsh & Gsz & Gnd & Gcap & Glen & Gpre & _).
  eexists. split; [exact Hc|]. split; [exact Hwf'|].
  split; [exact Gsh|]. split; [reflexivity|].
  unfold Np.len in *.
  set (l := Z.to_nat (size self)) in *.
  assert (length (take l (data self1)) = l) as Ll by (rewrite length_take; lia).
  split.
  - intros i v Hv. pose proof (lookup_lt_Some _ _ _ Hv) as Hi.
    apply (getitem_inside _ _ (Some v) Hwf'); cbn [size data]; [lia|].
    rewrite Z.mod_small by lia.
    rewrite lookup_app_r by lia. rewrite Ll.
    replace (Z.to_nat (size self + Z.of_nat i) - l)%nat with i by lia.
    rewrite lookup_app_l by (rewrite length_fmap; exact Hi).
    rewrite list_lookup_fmap, Hv. reflexivity.
  - intros j Hj.
    destruct (lookup_lt_is_Some_2 (data self) (Z.to_nat j)) as [c Hc0]; [lia|].
    rewrite (getitem_inside self j c Hwf) by (rewrite ?Z.mod_small by lia; lia || exact Hc0).
    apply (getitem_inside _ j c Hwf'); cbn [size data]; [lia|].
    rewrite Z.mod_small by lia.
    rewrite lookup_app_l by lia. rewrite lookup_take_lt by lia.
    rewrite Gpre by lia. exact Hc0.
Qed.

(** X4.  When [increase_size(s)] has to grow the buffer of an array in
    order ([size + s >= capacity], [s >= 0]), the slots below the old
    capacity keep what they held, and a slot [j] from the old capacity on
    holds what slot [j mod capacity] held: [np.resize] fills with repeats of
    the old buffer, so the slots of the returned view are copies of old
    slots.  Only a buffer of capacity 0 grows into zeros. *)
Theorem increase_size_grows_by_repetition (self : @t A) (s : Z) :
  wf self -> 0 <= s -> capacity self <= size self + s ->
  exists self',
    increase_size zero self s
    = ok (mk_view (Z.to_nat (size self)) (Z.to_nat (size self + s)), self') /\
    capacity self' = Z.max (2 * capacity self) (size self + s) /\
    (forall j : nat, Z.of_nat j < capacity self -> data self' !! j = data self !! j) /\
    (forall j : nat, 0 < capacity self -> Z.of_nat j < capacity self' ->
       data self' !! j = data self !! Z.to_nat (Z.of_nat j mod capacity self)) /\
    (capacity self = 0 ->
     data self' = replicate (Z.to_nat (capacity self')) (Some zero)).
Proof.
  intros Hwf Hs Hgrow. pose proof Hwf as (Hsz & Hlen & Htr). unfold Np.len in Hlen.
  assert (size self <= size self + s) as Hr by lia.
  destruct (grow_ok self _ Hwf Hr) as (self1 & Hg & G).
  pose proof (grown_capacity_covers self self1 _ Hwf Hr G) as [Hcov Hmono].
  destruct G as (Gsh & Gsz & Gnd & Gcap & Glen & Gpre & Grep & Gzero).
  replace (capacity self <=? size self + s) with true in Gcap
    by (symmetry; apply Z.leb_le; lia).
  unfold increase_size. cbv zeta. rewrite Hg, bind_ok. unfold Np.len in *.
  rewrite Gsz. rewrite slice_bounds_inside by lia.
  eexists. split; [reflexivity|]. cbn [capacity data].
  split; [exact Gcap|]. split; [exact Gpre|]. split; [|exact Gzero].
  intros j HC Hj. rewrite (Grep j HC Hj). f_equal.
  rewrite <- Hlen. rewrite <- Nat2Z.inj_mod, Nat2Z.id. reflexivity.
Qed.


(** *** Taking slots back *)

(** X5.  On an array in order and for [s >= 0], [decrease_size(s)] after
    [increase_size(s)] returns the view [increase_size] returned and brings
    the size back, with [shape] untouched and every slot below the size as it
    was; the capacity is the one [increase_size] left, never a smaller
    one. *)
Theorem decrease_size_undoes_increase_size (self : @t A) (s : Z) :
  wf self -> 0 <= s ->
  exists v self1 self2,
    increase_size zero self s = ok (v, self1) /\
    decrease_size self1 s = ok (v, self2) /\
    v = mk_view (Z.to_nat (size self)) (Z.to_nat (size self + s)) /\
    size self2 = size self /\ shape self2 = shape self /\
    capacity self2 = capacity self1 /\ capacity self <= capacity self2 /\
    wf self2 /\
    forall j, 0 <= j < size self -> __getitem__ self2 j = __getitem__ self j.
Proof.
  intros Hwf Hs. pose proof Hwf as (Hsz & Hlen & Htr). unfold Np.len in Hlen.
  assert (size self <= size self + s) as Hr by lia.
  destruct (grow_ok self _ Hwf Hr) as (self1 & Hg & G).
  pose proof (grown_capacity_covers self self1 _ Hwf Hr G) as [Hcov Hmono].
  destruct G as (Gsh & Gsz & Gnd & Gcap & Glen & Gpre & _).
  unfold Np.len in Glen.
  eexists _, _, _. split.
  { unfold increase_size. cbv zeta. rewrite Hg, bind_ok.
    rewrite Gsz. rewrite slice_bounds_inside by lia. reflexivity. }
  split.
  { unfold decrease_size. cbn [size data capacity shape ndim].
    replace (s <=? size self + s) with true by (symmetry; apply Z.leb_le; lia).
    cbn [negb]. replace (size self + s - s) with (size self) by lia.
    rewrite slice_bounds_inside by lia. reflexivity. }
  split; [reflexivity|]. cbn [size shape capacity].
  split; [reflexivity|]. split; [exact Gsh|]. split; [reflexivity|]. split; [lia|].
  set (self2 := {| shape := shape self1; size := size self; capacity := capacity self1;
                   ndim := ndim self1; data := data self1 |}).
  assert (wf self2) as Hwf2.
  { unfold wf, Np.len. cbn [size capacity data shape self2]. rewrite Gsh.
    repeat split; try lia. exact Htr. }
  split; [exact Hwf2|].
  intros j Hj.
  destruct (lookup_lt_is_Some_2 (data self) (Z.to_nat j)) as [c Hc]; [lia|].
  rewrite (getitem_inside self j c Hwf) by (rewrite ?Z.mod_small by lia; lia || exact Hc).
  apply (getitem_inside self2 j c Hwf2); cbn [size data self2]; [lia|].
  rewrite Z.mod_small by lia. rewrite Gpre by lia. exact Hc.
Qed.

Lemma decrease_size_cases (self : @t A) (s : Z) :
  wf self ->
  (size self < s -> decrease_size self s = raise AssertionError) /\
  (s <= size self ->
   exists l h,
     decrease_size self s
     = ok (mk_view l h,
           {| shape := shape self; size := size self - s; capacity := capacity self;
              ndim := ndim self; data := data self |})).
Proof.
  intros _. split.
  - intros Hs. unfold decrease_size.
    replace (s <=? size self) with false by (symmetry; apply Z.leb_gt; lia).
    reflexivity.
  - intros Hs. unfold decrease_size.
    replace (s <=? size self) with true by (symmetry; apply Z.leb_le; lia).
    cbn [negb]. cbv zeta.
    destruct (Np.slice_bounds (length (data self)) (size self - s) (size self)) as [l h].
    exists l, h. reflexivity.
Qed.

(** X6.  [decrease_size(s)] checks [s <= size] and nothing else, and never
    touches the buffer or the capacity.  On an array in order it raises
    AssertionError for [s > size], returns the view [data[size-s:size]] and
    lowers the size for [0 <= s <= size], and for a negative [s] returns an
    empty view and raises the size by [-s] without growing the buffer, so
    that the size is above the capacity when [size - s > capacity]. *)
Theorem decrease_size_checks_the_upper_bound (self : @t A) (s : Z) :
  wf self ->
  (size self < s -> decrease_size self s = raise AssertionError) /\
  (s <= size self ->
   exists l h,
     decrease_size self s
     = ok (mk_view l h,
           {| shape := shape self; size := size self - s; capacity := capacity self;
              ndim := ndim self; data := data self |}) /\
     (0 <= s -> l = Z.to_nat (size self - s) /\ h = Z.to_nat (size self)) /\
     (s < 0 -> l = h)).
Proof.
  intros (Hsz & Hlen & Htr). unfold Np.len in Hlen. split.
  - intros Hs. unfold decrease_size.
    replace (s <=? size self) with false by (symmetry; apply Z.leb_gt; lia).
    reflexivity.
  - intros Hs. unfold decrease_size.
    replace (s <=? size self) with true by (symmetry; apply Z.leb_le; lia).
    cbn [negb]. cbv zeta.
    destruct (Np.slice_bounds (length (data self)) (size self - s) (size self))
      as [l h] eqn:E.
    exists l, h. split; [reflexivity|]. split.
    + intros H0. rewrite slice_bounds_inside in E by lia. injection E as <- <-. auto.
    + intros H0. unfold Np.slice_bounds in E.
      rewrite (clamp_inside _ (size self)) in E by lia.
      injection E as <- <-. f_equal.
      assert (size self <= Np.clamp (Z.of_nat (length (data self))) (size self - s)).
      { unfold Np.clamp.
        replace (size self - s <? 0) with false by (symmetry; apply Z.ltb_ge; lia).
        cbv zeta.
        replace (size self - s <? 0) with false by (symmetry; apply Z.ltb_ge; lia).
        destruct (Z.ltb_spec (Z.of_nat (length (data self))) (size self - s)); lia. }
      lia.
Qed.

(** *** Giving capacity back *)

Lemma shrink_ok (self : @t A) :
  wf self ->
  shrink zero self
  = ok {| shape := shape self; size := size self; capacity := size self;
          ndim := ndim self; data := take (Z.to_nat (size self)) (data self) |}.
Proof.
  intros (Hsz & Hlen & Htr). unfold Np.len in Hlen.
  unfold shrink, resize, _get_trailing_dimensions.
  destruct (np_resize_ok zero (data self) (size self) (tail (shape self))
              ltac:(lia) Htr) as [buf Hbuf].
  rewrite Hbuf, bind_ok. do 2 f_equal.
  pose proof (np_resize_length zero _ _ _ _ Hbuf) as [Hbl _]. unfold Np.len in Hbl.
  apply list_eq. intros j.
  destruct (decide (Z.of_nat j < size self)) as [Hj|Hj].
  - rewrite lookup_take_lt by lia.
    rewrite (np_resize_lookup _ _ _ _ j Hbuf); [|intros E; rewrite E in Hlen; simpl in Hlen; lia|exact Hj].
    rewrite Nat.mod_small by lia. reflexivity.
  - rewrite !lookup_ge_None_2; [reflexivity| |]; [rewrite length_take|]; lia.
Qed.

(** X7.  On an array in order [shrink()] cuts the buffer to the live slots:
    the capacity becomes the size and every index reads what it read before.
    The array is then full, so that the next [increase_size(s)], for every
    [s >= 0] and also for [s = 0], grows the buffer again, to
    [max(2*size, size + s)]. *)
Theorem shrink_then_increase_size (self : @t A) :
  wf self ->
  exists self1,
    shrink zero self = ok self1 /\
    wf self1 /\
    capacity self1 = size self /\ size self1 = size self /\
    shape self1 = shape self /\
    data self1 = take (Z.to_nat (size self)) (data self) /\
    (forall j, __getitem__ self1 j = __getitem__ self j) /\
    forall s, 0 <= s ->
      exists v self2,
        increase_size zero self1 s = ok (v, self2) /\
        capacity self2 = Z.max (2 * size self) (size self + s).
Proof.
  intros Hwf. pose proof Hwf as (Hsz & Hlen & Htr). unfold Np.len in Hlen.
  eexists. split; [apply (shrink_ok self Hwf)|].
  set (self1 := {| shape := shape self; size := size self; capacity := size self;
                   ndim := ndim self; data := take (Z.to_nat (size self)) (data self) |}).
  assert (wf self1) as Hwf1.
  { unfold wf, Np.len. cbn [size capacity data shape self1]. rewrite length_take.
    repeat split; try lia. exact Htr. }
  split; [exact Hwf1|]. repeat (split; [reflexivity|]). split.
  - intros j. unfold __getitem__. rewrite (live_slice self Hwf), (live_slice self1 Hwf1).
    cbn [size data self1]. rewrite !Nat.sub_0_r, !drop_0.
    rewrite take_take, Nat.min_id. reflexivity.
  - intros s Hs.
    destruct (increase_size_wf zero self1 s Hwf1 Hs) as (self2 & Hcall & _ & Hcap & _).
    eexists _, self2. split; [exact Hcall|]. rewrite Hcap. cbn [size capacity self1].
    replace (size self + s <? size self) with false by (symmetry; apply Z.ltb_ge; lia).
    reflexivity.
Qed.


(** *** The constructors *)

Lemma np_empty_ok (n : Z) (trailing : list Z) :
  0 <= n -> existsb (fun d => d <? 0) trailing = false ->
  @np_empty A n trailing = ok (replicate (Z.to_nat n) None).
Proof.
  intros Hn Ht. unfold np_empty. rewrite Ht.
  replace (n <? 0) with false by (symmetry; apply Z.ltb_ge; lia). reflexivity.
Qed.

(** X21.  [DynamicArray(n)] for an int [n >= 0] has the size [n], not 0: its
    [n] slots are live from the start and hold what [np.empty] left there,
    so that what [extend] adds comes behind them.  A negative [n] is accepted
    as long as the capacity asked for is not negative and leaves an array
    with the negative size [n]; only when both are negative does [np.empty]
    raise ValueError. *)
Theorem int_constructor_slots_are_live (n c : Z) :
  (Z.max n c < 0 -> @init_int A n c = raise ValueError) /\
  (0 <= Z.max n c ->
   exists a : @t A,
     init_int n c = ok a /\
     shape a = [n] /\ size a = n /\ capacity a = Z.max n c /\
     data a = replicate (Z.to_nat (Z.max n c)) None /\
     (0 <= n ->
      wf a /\
      (forall i, - n <= i < n -> __getitem__ a i = ok None) /\
      forall values : list A,
        exists a', extend zero a values = ok a' /\
          (forall j, 0 <= j < n -> __getitem__ a' j = ok None) /\
          forall (i : nat) (v : A), values !! i = Some v ->
            __getitem__ a' (n + Z.of_nat i) = ok (Some v)) /\
     (n < 0 -> ~ wf a)).
Proof.
  split.
  - intros Hc. unfold init_int, np_empty. cbv zeta. cbn [tail existsb].
    replace (Z.max n c <? 0) with true by (symmetry; apply Z.ltb_lt; lia).
    reflexivity.
  - intros Hc. unfold init_int. cbv zeta. cbn [tail].
    rewrite np_empty_ok by (lia || reflexivity). rewrite bind_ok.
    eexists. split; [reflexivity|]. cbn [shape size capacity data].
    repeat (split; [reflexivity|]). split.
    + intros Hn.
      set (a := {| shape := [n]; size := n; capacity := Z.max n c; ndim := Np.len [n];
                   data := replicate (Z.to_nat (Z.max n c)) None |}).
      assert (wf a) as Hwf.
      { unfold wf, Np.len. cbn [size capacity data shape a tail existsb].
        rewrite length_replicate. repeat split; lia. }
      assert (forall i, - n <= i < n -> __getitem__ a i = ok None) as Hget.
      { intros i Hi. apply (getitem_inside a i None Hwf Hi). cbn [data size a].
        pose proof (Z.mod_pos_bound i n ltac:(lia)).
        apply lookup_replicate_2. lia. }
      split; [exact Hwf|]. split; [exact Hget|].
      intros values.
      destruct (extend_ok a values Hwf) as (a1 & G & Hc1).
      pose proof (extend_wf a _ values Hwf Hc1) as Hwf'.
      assert (size a <= size a + Np.len values) as Hr by (unfold Np.len; lia).
      pose proof (grown_capacity_covers a a1 _ Hwf Hr G) as [Hcov Hmono].
      destruct G as (Gsh & Gsz & Gnd & Gcap & Glen & Gpre & _).
      eexists. split; [exact Hc1|]. cbn [size a] in *. unfold Np.len in *.
      assert (length (take (Z.to_nat n) (data a1)) = Z.to_nat n) as Ll
        by (rewrite length_take; lia).
      split.
      * intros j Hj. apply (getitem_inside _ j None Hwf'); cbn [size data]; [lia|].
        rewrite Z.mod_small by lia.
        rewrite lookup_app_l by lia. rewrite lookup_take_lt by lia.
        rewrite Gpre by (cbn [capacity a]; lia). cbn [data a].
        apply lookup_replicate_2. lia.
      * intros i v Hv. pose proof (lookup_lt_Some _ _ _ Hv) as Hi.
        apply (getitem_inside _ _ (Some v) Hwf'); cbn [size data]; [lia|].
        rewrite Z.mod_small by lia.
        rewrite lookup_app_r by lia. rewrite Ll.
        replace (Z.to_nat (n + Z.of_nat i) - Z.to_nat n)%nat with i by lia.
        rewrite lookup_app_l by (rewrite length_fmap; exact Hi).
        rewrite list_lookup_fmap, Hv. reflexivity.
    + intros Hn (Hsz & _). cbn [size] in Hsz. lia.
Qed.

(** *** Sequences of calls *)

Lemma call_keeps_order (self : @t A) (o : op) :
  wf self -> nonneg o ->
  (forall self', call zero self o = ok self' -> wf self') /\
  (forall e, call zero self o = raise e -> e = AssertionError).
Proof.
  intros Hwf Ho. pose proof Hwf as (Hsz & Hlen & Htr).
  destruct o as [s|s|values]; cbn [call nonneg] in *.
  - destruct (increase_size_wf zero self s Hwf Ho) as (a & Ha & _ & _ & _ & Hwa).
    rewrite Ha, bind_ok. split; [intros self' H; apply ok_inj in H; subst; exact Hwa|].
    intros e H. discriminate.
  - destruct (decrease_size_cases self s Hwf) as [Hhi Hlo].
    destruct (Z.ltb_spec (size self) s) as [Hgt|Hle].
    + rewrite (Hhi Hgt). split; [intros self' H; discriminate|].
      intros e H. unfold raise in H. cbn in H. congruence.
    + destruct (Hlo Hle) as (l & h & Hc). rewrite Hc, bind_ok.
      split; [|intros e H; discriminate].
      intros self' H. apply ok_inj in H. subst self'.
      unfold wf. cbn [size capacity data shape]. repeat split; try lia; assumption.
  - destruct (extend_ok self values Hwf) as (self1 & _ & Ha).
    split; [intros self' H; apply (extend_wf self self' values Hwf H)|].
    intros e H. rewrite Ha in H. discriminate.
Qed.

(** X9.  Sequences of [increase_size], [decrease_size] and [extend] whose
    amounts are not negative keep an array in order (the size between 0 and
    the capacity, the buffer as long as the capacity), and the only error
    they raise is the AssertionError of a [decrease_size] that asks for more
    slots than the size. *)
Theorem calls_keep_the_array_in_order (a : @t A) (os : list op) :
  wf a -> Forall nonneg os ->
  (forall a', calls zero a os = ok a' -> wf a') /\
  (forall e, calls zero a os = raise e -> e = AssertionError).
Proof.
  intros Hwf Hos. revert a Hwf. induction Hos as [|o os Ho Hos IH]; intros a Hwf.
  - cbn [calls]. split; [intros a' H; apply ok_inj in H; subst; exact Hwf|].
    intros e H. discriminate.
  - cbn [calls]. destruct (call_keeps_order a o Hwf Ho) as [Hok Herr].
    destruct (call zero a o) as [e|a1] eqn:Hc.
    + split; [intros a' H; discriminate|].
      intros e' H. cbn in H. injection H as <-. apply Herr. reflexivity.
    + change (inr a1 ≫= (fun self' => calls zero self' os))
        with (calls zero a1 os).
      apply IH. apply Hok. reflexivity.
Qed.


End Dtype.

(** *** The list constructor *)

Lemma converted_lookup {A B} (cast : B -> result A) (l : list B) (vs : list A) :
  converted cast l = ok vs ->
  length vs = length l /\
  forall (i : nat) (x : B), l !! i = Some x ->
    exists v, cast x = ok v /\ vs !! i = Some v.
Proof.
  revert vs. induction l as [|y l IH]; intros vs H; cbn [converted] in H.
  - apply ok_inj in H. subst vs. split; [reflexivity|]. intros i x Hx. discriminate.
  - bind_inv H. subst vs. destruct (IH _ Hx0) as [HL Hl]. split; [simpl; lia|].
    intros [|i] z Hz.
    + injection Hz as <-. exists x. split; [exact Hx|reflexivity].
    + apply (Hl i z Hz).
Qed.

Lemma list_constructor_ok {A B} (cast : B -> result A) (l : list B) (c : Z)
    (vs : list A) :
  l <> [] -> converted cast l = ok vs ->
  exists a : @t A,
    init_list cast l c = ok a /\
    wf a /\
    size a = Np.len l /\ capacity a = Z.max (Np.len l) c /\
    __len__ a = ok (Np.len l) /\
    forall (i : nat) (x : B), l !! i = Some x ->
      exists v, cast x = ok v /\ __getitem__ a (Z.of_nat i) = ok (Some v).
Proof.
  intros Hl Hvs. destruct (converted_lookup cast l vs Hvs) as [HL Hlook].
  destruct l as [|x l]; [congruence|].
  unfold init_list. cbv zeta.
  assert (Np.item (x :: l) 0 = ok x) as -> by reflexivity. rewrite bind_ok.
  cbn [tail].
  rewrite np_empty_ok by (unfold Np.len; simpl; lia || reflexivity). rewrite bind_ok.
  rewrite Hvs, bind_ok.
  eexists. split; [reflexivity|].
  set (n := Np.len (x :: l)).
  set (a := {| shape := [n]; size := n; capacity := Z.max n c; ndim := Np.len [n];
               data := (Some <$> vs)
                       ++ drop (length vs) (replicate (Z.to_nat (Z.max n c)) None) |}).
  assert (0 < n) as Hn by (subst n; unfold Np.len; simpl; lia).
  assert (Z.of_nat (length vs) = n) as Hvn by (subst n; unfold Np.len; lia).
  assert (wf a) as Hwf.
  { unfold wf, Np.len. cbn [size capacity data shape a tail existsb].
    rewrite length_app, length_fmap, length_drop, length_replicate.
    repeat split; lia. }
  split; [exact Hwf|]. split; [reflexivity|]. split; [reflexivity|].
  split; [reflexivity|].
  intros i z Hz. destruct (Hlook i z Hz) as (v & Hc & Hv). exists v. split; [exact Hc|].
  pose proof (lookup_lt_Some _ _ _ Hv) as Hi.
  apply (getitem_inside a _ (Some v) Hwf); cbn [size data a]; [lia|].
  rewrite Z.mod_small by lia. rewrite Nat2Z.id.
  rewrite lookup_app_l by (rewrite length_fmap; exact Hi).
  rewrite list_lookup_fmap, Hv. reflexivity.
Qed.

(** X8.  [DynamicArray(data, dtype, capacity=c)] for a list [data] of
    scalars: the empty list raises IndexError (in [data[0]]); a list that is
    not empty gives an array in order with the size [len(data)], the capacity
    [max(len(data), c)] and [len(a) = len(data)], whose index [i] reads
    [data[i]] converted to the dtype of the array, [dtype or np.int_], and
    what the conversion raises is raised.  With no dtype passed the array
    holds integers whatever the list holds: index [i] reads the integer made
    of [data[i]]. *)
Theorem list_constructor_then_getitem :
  (forall A B (cast : B -> result A) (c : Z),
     @init_list A B cast [] c = raise IndexError) /\
  (forall A B (cast : B -> result A) (l : list B) (c : Z) (vs : list A),
     l <> [] -> converted cast l = ok vs ->
     exists a : @t A,
       init_list cast l c = ok a /\
       wf a /\
       size a = Np.len l /\ capacity a = Z.max (Np.len l) c /\
       __len__ a = ok (Np.len l) /\
       forall (i : nat) (x : B), l !! i = Some x ->
         exists v, cast x = ok v /\ __getitem__ a (Z.of_nat i) = ok (Some v)) /\
  (forall A B (cast : B -> result A) (l : list B) (c : Z) (e : exn),
     l <> [] -> converted cast l = raise e -> @init_list A B cast l c = raise e) /\
  (forall B (to_int : B -> result Z) (l : list B) (c : Z) (vs : list Z),
     l <> [] -> converted to_int l = ok vs ->
     exists a : @t Z,
       init_list_default to_int l c = ok a /\
       size a = Np.len l /\
       forall (i : nat) (x : B), l !! i = Some x ->
         exists n : Z, to_int x = ok n /\ __getitem__ a (Z.of_nat i) = ok (Some n)).
Proof.
  split; [intros; reflexivity|].
  split; [intros A B cast l c vs; apply list_constructor_ok|].
  split.
  - intros A B cast l c e Hl He. destruct l as [|x l]; [congruence|].
    unfold init_list. cbv zeta.
    assert (Np.item (x :: l) 0 = ok x) as -> by reflexivity. rewrite bind_ok.
    cbn [tail].
    rewrite np_empty_ok by (unfold Np.len; simpl; lia || reflexivity). rewrite bind_ok.
    rewrite He. reflexivity.
  - intros B to_int l c vs Hl Hvs. unfold init_list_default.
    destruct (list_constructor_ok to_int l c vs Hl Hvs)
      as (a & Ha & _ & Hs & _ & _ & Hget).
    exists a. split; [exact Ha|]. split; [exact Hs|exact Hget].
Qed.

Lemma list_constructor_then_getitem_witness :
  exists a : @t Z,
    init_list_default int_of_bool [true; false; true] 2 = ok a /\
    size a = 3 /\
    __getitem__ a 0 = ok (Some 1) /\ __getitem__ a 1 = ok (Some 0).
Proof.
  destruct list_constructor_then_getitem as (_ & _ & _ & Hd).
  destruct (Hd bool int_of_bool [true; false; true] 2 [1; 0; 1] ltac:(discriminate)
              eq_refl) as (a & Ha & Hs & Hget).
  exists a. split; [exact Ha|]. split; [exact Hs|].
  destruct (Hget 0%nat true eq_refl) as (n0 & E0 & G0).
  destruct (Hget 1%nat false eq_refl) as (n1 & E1 & G1).
  apply ok_inj in E0. apply ok_inj in E1. subst n0 n1. split; assumption.
Defined.

(** *** The statements at an array of three live slots *)

Lemma three_of_four_wf : wf three_of_four.
Proof. unfold wf, Np.len. simpl. split; [lia|]. split; reflexivity. Defined.

Lemma getitem_reads_the_live_part_witness :
  __getitem__ three_of_four 2 = ok (Some 9) /\
  __getitem__ three_of_four (-1) = ok (Some 9) /\
  __getitem__ three_of_four 3 = raise IndexError.
Proof.
  split; [|split].
  - destruct (getitem_reads_the_live_part three_of_four 2 three_of_four_wf)
      as (H & _ & _).
    destruct H as (c & Hc & Hg); [simpl; lia|].
    simpl in Hc. injection Hc as <-. exact Hg.
  - destruct (getitem_reads_the_live_part three_of_four (-1) three_of_four_wf)
      as (_ & H & _).
    destruct H as (c & Hc & Hg); [simpl; lia|].
    simpl in Hc. injection Hc as <-. exact Hg.
  - destruct (getitem_reads_the_live_part three_of_four 3 three_of_four_wf)
      as (_ & _ & H).
    apply H. right. simpl. lia.
Defined.

Lemma setitem_then_getitem_witness :
  exists a,
    __setitem__ three_of_four (-2) 5 = ok a /\
    __getitem__ a (-2) = ok (Some 5) /\
    __getitem__ a 0 = ok (Some 7) /\
    __setitem__ three_of_four 3 5 = raise IndexError.
Proof.
  destruct (setitem_then_getitem three_of_four (-2) 5 three_of_four_wf) as [Hin _].
  destruct Hin as (a & Ha & Hwf & Hsh & Hsz & Hcap & Hget & Hother); [simpl; lia|].
  exists a. split; [exact Ha|]. split.
  - exact Hget.
  - split.
    + rewrite (Hother 0); [reflexivity|simpl; lia|simpl; discriminate].
    + destruct (setitem_then_getitem three_of_four 3 5 three_of_four_wf) as [_ Hout].
      apply Hout. right. simpl. lia.
Defined.

Lemma extend_then_getitem_witness :
  exists a,
    extend 0 three_of_four [5; 6] = ok a /\
    size a = 5 /\
    __getitem__ a 3 = ok (Some 5) /\
    __getitem__ a 4 = ok (Some 6) /\
    __getitem__ a 0 = ok (Some 7).
Proof.
  destruct (extend_then_getitem 0 three_of_four [5; 6] three_of_four_wf)
    as (a & Ha & Hwf & Hsh & Hsz & Hnew & Hold).
  exists a. split; [exact Ha|]. split; [exact Hsz|].
  split; [exact (Hnew 0%nat 5 eq_refl)|].
  split; [exact (Hnew 1%nat 6 eq_refl)|].
  rewrite (Hold 0); [reflexivity|simpl; lia].
Defined.

Lemma increase_size_grows_by_repetition_witness :
  exists a,
    increase_size 0 three_of_four 1 = ok (mk_view 3 4, a) /\
    capacity a = 8 /\
    data a !! 3%nat = Some None /\
    data a !! 4%nat = Some (Some 7) /\
    data a !! 7%nat = Some None.
Proof.
  destruct (increase_size_grows_by_repetition 0 three_of_four 1 three_of_four_wf)
    as (a & Ha & Hcap & Hpre & Hrep & _); [lia|simpl; lia|].
  assert (forall j : nat, Z.of_nat j < 8 -> Z.of_nat j < capacity a) as Hc
    by (intros j Hj; rewrite Hcap; simpl; lia).
  assert (0 < capacity three_of_four) as H0 by (simpl; lia).
  exists a. split; [exact Ha|]. split; [exact Hcap|].
  split; [exact (Hpre 3%nat ltac:(simpl; lia))|].
  split; [exact (Hrep 4%nat H0 (Hc 4%nat ltac:(lia)))|].
  exact (Hrep 7%nat H0 (Hc 7%nat ltac:(lia))).
Defined.

Lemma decrease_size_undoes_increase_size_witness :
  exists v a1 a2,
    increase_size 0 three_of_four 2 = ok (v, a1) /\
    decrease_size a1 2 = ok (v, a2) /\
    v = mk_view 3 5 /\
    size a2 = 3 /\ capacity a2 = 8 /\
    __getitem__ a2 2 = ok (Some 9).
Proof.
  destruct (decrease_size_undoes_increase_size 0 three_of_four 2 three_of_four_wf)
    as (v & a1 & a2 & H1 & H2 & Hv & Hsz & Hsh & Hc1 & Hc2 & Hwf & Hget); [lia|].
  exists v, a1, a2. split; [exact H1|]. split; [exact H2|]. split; [exact Hv|].
  split; [exact Hsz|]. split.
  - rewrite Hc1. vm_compute in H1. apply ok_inj in H1. injection H1 as _ <-. reflexivity.
  - rewrite (Hget 2); [reflexivity|simpl; lia].
Defined.

Lemma decrease_size_checks_the_upper_bound_witness :
  decrease_size three_of_four 4 = raise AssertionError /\
  (exists a, decrease_size three_of_four 2 = ok (mk_view 1 3, a) /\ size a = 1) /\
  (exists l a, decrease_size three_of_four (-2) = ok (mk_view l l, a) /\
     size a = 5 /\ capacity a = 4).
Proof.
  split; [|split].
  - destruct (decrease_size_checks_the_upper_bound three_of_four 4 three_of_four_wf)
      as [H _]. apply H. simpl. lia.
  - destruct (decrease_size_checks_the_upper_bound three_of_four 2 three_of_four_wf)
      as [_ H].
    destruct H as (l & h & Hd & Hpos & _); [simpl; lia|].
    destruct Hpos as [-> ->]; [lia|]. eexists. split; [exact Hd|]. reflexivity.
  - destruct (decrease_size_checks_the_upper_bound three_of_four (-2) three_of_four_wf)
      as [_ H].
    destruct H as (l & h & Hd & _ & Hneg); [simpl; lia|].
    rewrite <- (Hneg ltac:(lia)) in Hd. exists l. eexists. split; [exact Hd|].
    split; reflexivity.
Defined.

Lemma shrink_then_increase_size_witness :
  exists a1 v a2,
    shrink 0 three_of_four = ok a1 /\
    capacity a1 = 3 /\ data a1 = [Some 7; Some 8; Some 9] /\
    increase_size 0 a1 0 = ok (v, a2) /\ capacity a2 = 6.
Proof.
  destruct (shrink_then_increase_size 0 three_of_four three_of_four_wf)
    as (a1 & H1 & Hwf & Hcap & Hsz & Hsh & Hdata & Hget & Hinc).
  destruct (Hinc 0 ltac:(lia)) as (v & a2 & H2 & Hc2).
  exists a1, v, a2. split; [exact H1|]. split; [exact Hcap|]. split; [exact Hdata|].
  split; [exact H2|]. exact Hc2.
Defined.

Lemma calls_keep_the_array_in_order_witness :
  (exists a, calls 0 three_of_four [IncreaseSize 2; Extend [1; 2]; DecreaseSize 1] = ok a /\
     wf a) /\
  calls 0 three_of_four [Extend [1]; DecreaseSize 5] = raise AssertionError.
Proof.
  split.
  - destruct (calls_keep_the_array_in_order 0 three_of_four
                [IncreaseSize 2; Extend [1; 2]; DecreaseSize 1] three_of_four_wf)
      as [Hok _].
    + repeat constructor; simpl; lia.
    + eexists. split; [reflexivity|]. apply Hok. reflexivity.
  - destruct (calls_keep_the_array_in_order 0 three_of_four
                [Extend [1]; DecreaseSize 5] three_of_four_wf) as [_ Herr].
    + repeat constructor; simpl; lia.
    + destruct (calls 0 three_of_four [Extend [1]; DecreaseSize 5]) as [e|a] eqn:E.
      * rewrite (Herr e eq_refl). reflexivity.
      * vm_compute in E. discriminate.
Defined.

End DynamicArrayMore.


(** ** Half-edge domains: what a pass splits, what it keeps, and the other methods *)

Module DomainMore.
Import HalfEdgeDomain NpFacts TableFacts DomainFacts UnitSquare.

(** *** Masks that mark nothing *)

Lemma select_all_false {B} (n : nat) (a : list B) : Np.select (replicate n false) a = [].
Proof. revert a. induction n as [|n IH]; intros [|x a]; simpl; auto. Qed.

Lemma count_true_and_false (m : list bool) (n : nat) :
  Np.count_true (zip_with andb m (replicate n false)) = O.
Proof.
  revert n. induction m as [|b m IH]; intros [|n]; simpl; try reflexivity.
  rewrite andb_false_r, IH. reflexivity.
Qed.

Lemma symmetrised_all_false (H : list HEdge) (n : nat) :
  symmetrised H (replicate n false) = replicate n false.
Proof. unfold symmetrised. rewrite select_all_false. reflexivity. Qed.

Lemma at_all_false (n : nat) (h : Z) : at_ (replicate n false) h = false.
Proof.
  unfold at_. destruct (replicate n false !! Z.to_nat h) as [b|] eqn:E; [|reflexivity].
  apply lookup_replicate in E as [-> _]. reflexivity.
Qed.

Lemma row_eta (r : HEdge) :
  mkHEdge (target r) (region r) (next r) (prev r) (twin r) (primary r) = r.
Proof. destruct r. reflexivity. Qed.

(** *** The rows after a pass *)

Section Rows.
Variables (NE NV : Z) (V : list point) (H : list HEdge) (M : list bool).
Hypothesis Hwf : well_formed NV H.
Hypothesis Hinv : invariants H.
Hypothesis HV : NV = Np.len V.
Hypothesis HE : NE = Np.len H.
Hypothesis Hsym : symmetric H M.

Let flag0 : list bool := zip_with andb (isMain H) M.
Let c : nat := Np.count_true flag0.
Let R : list HEdge := linked (rewired NE H M c ++ new_rows NV H M c).

Lemma edge_main_twin (h : Z) :
  is_halfedge H h -> edge_main H (twin (row H h)) = edge_main H h.
Proof.
  intros Hh. unfold edge_main.
  rewrite (primary_twin H Hinv h Hh), (twin_twin H Hinv h Hh).
  destruct (primary (row H h) =? 1); reflexivity.
Qed.

Lemma new_vertex_twin (h : Z) :
  is_halfedge H h -> new_vertex NV H M (twin (row H h)) = new_vertex NV H M h.
Proof. intros Hh. unfold new_vertex. rewrite (edge_main_twin h Hh). reflexivity. Qed.

(** The vertex made for the edge of a marked half-edge is the centre of that
    edge. *)
Lemma new_vertex_lookup (h : Z) :
  is_halfedge H h -> at_ M h = true ->
  (V ++ centres V H flag0) !! Z.to_nat (new_vertex NV H M h)
  = Some (midpoint (V !!! Z.to_nat (target (row H (edge_main H h))))
            (V !!! Z.to_nat (target (row H (twin (row H (edge_main H h))))))).
Proof.
  intros Hh Hm.
  destruct (edge_main_flagged NV H M Hwf Hinv Hsym h Hh Hm) as [Hem Hf].
  fold flag0 in Hf. unfold new_vertex. fold flag0.
  rewrite lookup_app_r by (unfold Np.len in HV; lia).
  replace (Z.to_nat (NV + Z.of_nat (Np.rank flag0 (Z.to_nat (edge_main H h)))) - length V)%nat
    with (Np.rank flag0 (Z.to_nat (edge_main H h))) by (unfold Np.len in HV; lia).
  rewrite (centres_lookup V H flag0 _ (row H (edge_main H h))); [reflexivity|].
  apply select_lookup_rank; [exact Hf|]. apply lookup_row. exact Hem.
Qed.

(** A half-edge that is not marked keeps its row, the [next] column
    excepted. *)
Lemma row_refined_unmarked (h : Z) :
  is_halfedge H h -> at_ M h = false ->
  row R h
  = set_next (row H h)
      (if at_ M (next (row H h)) then new_index NE M (next (row H h))
       else next (row H h)).
Proof.
  intros Hh Hm. unfold R, c, flag0.
  rewrite (row_refined_old NE NV H M Hwf Hinv HE Hsym h Hh). rewrite Hm. reflexivity.
Qed.

(** The ends of the edges stay closed. *)
Lemma refined_closed_ends : closed_ends H -> closed_ends R.
Proof.
  intros Hc j Hj.
  assert (forall h, is_halfedge H h -> target (row R h) = target (row H h)) as Hold.
  { intros h Hh. unfold R, c, flag0.
    rewrite (row_refined_old NE NV H M Hwf Hinv HE Hsym h Hh). reflexivity. }
  assert (forall h, is_halfedge H h -> at_ M h = true ->
            target (row R (new_index NE M h)) = new_vertex NV H M h) as Hnew.
  { intros h Hh Hm. unfold R, c, flag0.
    rewrite (row_refined_new NE NV H M Hwf Hinv HE Hsym h Hh Hm). reflexivity. }
  destruct (refined_cases NE NV H M Hwf Hinv HE Hsym j Hj) as [Hh|(h & Hh & Hm & ->)].
  - destruct (Hwf j Hh) as (_ & _ & Hp & Ht).
    unfold R at 2 4, c, flag0.
    rewrite (row_refined_old NE NV H M Hwf Hinv HE Hsym j Hh). cbn [prev twin].
    destruct (at_ M j) eqn:Hm.
    + assert (at_ M (twin (row H j)) = true) as Hmt
        by (destruct Hsym as [_ Hs]; rewrite Hs by exact Hh; exact Hm).
      fold flag0 c R. rewrite (Hnew j Hh Hm), (Hnew _ Ht Hmt).
      symmetry. apply new_vertex_twin. exact Hh.
    + fold flag0 c R. rewrite (Hold _ Hp), (Hold _ Ht). apply Hc. exact Hh.
  - destruct (Hwf h Hh) as (_ & _ & Hp & Ht).
    unfold R at 2 4, c, flag0.
    rewrite (row_refined_new NE NV H M Hwf Hinv HE Hsym h Hh Hm). cbn [prev twin].
    fold flag0 c R. rewrite (Hold _ Hp), (Hold _ Ht). apply Hc. exact Hh.
Qed.

(** The regions of the refined table are those of the table. *)
Lemma refined_regions (x : Z) : x ∈ region <$> R <-> x ∈ region <$> H.
Proof.
  assert (forall (T : list HEdge) (y : Z),
            y ∈ region <$> T <-> exists h, is_halfedge T h /\ y = region (row T h)) as Hrows.
  { intros T y. split.
    - intros Hy. apply list_elem_of_fmap in Hy as (r & -> & Hr).
      apply list_elem_of_lookup_1 in Hr as (i & Hi).
      apply lookup_row_nat in Hi as (Hi & <-). eauto.
    - intros (h & Hh & ->). apply list_elem_of_fmap. exists (row T h).
      split; [reflexivity|]. eapply list_elem_of_lookup_2. apply lookup_row. exact Hh. }
  rewrite !Hrows. split.
  - intros (j & Hj & ->).
    destruct (refined_cases NE NV H M Hwf Hinv HE Hsym j Hj) as [Hh|(h & Hh & Hm & ->)].
    + exists j. split; [exact Hh|]. unfold R, c, flag0.
      rewrite (row_refined_old NE NV H M Hwf Hinv HE Hsym j Hh). reflexivity.
    + exists h. split; [exact Hh|]. unfold R, c, flag0.
      rewrite (row_refined_new NE NV H M Hwf Hinv HE Hsym h Hh Hm). reflexivity.
  - intros (h & Hh & ->). exists h.
    split; [apply (is_halfedge_refined_old NE NV H M Hwf Hinv HE Hsym h Hh)|].
    unfold R, c, flag0.
    rewrite (row_refined_old NE NV H M Hwf Hinv HE Hsym h Hh). reflexivity.
Qed.

End Rows.

(** Lists with the same members have as many distinct members. *)
Lemma distinct_same_members (l k : list Z) :
  (forall x, x ∈ l <-> x ∈ k) -> Np.len (remove_dups l) = Np.len (remove_dups k).
Proof.
  intros Hlk. unfold Np.len. f_equal. apply Permutation_length.
  apply NoDup_Permutation; [apply NoDup_remove_dups..|].
  intros x. rewrite !elem_of_remove_dups. apply Hlk.
Qed.

(** *** What an adaptive pass splits *)

(** X10.  [boundary_adaptive_refine] in place on a domain that is in order,
    with a mask of the table's length and no centres passed in, splits the
    edges of which a half-edge is marked, and no other: a half-edge counts as
    marked when it or its opposite is.  A half-edge that is not marked keeps
    its row, but its [next], which is the new half-edge made for the [next] it
    had when that one is marked.  For a marked half-edge [h] one row is
    appended, at [NE] plus the number of marked half-edges before [h]: it ends
    at the vertex made for the edge, the midpoint of the ends of the edge, has
    the region, the [prev], the twin and the main flag of [h], and [h] as its
    [next]; [h] keeps its target, gets the new row as [prev] and the row made
    for its twin as twin.  The counts grow by one vertex and two half-edges
    for every split edge. *)
Theorem adaptive_refine_splits_the_marked_edges (σ : heap) (self : t)
    (isMarkedHEdge : loc) (V : list point) (H : list HEdge) (F M0 : list bool) :
  valid σ self -> holds σ self V H F ->
  bools σ !! isMarkedHEdge = Some M0 -> Np.len M0 = NE self ->
  let M := symmetrised H M0 in
  let c := Np.count_true (zip_with andb (isMain H) M) in
  exists self' σ' V' H' F',
    boundary_adaptive_refine self isMarkedHEdge None None None σ = ok (None, self', σ') /\
    holds σ' self' V' H' F' /\
    NV self' = NV self + Z.of_nat c /\
    NE self' = NE self + 2 * Z.of_nat c /\
    Np.len H' = NE self' /\
    forall h, is_halfedge H h ->
      at_ M h = at_ M0 h || at_ M0 (twin (row H h)) /\
      (at_ M h = false ->
       row H' h
       = set_next (row H h)
           (if at_ M (next (row H h)) then new_index (NE self) M (next (row H h))
            else next (row H h))) /\
      (at_ M h = true ->
       let j := new_index (NE self) M h in
       let v := new_vertex (NV self) H M h in
       NE self <= j < NE self' /\ NV self <= v < NV self' /\
       row H' h
       = mkHEdge (target (row H h)) (region (row H h))
           (if at_ M (next (row H h)) then new_index (NE self) M (next (row H h))
            else next (row H h))
           j (new_index (NE self) M (twin (row H h))) (primary (row H h)) /\
       row H' j
       = mkHEdge v (region (row H h)) h (prev (row H h)) (twin (row H h))
           (primary (row H h)) /\
       V' !! Z.to_nat v
       = Some (midpoint (V !!! Z.to_nat (target (row H (edge_main H h))))
                 (V !!! Z.to_nat (target (row H (twin (row H (edge_main H h)))))))).
Proof.
  intros Hv Hh HM HL M c.
  destruct (Refinement.valid_holds σ self V H F Hv Hh) as (HNV & HNE & HF & Htab).
  pose proof Htab as [Hwf Hinv].
  assert (length M0 = length H) as HM' by (unfold Np.len in HL, HNE; lia).
  destruct (adaptive_level σ self V H F M0 isMarkedHEdge Hh HNV HNE HF Htab HM HM'
              None None eq_refl) as (self' & σ' & Hcall & Hh' & HV' & HE' & Hv').
  pose proof (symmetrised_symmetric (NV self) H M0 Hwf Hinv HM') as Hsym. fold M in Hsym.
  fold M c in Hh', HV', HE'.
  eexists self', σ', _, _, _. split; [exact Hcall|]. split; [exact Hh'|].
  split; [exact HV'|]. split; [exact HE'|].
  split.
  { rewrite HE'. unfold refined_adaptive. fold M c.
    apply (length_refined (NE self) (NV self) H M Hwf Hinv HNE Hsym). }
  intros h Hhe. split; [apply (at_symmetrised (NV self) H M0 Hwf Hinv HM' h Hhe)|].
  unfold refined_adaptive. fold M c. split.
  - intros Hm. apply (row_refined_unmarked (NE self) (NV self) H M Hwf Hinv HNE Hsym h Hhe Hm).
  - intros Hm. cbv zeta.
    pose proof (new_index_range (NE self) (NV self) H M Hwf Hinv Hsym h Hhe Hm) as Rj.
    pose proof (new_vertex_range (NV self) H M Hwf Hinv Hsym h Hhe Hm) as Rv.
    fold c in Rj, Rv.
    split; [lia|]. split; [lia|].
    split.
    { pose proof (row_refined_old (NE self) (NV self) H M Hwf Hinv HNE Hsym h Hhe) as Er.
      rewrite Hm in Er. exact Er. }
    split.
    { apply (row_refined_new (NE self) (NV self) H M Hwf Hinv HNE Hsym h Hhe Hm). }
    apply (new_vertex_lookup (NV self) V H M Hwf Hinv HNV Hsym h Hhe Hm).
Qed.

(** X11.  [boundary_adaptive_refine] in place with a mask that marks nothing
    leaves a domain in order as it is: the arrays the domain then refers to
    hold the vertices, the rows and the fixed flags it had, and the counts are
    the same. *)
Theorem adaptive_refine_nothing_marked (σ : heap) (self : t) (isMarkedHEdge : loc)
    (V : list point) (H : list HEdge) (F : list bool) :
  valid σ self -> holds σ self V H F ->
  bools σ !! isMarkedHEdge = Some (replicate (Z.to_nat (NE self)) false) ->
  exists self' σ',
    boundary_adaptive_refine self isMarkedHEdge None None None σ = ok (None, self', σ') /\
    holds σ' self' V H F /\
    NV self' = NV self /\ NE self' = NE self.
Proof.
  intros Hv Hh HM.
  destruct (Refinement.valid_holds σ self V H F Hv Hh) as (HNV & HNE & HF & Htab).
  pose proof Htab as [Hwf Hinv].
  set (n := Z.to_nat (NE self)) in *.
  assert (length (replicate n false) = length H) as HM'
    by (rewrite length_replicate; unfold Np.len in HNE; lia).
  destruct (adaptive_level σ self V H F _ isMarkedHEdge Hh HNV HNE HF Htab HM HM'
              None None eq_refl) as (self' & σ' & Hcall & Hh' & HV' & HE' & Hv').
  pose proof (symmetrised_symmetric (NV self) H _ Hwf Hinv HM') as Hsym.
  unfold refined_adaptive in Hh'.
  rewrite symmetrised_all_false in Hh', HV', HE', Hsym.
  rewrite count_true_and_false in Hh', HV', HE'.
  exists self', σ'. split; [exact Hcall|]. split; [|lia].
  assert (centres V H (zip_with andb (isMain H) (replicate n false)) = []) as Ec.
  { apply nil_length_inv.
    rewrite (length_centres V H (replicate n false) Hsym).
    apply count_true_and_false. }
  assert ((if decide (fixed self = isMarkedHEdge) then replicate n false else F) = F) as EF.
  { destruct (decide (fixed self = isMarkedHEdge)) as [E|E]; [|reflexivity].
    destruct Hh as (_ & _ & HFl). rewrite E, HM in HFl. congruence. }
  assert (linked (rewired (NE self) H (replicate n false) 0
                    ++ new_rows (NV self) H (replicate n false) 0) = H) as ER.
  { pose proof (length_refined (NE self) (NV self) H (replicate n false) Hwf Hinv HNE Hsym)
      as LR.
    rewrite count_true_and_false in LR.
    apply list_eq. intros i.
    destruct (decide (i < length H)%nat) as [Hi|Hi].
    - assert (is_halfedge H (Z.of_nat i)) as Hhe by (unfold is_halfedge, Np.len; lia).
      pose proof (row_refined_old (NE self) (NV self) H (replicate n false) Hwf Hinv HNE
                    Hsym _ Hhe) as Er.
      rewrite count_true_and_false in Er. rewrite !at_all_false in Er.
      rewrite row_eta in Er.
      pose proof (lookup_row H _ Hhe) as E1.
      assert (is_halfedge (linked (rewired (NE self) H (replicate n false) 0
                                     ++ new_rows (NV self) H (replicate n false) 0))
                (Z.of_nat i)) as Hhe'
        by (unfold is_halfedge; rewrite LR; unfold Np.len in HNE; lia).
      pose proof (lookup_row _ _ Hhe') as E2.
      rewrite Nat2Z.id in E1, E2. rewrite E1, E2, Er. reflexivity.
    - unfold Np.len in LR, HNE. rewrite !lookup_ge_None_2; [reflexivity|lia|lia]. }
  rewrite Ec, EF, ER in Hh'. cbn [replicate] in Hh'.
  rewrite !app_nil_r in Hh'. exact Hh'.
Qed.

(** *** What refinement keeps *)

Lemma uniform_levels_ends (k : nat) :
  forall (σ : heap) (self : t) (V : list point) (H : list HEdge) (F : list bool)
         (vl hl : loc),
    valid σ self -> holds σ self V H F -> closed_ends H ->
    exists self' σ' V' H' F',
      uniform_loop k true self vl hl σ = ok (None, self', σ') /\
      holds σ' self' V' H' F' /\ valid σ' self' /\ closed_ends H'.
Proof.
  induction k as [|k IH]; intros σ self V H F vl hl Hv Hh Hc.
  - exists self, σ, V, H, F. split; [reflexivity|]. auto.
  - destruct (Refinement.valid_holds σ self V H F Hv Hh) as (HNV & HNE & HF & Htab).
    pose proof Htab as [Hwf Hinv].
    destruct (uniform_level σ self V H F Hh HNV HNE HF Htab vl hl)
      as (self1 & σ1 & Hloop & Hh1 & _ & _ & Hv1).
    pose proof (refined_closed_ends (NE self) (NV self) H _ Hwf Hinv HNE
                  (all_true_symmetric (NV self) H Hwf) Hc) as Hc1.
    rewrite (flag0_all_true H) in Hc1.
    destruct (IH σ1 self1 _ _ _ (vertices self1) (halfedge self1) Hv1 Hh1 Hc1)
      as (self' & σ' & V' & H' & F' & Hk & Hh' & Hv' & Hc').
    exists self', σ', V', H', F'. split; [rewrite Hloop; exact Hk|]. auto.
Qed.

(** X12.  In a table whose edges are closed (the half-edge before [h] and the
    opposite of [h] end at the same vertex, the one [h] starts from), they are
    closed again after [boundary_uniform_refine] in place with any number of
    levels and after [boundary_adaptive_refine] in place with any mask of the
    table's length: the two halves of a split edge meet at the new vertex. *)
Theorem refinement_keeps_edges_closed (σ : heap) (self : t)
    (V : list point) (H : list HEdge) (F : list bool) :
  valid σ self -> holds σ self V H F -> closed_ends H ->
  (forall n : Z,
     exists self' σ' V' H' F',
       boundary_uniform_refine self n None None σ = ok (None, self', σ') /\
       holds σ' self' V' H' F' /\ closed_ends H') /\
  (forall (isMarkedHEdge : loc) (M : list bool),
     bools σ !! isMarkedHEdge = Some M -> Np.len M = NE self ->
     exists self' σ' V' H' F',
       boundary_adaptive_refine self isMarkedHEdge None None None σ
       = ok (None, self', σ') /\
       holds σ' self' V' H' F' /\ closed_ends H').
Proof.
  intros Hv Hh Hc. split.
  - intros n. rewrite Refinement.uniform_refine_in_place.
    destruct (uniform_levels_ends (Z.to_nat n) σ self V H F (vertices self) (halfedge self)
                Hv Hh Hc) as (self' & σ' & V' & H' & F' & Hk & Hh' & _ & Hc').
    exists self', σ', V', H', F'. auto.
  - intros ml M HM HL.
    destruct (Refinement.valid_holds σ self V H F Hv Hh) as (HNV & HNE & HF & Htab).
    pose proof Htab as [Hwf Hinv].
    assert (length M = length H) as HM' by (unfold Np.len in HL, HNE; lia).
    destruct (adaptive_level σ self V H F M ml Hh HNV HNE HF Htab HM HM' None None eq_refl)
      as (self' & σ' & Hcall & Hh' & _).
    eexists self', σ', _, _, _. split; [exact Hcall|]. split; [exact Hh'|].
    apply (refined_closed_ends (NE self) (NV self) H _ Hwf Hinv HNE
             (symmetrised_symmetric (NV self) H M Hwf Hinv HM') Hc).
Qed.

(** The loop and the adaptive pass copy [NS] and [GD]. *)
Lemma uniform_loop_keeps_NS (k : nat) :
  forall (inplace : bool) (self : t) (vl hl : loc) (σ : heap) r (self' : t) (σ' : heap),
    uniform_loop k inplace self vl hl σ = ok (r, self', σ') ->
    NS self' = NS self /\ GD self' = GD self.
Proof.
  induction k as [|k IH]; intros inplace self vl hl σ r self' σ' Hk.
  - cbn in Hk. apply ok_inj in Hk. injection Hk as _ <- _. auto.
  - cbn [uniform_loop] in Hk. bind_inv Hk.
    destruct (alloc_floats _ _) as [vnew σ1].
    destruct (alloc_table _ _) as [hnew σ2].
    destruct inplace.
    + bind_inv Hk. destruct (alloc_bools _ _) as [fnew σ3].
      apply IH in Hk as [-> ->]. auto.
    + apply ok_inj in Hk. injection Hk as _ <- _. auto.
Qed.

Lemma adaptive_keeps_NS (self : t) (ml : loc) (vertices_ halfedge_ edgecenter : option loc)
    (σ : heap) r (self' : t) (σ' : heap) :
  boundary_adaptive_refine self ml vertices_ halfedge_ edgecenter σ = ok (r, self', σ') ->
  NS self' = NS self /\ GD self' = GD self.
Proof.
  unfold boundary_adaptive_refine. intros Hk. bind_inv Hk.
  destruct edgecenter as [el|]; cbn beta iota zeta in Hk;
    repeat match type of Hk with
           | context [alloc_floats ?a ?b] => destruct (alloc_floats a b) as [? ?]
           | context [alloc_table ?a ?b] => destruct (alloc_table a b) as [? ?]
           end;
    (destruct (negb _);
     [bind_inv Hk;
      repeat match type of Hk with
             | context [alloc_bools ?a ?b] => destruct (alloc_bools a b) as [? ?]
             end|];
     apply ok_inj in Hk; injection Hk as _ <- _; auto).
Qed.

Lemma uniform_levels_regions (k : nat) :
  forall (σ : heap) (self : t) (V : list point) (H : list HEdge) (F : list bool)
         (vl hl : loc),
    valid σ self -> holds σ self V H F ->
    exists self' σ' V' H' F',
      uniform_loop k true self vl hl σ = ok (None, self', σ') /\
      holds σ' self' V' H' F' /\ valid σ' self' /\
      forall x, x ∈ region <$> H' <-> x ∈ region <$> H.
Proof.
  induction k as [|k IH]; intros σ self V H F vl hl Hv Hh.
  - exists self, σ, V, H, F. split; [reflexivity|]. tauto.
  - destruct (Refinement.valid_holds σ self V H F Hv Hh) as (HNV & HNE & HF & Htab).
    pose proof Htab as [Hwf Hinv].
    destruct (uniform_level σ self V H F Hh HNV HNE HF Htab vl hl)
      as (self1 & σ1 & Hloop & Hh1 & _ & _ & Hv1).
    pose proof (refined_regions (NE self) (NV self) H _ Hwf Hinv HNE
                  (all_true_symmetric (NV self) H Hwf)) as Hr1.
    rewrite (flag0_all_true H) in Hr1.
    destruct (IH σ1 self1 _ _ _ (vertices self1) (halfedge self1) Hv1 Hh1)
      as (self' & σ' & V' & H' & F' & Hk & Hh' & Hv' & Hr').
    exists self', σ', V', H', F'. split; [rewrite Hloop; exact Hk|].
    split; [exact Hh'|]. split; [exact Hv'|].
    intros x. rewrite Hr'. apply Hr1.
Qed.

(** X13.  Refinement in place never touches [NS] and [GD], and it keeps the
    set of the region ids of the table.  So on a domain that is in order and
    whose [NS] is the number of distinct region ids of its table, as
    [__init__] sets it by default, [number_of_subdomains()] is that number
    again after [boundary_uniform_refine] with any number of levels and after
    [boundary_adaptive_refine] with any mask of the table's length. *)
Theorem refinement_keeps_number_of_subdomains (σ : heap) (self : t)
    (V : list point) (H : list HEdge) (F : list bool) :
  valid σ self -> holds σ self V H F ->
  NS self = Np.len (remove_dups (region <$> H)) ->
  (forall n : Z,
     exists self' σ' V' H' F',
       boundary_uniform_refine self n None None σ = ok (None, self', σ') /\
       holds σ' self' V' H' F' /\
       (forall x, x ∈ region <$> H' <-> x ∈ region <$> H) /\
       number_of_subdomains self' = Np.len (remove_dups (region <$> H')) /\
       number_of_subdomains self' = number_of_subdomains self /\ GD self' = GD self) /\
  (forall (isMarkedHEdge : loc) (M : list bool),
     bools σ !! isMarkedHEdge = Some M -> Np.len M = NE self ->
     exists self' σ' V' H' F',
       boundary_adaptive_refine self isMarkedHEdge None None None σ
       = ok (None, self', σ') /\
       holds σ' self' V' H' F' /\
       (forall x, x ∈ region <$> H' <-> x ∈ region <$> H) /\
       number_of_subdomains self' = Np.len (remove_dups (region <$> H')) /\
       number_of_subdomains self' = number_of_subdomains self /\ GD self' = GD self).
Proof.
  intros Hv Hh HNS. unfold number_of_subdomains. split.
  - intros n. rewrite Refinement.uniform_refine_in_place.
    destruct (uniform_levels_regions (Z.to_nat n) σ self V H F (vertices self)
                (halfedge self) Hv Hh) as (self' & σ' & V' & H' & F' & Hk & Hh' & _ & Hr).
    destruct (uniform_loop_keeps_NS _ _ _ _ _ _ _ _ _ Hk) as [E1 E2].
    exists self', σ', V', H', F'. split; [exact Hk|]. split; [exact Hh'|].
    split; [exact Hr|]. split; [|auto].
    rewrite E1, HNS. symmetry. apply distinct_same_members. exact Hr.
  - intros ml M HM HL.
    destruct (Refinement.valid_holds σ self V H F Hv Hh) as (HNV & HNE & HF & Htab).
    pose proof Htab as [Hwf Hinv].
    assert (length M = length H) as HM' by (unfold Np.len in HL, HNE; lia).
    destruct (adaptive_level σ self V H F M ml Hh HNV HNE HF Htab HM HM' None None eq_refl)
      as (self' & σ' & Hcall & Hh' & _).
    destruct (adaptive_keeps_NS _ _ _ _ _ _ _ _ _ Hcall) as [E1 E2].
    pose proof (refined_regions (NE self) (NV self) H _ Hwf Hinv HNE
                  (symmetrised_symmetric (NV self) H M Hwf Hinv HM')) as Hr.
    eexists self', σ', _, _, _. split; [exact Hcall|]. split; [exact Hh'|].
    split; [exact Hr|]. split; [|auto].
    rewrite E1, HNS. symmetry. apply distinct_same_members. exact Hr.
Qed.

(** *** Levels compose *)

Lemma uniform_loop_in_place (k : nat) (self : t) (vl hl vl' hl' : loc) (σ : heap) :
  uniform_loop k true self vl hl σ = uniform_loop k true self vl' hl' σ.
Proof. destruct k; reflexivity. Qed.

Lemma uniform_loop_add (m n : nat) :
  forall (self : t) (vl hl : loc) (σ : heap),
    uniform_loop (m + n) true self vl hl σ
    = (r ← uniform_loop m true self vl hl σ;
       uniform_loop n true r.1.2 (vertices r.1.2) (halfedge r.1.2) r.2).
Proof.
  induction m as [|m IH]; intros self vl hl σ.
  - cbn [uniform_loop Nat.add]. rewrite bind_ok. apply uniform_loop_in_place.
  - cbn [uniform_loop Nat.add].
    destruct (read (floats σ) (vertices self)) as [e|V]; [reflexivity|].
    rewrite !(bind_ok V).
    destruct (read (tables σ) (halfedge self)) as [e|H]; [reflexivity|].
    rewrite !(bind_ok H).
    destruct (uniform_pass (NE self) (NV self) V H) as [e|p]; [reflexivity|].
    rewrite !(bind_ok p).
    destruct (alloc_floats _ _) as [vnew σ1].
    destruct (alloc_table _ _) as [hnew σ2].
    destruct (read (bools σ2) (fixed self)) as [e|F]; [reflexivity|].
    rewrite !(bind_ok F).
    destruct (alloc_bools _ _) as [fnew σ3].
    apply IH.
Qed.

(** X14.  In place, [boundary_uniform_refine(m + n)] is
    [boundary_uniform_refine(m)] followed by [boundary_uniform_refine(n)],
    for all [m, n >= 0] and on every domain: the same result, the same error
    if one is raised.  With [n <= 0] the loop body never runs: the call
    returns [None] and changes nothing, also when arrays are passed in. *)
Theorem uniform_refine_levels_compose (self : t) (σ : heap) :
  (forall m n : Z, 0 <= m -> 0 <= n ->
     boundary_uniform_refine self (m + n) None None σ
     = (r ← boundary_uniform_refine self m None None σ;
        boundary_uniform_refine r.1.2 n None None r.2)) /\
  (forall (n : Z) (vertices_ halfedge_ : option loc), n <= 0 ->
     boundary_uniform_refine self n vertices_ halfedge_ σ = ok (None, self, σ)).
Proof.
  split.
  - intros m n Hm Hn. rewrite Refinement.uniform_refine_in_place.
    rewrite Z2Nat.inj_add by assumption. rewrite uniform_loop_add.
    rewrite Refinement.uniform_refine_in_place.
    destruct (uniform_loop (Z.to_nat m) true self (vertices self) (halfedge self) σ)
      as [e|[[r self'] σ']]; reflexivity.
  - intros n vl hl Hn. unfold boundary_uniform_refine.
    replace (Z.to_nat n) with O by lia. reflexivity.
Qed.

(** *** The arrays a level leaves behind *)

(** One level in place: it writes to the table the domain refers to, and the
    three arrays the domain refers to afterwards are new objects. *)
Lemma uniform_step (σ : heap) (self : t) (vl hl : loc)
    (V : list point) (H : list HEdge) (F : list bool) (p : pass) :
  holds σ self V H F ->
  uniform_pass (NE self) (NV self) V H = ok p ->
  exists self' σ',
    uniform_loop 1 true self vl hl σ = ok (None, self', σ') /\
    tables σ' !! halfedge self = Some (written p) /\
    floats σ !! vertices self' = None /\
    tables σ !! halfedge self' = None /\
    bools σ !! fixed self' = None /\
    (forall l X, floats σ !! l = Some X -> floats σ' !! l = Some X) /\
    (forall l X, bools σ !! l = Some X -> bools σ' !! l = Some X) /\
    (forall l T, l <> halfedge self -> tables σ !! l = Some T -> tables σ' !! l = Some T).
Proof.
  intros (HV & HH & HF) Hp.
  set (σ1 := write_table σ (halfedge self) (written p)).
  destruct (alloc (floats σ1) (V ++ ec p)) as [vnew m1] eqn:E1.
  destruct (alloc (tables σ1) (refined p)) as [hnew m2] eqn:E2.
  destruct (alloc (bools σ1) (F ++ replicate (length (ec p)) false)) as [fnew m4] eqn:E4.
  assert (bools σ1 !! fixed self = Some F) as HF1 by exact HF.
  exists (mk vnew hnew (GD self) (NS self) (NV self + NE self / 2) (NE self * 2) fnew),
    (mkHeap m1 m2 m4).
  split.
  { cbn [uniform_loop].
    rewrite (read_ok _ _ _ HV), bind_ok.
    rewrite (read_ok _ _ _ HH), bind_ok.
    rewrite Hp, bind_ok. fold σ1.
    unfold alloc_floats at 1. rewrite E1.
    unfold alloc_table at 1. cbn [floats tables bools]. rewrite E2.
    cbn [floats tables bools].
    rewrite (read_ok _ _ _ HF1), bind_ok.
    unfold alloc_bools at 1. cbn [floats tables bools]. rewrite E4. reflexivity. }
  cbn [vertices halfedge fixed floats tables bools].
  pose proof (alloc_fresh (floats σ1) (V ++ ec p)) as Ff. rewrite E1 in Ff.
  pose proof (alloc_fresh (tables σ1) (refined p)) as Ft. rewrite E2 in Ft.
  pose proof (alloc_fresh (bools σ1) (F ++ replicate (length (ec p)) false)) as Fb.
  rewrite E4 in Fb. cbn [fst] in Ff, Ft, Fb.
  assert (hnew <> halfedge self) as Hne.
  { intros E. subst σ1. cbn [tables write_table] in Ft.
    rewrite E, lookup_insert_eq in Ft. discriminate. }
  assert (forall l T, tables σ1 !! l = Some T -> m2 !! l = Some T) as Ot.
  { intros l T Hl. pose proof (alloc_other (tables σ1) (refined p) l T Hl) as O.
    rewrite E2 in O. exact O. }
  split.
  { apply Ot. subst σ1. cbn [tables write_table]. apply lookup_insert_eq. }
  split; [exact Ff|].
  split.
  { subst σ1. cbn [tables write_table] in Ft.
    rewrite lookup_insert_ne in Ft by congruence. exact Ft. }
  split; [exact Fb|].
  split.
  { intros l X Hl. pose proof (alloc_other (floats σ1) (V ++ ec p) l X Hl) as O.
    rewrite E1 in O. exact O. }
  split.
  { intros l X Hl.
    pose proof (alloc_other (bools σ1) (F ++ replicate (length (ec p)) false) l X Hl) as O.
    rewrite E4 in O. exact O. }
  intros l T Hl HT. apply Ot. subst σ1. cbn [tables write_table].
  rewrite lookup_insert_ne by congruence. exact HT.
Qed.

(** The levels in place, from the first one on: the table the domain
    referred to holds what the first level wrote, every other array of the
    store is as it was, and the arrays the domain refers to are new ones. *)
Lemma uniform_levels_frame (k : nat) :
  forall (σ : heap) (self : t) (V : list point) (H : list HEdge) (F : list bool)
         (vl hl : loc),
    valid σ self -> holds σ self V H F ->
    exists self' σ',
      uniform_loop (S k) true self vl hl σ = ok (None, self', σ') /\
      tables σ' !! halfedge self
      = Some (rewired (NE self) H (replicate (length H) true) (Np.count_true (isMain H))) /\
      floats σ !! vertices self' = None /\
      tables σ !! halfedge self' = None /\
      bools σ !! fixed self' = None /\
      (forall l X, floats σ !! l = Some X -> floats σ' !! l = Some X) /\
      (forall l X, bools σ !! l = Some X -> bools σ' !! l = Some X) /\
      (forall l T, l <> halfedge self -> tables σ !! l = Some T -> tables σ' !! l = Some T).
Proof.
  induction k as [|k IH]; intros σ self V H F vl hl Hv Hh;
    destruct (Refinement.valid_holds σ self V H F Hv Hh) as (HNV & HNE & HF & Htab);
    pose proof Htab as [Hwf Hinv];
    pose proof (uniform_pass_ok (NE self) (NV self) V H Hwf Hinv HNV HNE) as Hp;
    destruct (uniform_step σ self vl hl V H F _ Hh Hp)
      as (self1 & σ1 & H1 & Hw & Nf & Nt & Nb & Ff & Fb & Ft);
    cbn [written] in Hw.
  - exists self1, σ1. auto 10.
  - destruct (uniform_level σ self V H F Hh HNV HNE HF Htab vl hl)
      as (self1' & σ1' & Hloop & Hh1 & _ & _ & Hv1).
    pose proof (Hloop O) as E0. cbn [uniform_loop] in E0.
    change (uniform_loop 1 true self vl hl σ = ok (None, self1', σ1')) in E0.
    rewrite H1 in E0. apply ok_inj in E0. injection E0 as <- <-.
    destruct (IH σ1 self1 _ _ _ (vertices self1) (halfedge self1) Hv1 Hh1)
      as (self' & σ' & Hk & _ & Nf' & Nt' & Nb' & Ff' & Fb' & Ft').
    exists self', σ'. split; [rewrite Hloop; exact Hk|].
    assert (halfedge self <> halfedge self1) as Hne.
    { intros E. destruct Hh as (_ & HH & _). rewrite E, Nt in HH. discriminate. }
    split; [apply Ft'; [exact Hne|exact Hw]|].
    split.
    { destruct (floats σ !! vertices self') as [X|] eqn:E; [|reflexivity].
      apply Ff in E. rewrite Nf' in E. discriminate. }
    split.
    { destruct (tables σ !! halfedge self') as [T|] eqn:E; [|reflexivity].
      exfalso. destruct (decide (halfedge self' = halfedge self)) as [E'|E'].
      - rewrite E', Hw in Nt'. discriminate.
      - apply (Ft _ _ E') in E. rewrite Nt' in E. discriminate. }
    split.
    { destruct (bools σ !! fixed self') as [X|] eqn:E; [|reflexivity].
      apply Fb in E. rewrite Nb' in E. discriminate. }
    split; [intros l X Hl; apply Ff', Ff, Hl|].
    split; [intros l X Hl; apply Fb', Fb, Hl|].
    intros l T Hl HT. apply Ft'.
    + intros E. rewrite E, Nt in HT. discriminate.
    + apply Ft; assumption.
Qed.

(** X15.  [boundary_uniform_refine(n)] in place, [n >= 1], on a domain that
    is in order makes the domain refer to three new arrays and leaves the
    vertex array and the fixed flags it referred to as they were, but not the
    table: the first level writes to it, so that afterwards every row [h] of
    the table the domain was made of has [NE + h] as [prev] and
    [NE + twin(h)] as twin, rows that table does not have.  Every other array
    of the store is untouched. *)
Theorem in_place_refinement_rewrites_the_old_table (σ : heap) (self : t)
    (V : list point) (H : list HEdge) (F : list bool) (n : Z) :
  valid σ self -> holds σ self V H F -> 1 <= n ->
  exists self' σ' Hw,
    boundary_uniform_refine self n None None σ = ok (None, self', σ') /\
    vertices self' <> vertices self /\ halfedge self' <> halfedge self /\
    fixed self' <> fixed self /\
    floats σ' !! vertices self = Some V /\
    bools σ' !! fixed self = Some F /\
    tables σ' !! halfedge self = Some Hw /\
    Np.len Hw = NE self /\
    (forall h, is_halfedge H h ->
       row Hw h
       = mkHEdge (target (row H h)) (region (row H h)) (next (row H h))
           (NE self + h) (NE self + twin (row H h)) (primary (row H h))) /\
    (forall l T, l <> halfedge self -> tables σ !! l = Some T -> tables σ' !! l = Some T) /\
    (forall l X, floats σ !! l = Some X -> floats σ' !! l = Some X) /\
    (forall l X, bools σ !! l = Some X -> bools σ' !! l = Some X).
Proof.
  intros Hv Hh Hn.
  destruct (Refinement.valid_holds σ self V H F Hv Hh) as (HNV & HNE & HF & Htab).
  pose proof Htab as [Hwf Hinv]. pose proof Hh as (HV & HH & HFx).
  rewrite Refinement.uniform_refine_in_place.
  replace (Z.to_nat n) with (S (Z.to_nat (n - 1))) by lia.
  destruct (uniform_levels_frame (Z.to_nat (n - 1)) σ self V H F (vertices self)
              (halfedge self) Hv Hh)
    as (self' & σ' & Hk & Hw & Nf & Nt & Nb & Ff & Fb & Ft).
  exists self', σ', (rewired (NE self) H (replicate (length H) true)
                       (Np.count_true (isMain H))).
  split; [exact Hk|].
  split; [intros E; rewrite E, HV in Nf; discriminate|].
  split; [intros E; rewrite E, HH in Nt; discriminate|].
  split; [intros E; rewrite E, HFx in Nb; discriminate|].
  split; [apply Ff, HV|]. split; [apply Fb, HFx|]. split; [exact Hw|].
  pose proof (all_true_symmetric (NV self) H Hwf) as Hsym.
  split.
  { unfold Np.len.
    pose proof (length_rewired (NE self) H (replicate (length H) true)) as LR.
    rewrite (flag0_all_true H) in LR. rewrite LR. exact (eq_sym HNE). }
  split; [|auto].
  intros h Hhe. unfold row at 1. apply list_lookup_total_correct.
  pose proof (rewired_lookup (NE self) (NV self) H _ Hwf Hinv Hsym h Hhe) as R.
  rewrite (flag0_all_true H) in R. rewrite R.
  rewrite (at_all_true H h Hhe).
  rewrite (new_index_all_true _ H h Hhe).
  rewrite (new_index_all_true _ H _ (twin_is_halfedge _ H Hwf h Hhe)).
  destruct (row H h). reflexivity.
Qed.

(** *** Centres passed in, and arrays that do not fit *)

(** X16.  [boundary_adaptive_refine] in place with centres passed in, one for
    every split edge: the new vertices are the rows of the array passed in,
    as they are and in the order of the main half-edges of the split edges,
    and not the midpoints; the table is the one the call without centres
    makes, the domain is in order again, and the array of the centres is
    neither copied nor written to. *)
Theorem adaptive_refine_takes_the_centres_passed_in (σ : heap) (self : t)
    (isMarkedHEdge edgecenter : loc) (V E : list point) (H : list HEdge)
    (F M0 : list bool) :
  valid σ self -> holds σ self V H F ->
  bools σ !! isMarkedHEdge = Some M0 -> Np.len M0 = NE self ->
  floats σ !! edgecenter = Some E ->
  length E = Np.count_true (zip_with andb (isMain H) (symmetrised H M0)) ->
  exists self' σ' F',
    boundary_adaptive_refine self isMarkedHEdge None None (Some edgecenter) σ
    = ok (None, self', σ') /\
    holds σ' self' (V ++ E) (refined_adaptive self H M0) F' /\
    floats σ' !! edgecenter = Some E /\
    NV self' = NV self + Np.len E /\
    NE self' = NE self + 2 * Np.len E /\
    valid σ' self'.
Proof.
  intros Hv Hh HM HL HE HLE.
  destruct (Refinement.valid_holds σ self V H F Hv Hh) as (HNV & HNE & HF & Htab).
  pose proof Htab as [Hwf Hinv].
  assert (length M0 = length H) as HM' by (unfold Np.len in HL, HNE; lia).
  set (M := symmetrised H M0) in *.
  set (c := Np.count_true (zip_with andb (isMain H) M)) in *.
  assert (adaptive_pass (NE self) (NV self) V H M0 (Some E)
          = ok (adaptive_closed (NE self) (NV self) H M E)) as Hp.
  { apply (adaptive_pass_ok (NE self) (NV self) V H M0 (Some E) Htab HNV HNE HM').
    intros e He. injection He as <-. exact HLE. }
  pose proof (symmetrised_symmetric (NV self) H M0 Hwf Hinv HM') as Hsym. fold M in Hsym.
  destruct (adaptive_in_place_centres σ self isMarkedHEdge edgecenter V E H F M0 _
              Hh HM HE Hp) as (self' & σ' & Hcall & Hh' & HE' & HNV' & HNE').
  unfold adaptive_closed in Hh', HNV', HNE'. cbn [ec refined marked] in Hh', HNV', HNE'.
  fold c in Hh'.
  assert (NV self' = NV self + Np.len E) as HNV''.
  { rewrite HNV', Z.mul_comm, Z.div_mul by lia. reflexivity. }
  eexists self', σ', _. split; [exact Hcall|]. split; [exact Hh'|].
  split; [exact HE'|]. split; [exact HNV''|]. split; [exact HNE'|].
  eexists _, _, _. split; [exact Hh'|].
  pose proof (length_refined (NE self) (NV self) H M Hwf Hinv HNE Hsym) as LR.
  fold c in LR.
  pose proof (refined_valid (NE self) (NV self) V H M Hwf Hinv HNV HNE Hsym) as RV.
  fold c in RV.
  unfold Np.len in *. rewrite !length_app, length_replicate.
  assert (length (if decide (fixed self = isMarkedHEdge) then M else F) = length V) as LF.
  { destruct (decide (fixed self = isMarkedHEdge)) as [E0|E0]; [|lia].
    destruct Hh as (_ & _ & HFl). rewrite E0, HM in HFl. injection HFl as <-.
    destruct Hsym as [-> _]. lia. }
  rewrite LF. split; [lia|]. split; [lia|]. split; [lia|].
  rewrite HNV'', HLE. apply RV.
Qed.

Lemma adaptive_pass_misfit_mask (NE NV : Z) (V : list point) (H : list HEdge)
    (M0 : list bool) (edgecenter : option (list point)) :
  length M0 <> length H ->
  adaptive_pass NE NV V H M0 edgecenter = raise IndexError.
Proof.
  intros HM. unfold adaptive_pass, Np.mask. rewrite length_fmap.
  destruct (Nat.eqb_spec (length M0) (length H)); [contradiction|]. reflexivity.
Qed.

Lemma adaptive_pass_misfit_centres (NE NV : Z) (V E : list point) (H : list HEdge)
    (M0 : list bool) :
  valid_table NV H -> length M0 = length H ->
  length E <> Np.count_true (zip_with andb (isMain H) (symmetrised H M0)) ->
  adaptive_pass NE NV V H M0 (Some E) = raise IndexError.
Proof.
  intros [Hwf Hinv] HM HLE. unfold adaptive_pass.
  rewrite (mask_ok M0 (twin <$> H)) by (rewrite length_fmap; exact HM). step.
  rewrite (put_marks_ok NV H M0 Hwf HM). step. step.
  pose proof (symmetrised_symmetric NV H M0 Hwf Hinv HM) as Hsym.
  fold (isMain H).
  replace (2 * Np.len E) with (Z.of_nat (2 * length E)) by (unfold Np.len; lia).
  rewrite zeros_ok. step.
  unfold Np.mask_set. rewrite length_replicate.
  rewrite (length_flag1 NV H (symmetrised H M0) Hwf Hinv Hsym).
  destruct (Nat.eqb_spec (2 * Np.count_true (zip_with andb (isMain H) (symmetrised H M0)))
              (2 * length E)) as [E0|E0]; [lia|].
  reflexivity.
Qed.

(** X17.  [boundary_adaptive_refine] in place raises IndexError when the
    mask has not one entry for every half-edge (in
    [halfedge[isMarkedHEdge, 4]]), and, on a table that is in order, when the
    centres passed in are not as many as the edges the mask splits (in
    [halfedge1[flag1, 0] = ...]). *)
Theorem adaptive_refine_rejects_arrays_that_do_not_fit (σ : heap) (self : t)
    (isMarkedHEdge : loc) (V : list point) (H : list HEdge) (F M0 : list bool) :
  holds σ self V H F -> bools σ !! isMarkedHEdge = Some M0 ->
  (length M0 <> length H ->
   boundary_adaptive_refine self isMarkedHEdge None None None σ = raise IndexError) /\
  (forall (edgecenter : loc) (E : list point),
     floats σ !! edgecenter = Some E ->
     (length M0 <> length H ->
      boundary_adaptive_refine self isMarkedHEdge None None (Some edgecenter) σ
      = raise IndexError) /\
     (valid_table (NV self) H -> length M0 = length H ->
      length E <> Np.count_true (zip_with andb (isMain H) (symmetrised H M0)) ->
      boundary_adaptive_refine self isMarkedHEdge None None (Some edgecenter) σ
      = raise IndexError)).
Proof.
  intros (HV & HH & HF) HM.
  assert (forall (edgecenter : option loc) (c : option (list point)),
            match edgecenter with
            | None => c = None
            | Some l => exists E, floats σ !! l = Some E /\ c = Some E
            end ->
            adaptive_pass (NE self) (NV self) V H M0 c = raise IndexError ->
            boundary_adaptive_refine self isMarkedHEdge None None edgecenter σ
            = raise IndexError) as Hcall.
  { intros edgecenter c Hc Hp. unfold boundary_adaptive_refine.
    change (negb (supplied None None)) with true. cbv iota.
    rewrite (read_ok _ _ _ HV), bind_ok.
    rewrite (read_ok _ _ _ HH), bind_ok.
    rewrite (read_ok _ _ _ HM), bind_ok.
    destruct edgecenter as [l|].
    - destruct Hc as (E & HE & ->). rewrite (read_ok _ _ _ HE), !bind_ok.
      rewrite Hp. reflexivity.
    - subst c. rewrite bind_ok, Hp. reflexivity. }
  split.
  - intros HL. apply (Hcall None None eq_refl).
    apply adaptive_pass_misfit_mask. exact HL.
  - intros el E HE. split.
    + intros HL. apply (Hcall (Some el) (Some E)); [eauto|].
      apply adaptive_pass_misfit_mask. exact HL.
    + intros Htab HL HLE. apply (Hcall (Some el) (Some E)); [eauto|].
      apply adaptive_pass_misfit_centres; assumption.
Qed.

(** *** [to_halfedgemesh] *)

Lemma unique_members (v : list Z) (x : Z) : x ∈ Np.unique v <-> x ∈ v.
Proof.
  unfold Np.unique. rewrite merge_sort_Permutation. apply elem_of_remove_dups.
Qed.

Lemma unique_NoDup (v : list Z) : NoDup (Np.unique v).
Proof. unfold Np.unique. rewrite merge_sort_Permutation. apply NoDup_remove_dups. Qed.

Lemma unique_increasing (v : list Z) : StronglySorted Z.lt (Np.unique v).
Proof.
  pose proof (unique_NoDup v) as Hnd.
  assert (StronglySorted Z.le (Np.unique v)) as Hs
    by (unfold Np.unique; apply StronglySorted_merge_sort; apply _).
  induction Hs as [|x l Hs IH Hx]; [constructor|].
  apply NoDup_cons in Hnd as [Hnx Hnd]. constructor; [apply IH; exact Hnd|].
  apply Forall_forall. intros y Hy.
  rewrite Forall_forall in Hx. specialize (Hx y Hy).
  assert (x <> y) by (intros ->; contradiction). lia.
Qed.

Lemma index_of_lookup (x : Z) (u : list Z) :
  x ∈ u -> u !! Np.index_of x u = Some x.
Proof.
  induction u as [|y u IH]; intros Hx; [inversion Hx|].
  cbn [Np.index_of]. destruct (decide (x = y)) as [->|Hne]; [reflexivity|].
  apply elem_of_cons in Hx as [E|Hx]; [contradiction|]. cbn. apply IH. exact Hx.
Qed.

Section Mesh.
Context {mesh : Type}.
Variable HalfEdgeMesh : list point -> list Z -> list HEdge -> result mesh.

(** X18.  [to_halfedgemesh()] hands [HalfEdgeMesh] the vertices, the region
    ids of the table, each once and in increasing order, and a table with the
    rows of the domain's in which every region id is replaced by its place in
    that list, so that the id is read back there.  The list is as long as
    [NS] is by default, the other five columns are the domain's, and the
    table handed on is in order when the domain's is. *)
Theorem to_halfedgemesh_numbers_the_regions (σ : heap) (self : t)
    (V : list point) (H : list HEdge) (F : list bool) :
  holds σ self V H F ->
  exists (subdomain : list Z) (H' : list HEdge),
    to_halfedgemesh HalfEdgeMesh self σ = HalfEdgeMesh V subdomain H' /\
    StronglySorted Z.lt subdomain /\
    (forall x, x ∈ subdomain <-> x ∈ region <$> H) /\
    Np.len subdomain = Np.len (remove_dups (region <$> H)) /\
    length H' = length H /\
    (forall h, is_halfedge H h ->
       0 <= region (row H' h) < Np.len subdomain /\
       subdomain !! Z.to_nat (region (row H' h)) = Some (region (row H h)) /\
       row H' h = set_region (row H h) (region (row H' h))) /\
    (forall NV, valid_table NV H -> valid_table NV H').
Proof.
  intros (HV & HH & _). unfold to_halfedgemesh.
  rewrite (read_ok _ _ _ HV), bind_ok, (read_ok _ _ _ HH), bind_ok.
  rewrite col_set_ok by (unfold Np.unique_inverse; rewrite !length_fmap; reflexivity).
  rewrite bind_ok.
  set (S := Np.unique (region <$> H)).
  set (H' := zip_with set_region H (Np.unique_inverse (region <$> H))).
  assert (length H' = length H) as LH.
  { subst H'. unfold Np.unique_inverse. rewrite length_zip_with, !length_fmap. lia. }
  assert (forall h, is_halfedge H h ->
            row H' h = set_region (row H h)
                         (Z.of_nat (Np.index_of (region (row H h)) S))) as Hrow.
  { intros h Hh. unfold row at 1. apply list_lookup_total_correct.
    subst H'. unfold Np.unique_inverse. rewrite lookup_zip_with.
    rewrite (lookup_row H h Hh). cbn [mbind option_bind].
    rewrite !list_lookup_fmap, (lookup_row H h Hh). reflexivity. }
  assert (forall h, is_halfedge H' h <-> is_halfedge H h) as Hhe.
  { intros h. unfold is_halfedge, Np.len. rewrite LH. tauto. }
  exists S, H'. split; [reflexivity|].
  split; [apply unique_increasing|].
  split; [apply unique_members|].
  split.
  { unfold Np.len. f_equal. subst S. unfold Np.unique.
    apply Permutation_length, merge_sort_Permutation. }
  split; [exact LH|].
  split.
  - intros h Hh. rewrite (Hrow h Hh). cbn [region set_region].
    assert (region (row H h) ∈ S) as Hin.
    { apply unique_members. apply list_elem_of_fmap. exists (row H h).
      split; [reflexivity|]. eapply list_elem_of_lookup_2. apply lookup_row. exact Hh. }
    pose proof (index_of_lookup _ _ Hin) as Hl.
    pose proof (lookup_lt_Some _ _ _ Hl) as Hlt.
    rewrite Nat2Z.id. unfold Np.len. split; [lia|]. split; [exact Hl|reflexivity].
  - intros NV [Hwf Hinv]. split.
    + intros h Hh. apply Hhe in Hh. rewrite (Hrow h Hh). cbn [target next prev twin set_region].
      destruct (Hwf h Hh) as (A & B & C & D). unfold is_halfedge, Np.len in *.
      rewrite LH. auto.
    + intros h Hh. apply Hhe in Hh.
      destruct (Hwf h Hh) as (_ & B & C & D). destruct (Hinv h Hh) as (I1 & I2 & I3 & I4).
      rewrite (Hrow h Hh). cbn [twin next prev primary set_region].
      rewrite (Hrow _ D), (Hrow _ C), (Hrow _ B). cbn [twin next prev primary set_region].
      auto.
Qed.

End Mesh.

(** *** [advance_triangle_mesh] *)

Lemma broadcast_misfit {B} (n : nat) (v : list B) :
  length v <> n -> length v <> 1%nat -> Np.broadcast n v = raise ValueError.
Proof.
  intros Hn H1. unfold Np.broadcast.
  destruct (Nat.eqb_spec (length v) n); [contradiction|].
  destruct v as [|x [|y v]]; try reflexivity. simpl in H1. lia.
Qed.

Lemma slice_to_the_end (n : nat) (j : Z) :
  Z.of_nat n < j -> Np.slice_bounds n 0 j = (O, n).
Proof.
  intros Hj. unfold Np.slice_bounds.
  rewrite (DynamicArrayFacts.clamp_inside _ 0) by lia.
  unfold Np.clamp.
  replace (j <? 0) with false by (symmetry; apply Z.ltb_ge; lia). cbv zeta.
  replace (j <? 0) with false by (symmetry; apply Z.ltb_ge; lia).
  replace (Z.of_nat n <? j) with true by (symmetry; apply Z.ltb_lt; lia).
  rewrite Z.max_r by lia. rewrite Nat2Z.id. reflexivity.
Qed.

(** X19.  [advance_triangle_mesh()] copies the arrays of the domain into two
    local arrays of 10000 vertices and 20000 half-edges and returns [None].
    On a domain whose counts are those of its arrays it returns when they
    fit, and raises ValueError (the arrays cannot be broadcast into the
    slices) for more than 10000 vertices or more than 20000 half-edges. *)
Theorem advance_triangle_mesh_has_room_for (σ : heap) (self : t)
    (V : list point) (H : list HEdge) (F : list bool) :
  holds σ self V H F -> NV self = Np.len V -> NE self = Np.len H ->
  (NV self <= 10000 -> NE self <= 20000 -> advance_triangle_mesh self σ = ok tt) /\
  (10000 < NV self -> advance_triangle_mesh self σ = raise ValueError) /\
  (20000 < NE self -> NV self <= 10000 -> advance_triangle_mesh self σ = raise ValueError).
Proof.
  intros (HV & HH & _) HNV HNE. unfold Np.len in HNV, HNE.
  unfold advance_triangle_mesh. cbv zeta.
  rewrite (read_ok _ _ _ HV), bind_ok. rewrite !length_replicate.
  unfold point in *.
  split; [|split].
  - intros Hv He.
    rewrite DynamicArrayFacts.slice_bounds_inside by lia.
    rewrite broadcast_ok by lia. rewrite bind_ok.
    rewrite (read_ok _ _ _ HH), bind_ok.
    rewrite DynamicArrayFacts.slice_bounds_inside by lia.
    rewrite broadcast_ok by lia. reflexivity.
  - intros Hv. rewrite slice_to_the_end by lia.
    rewrite broadcast_misfit by lia. reflexivity.
  - intros He Hv.
    rewrite DynamicArrayFacts.slice_bounds_inside by lia.
    rewrite broadcast_ok by lia. rewrite bind_ok.
    rewrite (read_ok _ _ _ HH), bind_ok.
    rewrite slice_to_the_end by lia.
    rewrite broadcast_misfit by lia. reflexivity.
Qed.

(** *** [__init__] *)

(** X20.  [HalfEdgeDomain(vertices, halfedge)] keeps references to the two
    arrays passed in, without a copy, and makes one new array, the fixed
    flags, with every vertex fixed; the counts are the lengths of the arrays
    and [NS] is the number of distinct region ids of the table.  On a table
    that is in order for the vertices the domain is in order.  With [NS] and
    [fixed] passed in they are taken as they are, and nothing is made. *)
Theorem init_refers_to_the_arrays_passed_in (σ : heap) (vertices_ halfedge_ : loc)
    (V : list point) (H : list HEdge) :
  floats σ !! vertices_ = Some V -> tables σ !! halfedge_ = Some H ->
  (exists (self : t) (σ' : heap),
     __init__ vertices_ halfedge_ None None σ = ok (self, σ') /\
     vertices self = vertices_ /\ halfedge self = halfedge_ /\
     bools σ !! fixed self = None /\
     σ' = mkHeap (floats σ) (tables σ)
            (<[fixed self := replicate (length V) true]> (bools σ)) /\
     number_of_vertices self = Np.len V /\
     number_of_halfedges self = Np.len H /\
     number_of_subdomains self = Np.len (remove_dups (region <$> H)) /\
     (valid_table (Np.len V) H -> valid σ' self)) /\
  (forall (ns : Z) (fixed_ : loc) (F : list bool),
     bools σ !! fixed_ = Some F ->
     __init__ vertices_ halfedge_ (Some ns) (Some fixed_) σ
     = ok (mk vertices_ halfedge_ 2 ns (Np.len V) (Np.len H) fixed_, σ) /\
     (valid_table (Np.len V) H -> Np.len F = Np.len V ->
      valid σ (mk vertices_ halfedge_ 2 ns (Np.len V) (Np.len H) fixed_))).
Proof.
  intros HV HH. split.
  - unfold __init__. rewrite (read_ok _ _ _ HV), bind_ok, (read_ok _ _ _ HH), bind_ok.
    unfold alloc_bools.
    destruct (alloc (bools σ) (replicate (length V) true)) as [fl m] eqn:E.
    pose proof (alloc_fresh (bools σ) (replicate (length V) true)) as Hf.
    rewrite E in Hf. cbn [fst] in Hf.
    assert (m = <[fl := replicate (length V) true]> (bools σ)) as ->
      by (unfold alloc in E; injection E as <- <-; reflexivity).
    eexists _, _. split; [reflexivity|]. cbn [vertices halfedge fixed].
    unfold number_of_vertices, number_of_halfedges, number_of_subdomains.
    cbn [NV NE NS].
    repeat (split; [first [reflexivity | exact Hf]|]).
    intros Htab. exists V, H, (replicate (length V) true).
    split.
    { unfold holds. cbn. split; [exact HV|]. split; [exact HH|]. apply lookup_insert_eq. }
    cbn [NV NE]. split; [reflexivity|]. split; [reflexivity|].
    split; [unfold Np.len; rewrite length_replicate; reflexivity|exact Htab].
  - intros ns fl F HF. split.
    + unfold __init__. rewrite (read_ok _ _ _ HV), bind_ok, (read_ok _ _ _ HH), bind_ok.
      reflexivity.
    + intros Htab HL. exists V, H, F. split; [repeat split; assumption|].
      cbn [NV NE]. auto.
Qed.

(** *** The statements on the unit square *)

Lemma square_closed_ends : closed_ends square_halfedge.
Proof.
  intros h Hh. apply Refinement.square_halfedges in Hh.
  repeat (destruct Hh as [->|Hh]); try subst h; reflexivity.
Qed.

Lemma is_halfedge_square_1 : is_halfedge square_halfedge 1.
Proof. vm_compute. split; [discriminate|reflexivity]. Qed.

Lemma adaptive_refine_splits_the_marked_edges_witness :
  exists self' σ' V' H' F',
    boundary_adaptive_refine square 0%nat None None None store = ok (None, self', σ') /\
    holds σ' self' V' H' F' /\
    NV self' = 5 /\ NE self' = 10 /\
    row H' 0 = mkHEdge 1 1 8 3 4 1 /\
    row H' 1 = mkHEdge 2 1 2 8 9 1 /\
    row H' 8 = mkHEdge 4 1 1 0 5 1 /\
    V' !! 4%nat = Some (1, 0.5)%float.
Proof.
  destruct (adaptive_refine_splits_the_marked_edges store square 0%nat
              square_vertices square_halfedge (replicate 4 true) square_marks
              Refinement.square_valid Refinement.square_holds eq_refl eq_refl)
    as (self' & σ' & V' & H' & F' & Hcall & Hh' & HNV & HNE & HL & Hrows).
  exists self', σ', V', H', F'.
  split; [exact Hcall|]. split; [exact Hh'|]. split; [exact HNV|]. split; [exact HNE|].
  destruct (Hrows 0 ltac:(vm_compute; split; [discriminate|reflexivity]))
    as (_ & H0 & _).
  destruct (Hrows 1 is_halfedge_square_1) as (_ & _ & H1).
  destruct (H1 eq_refl) as (_ & _ & Ho & Hn & Hm).
  split; [exact (H0 eq_refl)|]. split; [exact Ho|]. split; [exact Hn|exact Hm].
Defined.

Lemma adaptive_refine_nothing_marked_witness :
  exists self' σ',
    boundary_adaptive_refine square 2%nat None None None with_centre
    = ok (None, self', σ') /\
    holds σ' self' square_vertices square_halfedge (replicate 4 true) /\
    NV self' = 4 /\ NE self' = 8.
Proof.
  apply (adaptive_refine_nothing_marked with_centre square 2%nat
           square_vertices square_halfedge (replicate 4 true)
           Refinement.with_centre_valid Refinement.with_centre_holds eq_refl).
Defined.

Lemma refinement_keeps_edges_closed_witness :
  (exists self' σ' V' H' F',
     boundary_uniform_refine square 2 None None store = ok (None, self', σ') /\
     holds σ' self' V' H' F' /\ closed_ends H') /\
  (exists self' σ' V' H' F',
     boundary_adaptive_refine square 0%nat None None None store = ok (None, self', σ') /\
     holds σ' self' V' H' F' /\ closed_ends H').
Proof.
  destruct (refinement_keeps_edges_closed store square square_vertices square_halfedge
              (replicate 4 true) Refinement.square_valid Refinement.square_holds square_closed_ends)
    as [HU HA].
  split; [exact (HU 2)|]. exact (HA 0%nat square_marks eq_refl eq_refl).
Defined.

Lemma refinement_keeps_number_of_subdomains_witness :
  (exists self' σ' V' H' F',
     boundary_uniform_refine square 2 None None store = ok (None, self', σ') /\
     holds σ' self' V' H' F' /\
     number_of_subdomains self' = Np.len (remove_dups (region <$> H')) /\
     number_of_subdomains self' = 2) /\
  (exists self' σ' V' H' F',
     boundary_adaptive_refine square 0%nat None None None store = ok (None, self', σ') /\
     holds σ' self' V' H' F' /\
     number_of_subdomains self' = Np.len (remove_dups (region <$> H')) /\
     number_of_subdomains self' = 2).
Proof.
  destruct (refinement_keeps_number_of_subdomains store square square_vertices
              square_halfedge (replicate 4 true) Refinement.square_valid Refinement.square_holds
              eq_refl) as [HU HA].
  split.
  - destruct (HU 2) as (self' & σ' & V' & H' & F' & Hc & Hh & _ & H1 & H2 & _).
    exists self', σ', V', H', F'. auto.
  - destruct (HA 0%nat square_marks eq_refl eq_refl)
      as (self' & σ' & V' & H' & F' & Hc & Hh & _ & H1 & H2 & _).
    exists self', σ', V', H', F'. auto.
Defined.

Lemma in_place_refinement_rewrites_the_old_table_witness :
  exists self' σ' Hw,
    boundary_uniform_refine square 2 None None store = ok (None, self', σ') /\
    halfedge self' <> halfedge square /\
    floats σ' !! 0%nat = Some square_vertices /\
    tables σ' !! 0%nat = Some Hw /\
    Np.len Hw = 8 /\
    row Hw 1 = mkHEdge 2 1 2 9 13 1.
Proof.
  destruct (in_place_refinement_rewrites_the_old_table store square square_vertices
              square_halfedge (replicate 4 true) 2 Refinement.square_valid Refinement.square_holds
              ltac:(lia))
    as (self' & σ' & Hw & Hc & _ & Hne & _ & HV & _ & HT & HL & Hrows & _).
  exists self', σ', Hw. split; [exact Hc|]. split; [exact Hne|]. split; [exact HV|].
  split; [exact HT|]. split; [exact HL|]. exact (Hrows 1 is_halfedge_square_1).
Defined.

Lemma adaptive_refine_takes_the_centres_passed_in_witness :
  exists self' σ' F',
    boundary_adaptive_refine square 0%nat None None (Some 2%nat) with_centre
    = ok (None, self', σ') /\
    holds σ' self' (square_vertices ++ [(1.25, 0.5)%float])
      (refined_adaptive square square_halfedge square_marks) F' /\
    NV self' = 5 /\ NE self' = 10 /\ valid σ' self'.
Proof.
  destruct (adaptive_refine_takes_the_centres_passed_in with_centre square 0%nat 2%nat
              square_vertices [(1.25, 0.5)%float] square_halfedge (replicate 4 true)
              square_marks Refinement.with_centre_valid Refinement.with_centre_holds eq_refl eq_refl eq_refl
              eq_refl)
    as (self' & σ' & F' & Hc & Hh & _ & HNV & HNE & Hv).
  exists self', σ', F'. auto.
Defined.

Lemma adaptive_refine_rejects_arrays_that_do_not_fit_witness :
  boundary_adaptive_refine square 1%nat None None None store = raise IndexError /\
  boundary_adaptive_refine square 0%nat None None (Some 0%nat) store = raise IndexError.
Proof.
  split.
  - destruct (adaptive_refine_rejects_arrays_that_do_not_fit store square 1%nat
                square_vertices square_halfedge (replicate 4 true) (replicate 4 true)
                Refinement.square_holds eq_refl) as [Hm _].
    apply Hm. vm_compute. discriminate.
  - destruct (adaptive_refine_rejects_arrays_that_do_not_fit store square 0%nat
                square_vertices square_halfedge (replicate 4 true) square_marks
                Refinement.square_holds eq_refl) as [_ Hc].
    destruct (Hc 0%nat square_vertices eq_refl) as [_ He].
    apply He; [exact Refinement.square_table_valid|reflexivity|].
    vm_compute. discriminate.
Defined.

Lemma to_halfedgemesh_numbers_the_regions_witness :
  exists (subdomain : list Z) (H' : list HEdge),
    to_halfedgemesh (fun node subdomain halfedge => ok (node, subdomain, halfedge))
      square store
    = ok (square_vertices, subdomain, H') /\
    subdomain = [0; 1] /\
    row H' 0 = mkHEdge 1 1 1 3 4 1 /\
    row H' 4 = mkHEdge 0 0 7 5 0 0 /\
    valid_table 4 H'.
Proof.
  destruct (to_halfedgemesh_numbers_the_regions
              (fun node subdomain halfedge => ok (node, subdomain, halfedge))
              store square square_vertices square_halfedge (replicate 4 true) Refinement.square_holds)
    as (S & H' & Hc & _ & _ & _ & _ & _ & Hv).
  exists S, H'. split; [exact Hc|].
  vm_compute in Hc. injection Hc as <- <-.
  split; [reflexivity|]. split; [reflexivity|]. split; [reflexivity|].
  apply Hv. exact Refinement.square_table_valid.
Defined.

Lemma advance_triangle_mesh_has_room_for_witness :
  advance_triangle_mesh square store = ok tt.
Proof.
  destruct (advance_triangle_mesh_has_room_for store square square_vertices
              square_halfedge (replicate 4 true) Refinement.square_holds eq_refl eq_refl)
    as [Hok _].
  apply Hok; vm_compute; discriminate.
Defined.

Lemma init_refers_to_the_arrays_passed_in_witness :
  __init__ 0%nat 0%nat None None arrays = ok (square, store) /\ valid store square.
Proof.
  destruct (init_refers_to_the_arrays_passed_in arrays 0%nat 0%nat square_vertices
              square_halfedge eq_refl eq_refl) as [(self & σ' & Hc & _ & _ & _ & _ & _ & _ & _ & Hv) _].
  pose proof Hc as Hc'. rewrite Refinement.init_square in Hc'.
  apply ok_inj in Hc'. injection Hc' as <- <-.
  split; [exact Hc|]. apply Hv. exact Refinement.square_table_valid.
Defined.

(** *** Levels asked for with arrays passed in *)

(** X22.  With both arrays passed in, [boundary_uniform_refine(n)] returns
    from inside the loop: for every [n >= 1] it does what it does for
    [n = 1], on every domain and store.  On a table that is in order for the
    vertices passed in, the table returned has twice the rows of the table
    passed in, and not [2^n] times as many, and the vertices returned are one
    more for every two rows. *)
Theorem functional_uniform_refine_runs_one_level (σ : heap) (self : t) (vl hl : loc) :
  (forall n : Z, 1 <= n ->
     boundary_uniform_refine self n (Some vl) (Some hl) σ
     = boundary_uniform_refine self 1 (Some vl) (Some hl) σ) /\
  (forall (V : list point) (H : list HEdge) (n : Z),
     floats σ !! vl = Some V -> tables σ !! hl = Some H -> valid_table (Np.len V) H ->
     1 <= n ->
     exists vnew hnew σ' V' H',
       boundary_uniform_refine self n (Some vl) (Some hl) σ
       = ok (Some (vnew, hnew), self, σ') /\
       floats σ' !! vnew = Some V' /\ tables σ' !! hnew = Some H' /\
       Np.len H' = 2 * Np.len H /\
       2 * Np.len V' = 2 * Np.len V + Np.len H).
Proof.
  assert (forall k, uniform_loop (S k) false self vl hl σ
                    = uniform_loop 1 false self vl hl σ) as Hone.
  { intros k. cbn [uniform_loop].
    destruct (read (floats σ) vl) as [e|V]; [reflexivity|]. rewrite !(bind_ok V).
    destruct (read (tables σ) hl) as [e|H]; [reflexivity|]. rewrite !(bind_ok H).
    destruct (uniform_pass (Np.len H) (Np.len V) V H) as [e|p]; [reflexivity|].
    rewrite !(bind_ok p).
    destruct (alloc_floats _ _) as [vnew σ1]. destruct (alloc_table _ _) as [hnew σ2].
    reflexivity. }
  assert (forall n : Z, 1 <= n ->
            boundary_uniform_refine self n (Some vl) (Some hl) σ
            = boundary_uniform_refine self 1 (Some vl) (Some hl) σ) as Hn.
  { intros n Hn. unfold boundary_uniform_refine.
    replace (Z.to_nat n) with (S (Z.to_nat (n - 1))) by lia.
    change (Z.to_nat 1) with 1%nat. apply Hone. }
  split; [exact Hn|].
  intros V H n HV HH [Hwf Hinv] Hn1. rewrite (Hn n Hn1).
  pose proof (uniform_pass_ok (Np.len H) (Np.len V) V H Hwf Hinv eq_refl eq_refl) as Hp.
  destruct (uniform_functional σ self vl hl V H _ 0 HV HH Hp)
    as (vnew & hnew & _ & _ & _ & Hcall).
  cbn [ec refined written] in Hcall.
  eexists vnew, hnew, _, _, _.
  split; [exact Hcall|]. cbn [floats tables].
  split; [apply lookup_insert_eq|]. split; [apply lookup_insert_eq|].
  pose proof (all_true_symmetric (Np.len V) H Hwf) as Hsym.
  pose proof (length_refined (Np.len H) (Np.len V) H _ Hwf Hinv eq_refl Hsym) as LR.
  pose proof (length_centres V H _ Hsym) as LC.
  pose proof (half_are_main (Np.len V) H Hwf Hinv) as Hhalf.
  rewrite (flag0_all_true H) in LR, LC.
  split.
  - rewrite LR. unfold Np.len. lia.
  - unfold Np.len in *. rewrite length_app, LC. lia.
Qed.

Lemma functional_uniform_refine_runs_one_level_witness :
  exists vnew hnew σ' V' H',
    boundary_uniform_refine square 3 (Some 1%nat) (Some 1%nat) copies
    = ok (Some (vnew, hnew), square, σ') /\
    floats σ' !! vnew = Some V' /\ tables σ' !! hnew = Some H' /\
    Np.len H' = 16 /\ 2 * Np.len V' = 16.
Proof.
  destruct (functional_uniform_refine_runs_one_level copies square 1%nat 1%nat) as [_ Hf].
  apply (Hf square_vertices square_halfedge 3 eq_refl eq_refl
           Refinement.square_table_valid ltac:(lia)).
Defined.

End DomainMore.

